(** * nat-dhcp-lab: the DHCP lease pool and the NAPT table

    A shallow embedding of [dhcp/lease_pool.py] and [nat/nat_table.py].

    Python objects are modelled with an explicit object store: a [Lease]
    or a [Mapping] instance lives in a heap cell, and the two dictionaries
    of each component hold references to the same cell, as they do in the
    source.  Dictionaries are insertion-ordered association lists, because
    the iteration order of [_leases_by_client] decides the order in which
    reclaimed addresses re-enter the queue.  Integers are [Z] (Python
    integers are unbounded).  Exceptions are an explicit result. *)

From stdpp Require Import base list strings gmap.
From Stdlib Require Import ZArith Lia.

Local Open Scope Z_scope.

(** ** Exceptions and the state-and-exception monad *)

Inductive exn : Type :=
| RuntimeError (msg : string)
| KeyError
| AssertionError
| DanglingRef.   (* a reference outside the store: no Python state has one *)

Inductive res (A : Type) : Type :=
| Ok (a : A)
| Raise (e : exn).
Arguments Ok {A} a.
Arguments Raise {A} e.

(** A computation reads a state and yields a result together with the state
    it leaves behind; a raised exception keeps the mutations made so far. *)
Definition M (S A : Type) : Type := S → res A * S.

Definition ret {S A} (a : A) : M S A := λ s, (Ok a, s).
Definition raise {S A} (e : exn) : M S A := λ s, (Raise e, s).
Definition bind {S A B} (c : M S A) (k : A → M S B) : M S B :=
  λ s, match c s with
       | (Ok a, s') => k a s'
       | (Raise e, s') => (Raise e, s')
       end.
Definition gets {S A} (f : S → A) : M S A := λ s, (Ok (f s), s).
Definition modify {S} (f : S → S) : M S unit := λ s, (Ok tt, f s).

Notation "'let!' x ':=' c 'in' k" := (bind c (λ x, k))
  (at level 10, x name, c at level 100, k at level 200).
Notation "'do!' c 'in' k" := (bind c (λ _, k))
  (at level 10, c at level 100, k at level 200).

(** [for x in l: body(x)] *)
Fixpoint for_each {S X} (l : list X) (body : X → M S unit) : M S unit :=
  match l with
  | [] => ret tt
  | x :: l' => do! body x in for_each l' body
  end.

(** ** Insertion-ordered dictionaries *)

Abbreviation dict K V := (list (K * V)).

Section dict.
Context {K V : Type} `{EqDecision K}.

(** [d.get(k)] *)
Fixpoint dict_get (k : K) (d : dict K V) : option V :=
  match d with
  | [] => None
  | (k', v) :: d' => if decide (k = k') then Some v else dict_get k d'
  end.

(** [d[k] = v]: an existing key keeps its position, a new key goes last. *)
Fixpoint dict_set (k : K) (v : V) (d : dict K V) : dict K V :=
  match d with
  | [] => [(k, v)]
  | (k', v') :: d' =>
      if decide (k = k') then (k, v) :: d' else (k', v') :: dict_set k v d'
  end.

(** The dictionary left by [d.pop(k, None)]. *)
Fixpoint dict_del (k : K) (d : dict K V) : dict K V :=
  match d with
  | [] => []
  | (k', v') :: d' =>
      if decide (k = k') then d' else (k', v') :: dict_del k d'
  end.

(** [k in d] *)
Definition dict_mem (k : K) (d : dict K V) : bool :=
  match dict_get k d with Some _ => true | None => false end.
End dict.

(** ** The object store *)

Abbreviation loc := nat.

Section store.
Context {S O : Type}.
Variable heap_of : S → list O.
Variable with_heap : list O → S → S.

(** Reading a field goes through the reference. *)
Definition deref (r : loc) : M S O :=
  λ s, match heap_of s !! r with
       | Some o => (Ok o, s)
       | None => (Raise DanglingRef, s)
       end.

(** A constructor call puts the new object in a fresh cell. *)
Definition new (o : O) : M S loc :=
  λ s, (Ok (length (heap_of s)), with_heap (heap_of s ++ [o]) s).

(** A field assignment rewrites the cell in place. *)
Definition assign (r : loc) (f : O → O) : M S unit :=
  let! o := deref r in modify (λ s, with_heap (<[r := f o]> (heap_of s)) s).
End store.

(** An index is a dictionary over the store: it lists references in
    insertion order and keys each one by a field of the object it points
    to.  Both components keep two indices over one set of objects. *)
Definition index {O K : Type} `{Inhabited O} (key : O → K) (h : list O)
    (rs : list loc) : dict K loc :=
  (λ r, (key (h !!! r), r)) <$> rs.

(** ** IPv4 networks (the part of Python's [ipaddress] the pool uses)

    An address is its 32-bit integer value; a network is given by an
    address and a prefix length, already parsed. *)

Definition IPv4Address : Type := Z.

Definition _ALL_ONES : Z := 2 ^ 32 - 1.

Record IPv4Network : Type := mkNet {
  network_address : IPv4Address;
  prefixlen : Z;
  addr_given : IPv4Address   (* the address as written, before masking *)
}.

Definition netmask (p : Z) : Z := Z.lxor _ALL_ONES (Z.shiftr _ALL_ONES p).
Definition hostmask (p : Z) : Z := Z.lxor (netmask p) _ALL_ONES.

(** [ip_network(address, strict=False)]: host bits are masked off. *)
Definition ip_network (addr : IPv4Address) (p : Z) : IPv4Network :=
  {| network_address := Z.land addr (netmask p);
     prefixlen := p;
     addr_given := addr |}.

Definition broadcast_address (n : IPv4Network) : IPv4Address :=
  Z.lor (network_address n) (hostmask (prefixlen n)).

(** [list(range(a, b))] *)
Definition range (a b : Z) : list Z :=
  (λ i : nat, a + Z.of_nat i) <$> seq 0 (Z.to_nat (b - a)).

(** [list(net.hosts())]: network and broadcast addresses are left out,
    except that a /31 yields both of its addresses and a /32 its one. *)
Definition hosts (n : IPv4Network) : list IPv4Address :=
  if decide (prefixlen n = 31) then
    range (network_address n) (broadcast_address n + 1)
  else if decide (prefixlen n = 32) then
    [addr_given n]
  else
    range (network_address n + 1) (broadcast_address n).

(** What [str.lower()] computes on ASCII text: the letters A to Z go to
    a to z and every other character stays.  Python's [str.lower] is
    Unicode-aware, so this function stands for it on strings of ASCII
    characters only.  The table below takes the normalisation function
    as a parameter, and no theorem about it is stated for this function;
    it serves to evaluate the table on ASCII protocol names such as
    [TCP] and [udp]. *)
Definition ascii_lower (c : Ascii.ascii) : Ascii.ascii :=
  let n := Ascii.nat_of_ascii c in
  if ((65 <=? n) && (n <=? 90))%nat then Ascii.ascii_of_nat (n + 32) else c.

Fixpoint lower_ascii (s : string) : string :=
  match s with
  | EmptyString => EmptyString
  | String c s' => String (ascii_lower c) (lower_ascii s')
  end.

(** ** dhcp/lease_pool.py *)

Module lease_pool.

Record Lease : Type := mkLease {
  client_id : string;
  ip : IPv4Address;
  expiry : Z
}.

Record LeasePool : Type := mkPool {
  net : IPv4Network;
  lease_seconds : Z;
  _available : list IPv4Address;           (* deque: head is the left end *)
  _leases_by_client : dict string loc;
  _leases_by_ip : dict IPv4Address loc;
  heap : list Lease
}.

Definition with_heap (h : list Lease) (s : LeasePool) : LeasePool :=
  mkPool (net s) (lease_seconds s) (_available s)
         (_leases_by_client s) (_leases_by_ip s) h.
Definition with_available (q : list IPv4Address) (s : LeasePool) : LeasePool :=
  mkPool (net s) (lease_seconds s) q
         (_leases_by_client s) (_leases_by_ip s) (heap s).
Definition with_by_client (d : dict string loc) (s : LeasePool) : LeasePool :=
  mkPool (net s) (lease_seconds s) (_available s)
         d (_leases_by_ip s) (heap s).
Definition with_by_ip (d : dict IPv4Address loc) (s : LeasePool) : LeasePool :=
  mkPool (net s) (lease_seconds s) (_available s)
         (_leases_by_client s) d (heap s).

Definition get (r : loc) : M LeasePool Lease := deref heap r.

Definition __init__ (network : IPv4Address * Z) (lease_seconds : Z)
    (exclusions : list IPv4Address) : LeasePool :=
  let net := ip_network network.1 network.2 in
  let excl : gset IPv4Address := list_to_set exclusions in
  let hosts := hosts net in
  let excl := match hosts with
              | h0 :: _ => {[h0]} ∪ excl
              | [] => excl
              end in
  {| net := net;
     lease_seconds := lease_seconds;
     _available := filter (λ ip, ip ∉ excl) hosts;
     _leases_by_client := [];
     _leases_by_ip := [];
     heap := [] |}.

Definition available_count (s : LeasePool) : Z :=
  Z.of_nat (length (_available s)).

(** [sum(1 for L in d.values() if L.expiry > now)] *)
Fixpoint count_live (now : Z) (d : dict string loc) : M LeasePool Z :=
  match d with
  | [] => ret 0
  | (_, r) :: d' =>
      let! L := get r in
      let! rest := count_live now d' in
      ret ((if expiry L >? now then 1 else 0) + rest)
  end.

Definition active_count (now : option Z) : M LeasePool Z :=
  match now with
  | None => gets (λ s, Z.of_nat (length (_leases_by_client s)))
  | Some t =>
      let! d := gets _leases_by_client in
      count_live t d
  end.

(** [_leases_by_client.pop(cid)], which raises when the key is missing. *)
Definition pop_client (cid : string) : M LeasePool loc :=
  let! d := gets _leases_by_client in
  match dict_get cid d with
  | Some r => do! modify (with_by_client (dict_del cid d)) in ret r
  | None => raise KeyError
  end.

(** [[cid for cid, L in d.items() if L.expiry <= now]] *)
Fixpoint expired_clients (now : Z) (d : dict string loc)
    : M LeasePool (list string) :=
  match d with
  | [] => ret []
  | (cid, r) :: d' =>
      let! L := get r in
      let! rest := expired_clients now d' in
      ret (if expiry L <=? now then cid :: rest else rest)
  end.

(** The body of the loop of [expire]. *)
Definition reclaim (cid : string) : M LeasePool unit :=
  let! r := pop_client cid in
  let! lease := get r in
  do! modify (λ s, with_by_ip (dict_del (ip lease) (_leases_by_ip s)) s) in
  modify (λ s, with_available (_available s ++ [ip lease]) s).

Definition expire (now : Z) : M LeasePool Z :=
  let! d := gets _leases_by_client in
  let! expired := expired_clients now d in
  do! for_each expired reclaim in
  ret (Z.of_nat (length expired)).

Definition _commit_lease (r : loc) : M LeasePool unit :=
  let! lease := get r in
  let! stale := gets (λ s, dict_get (ip lease) (_leases_by_ip s)) in
  do! match stale with
  | Some r' =>
      let! old := get r' in
      modify (λ s, with_by_client (dict_del (client_id old) (_leases_by_client s)) s)
  | None => ret tt
  end in
  do! modify (λ s, with_by_client (dict_set (client_id lease) r (_leases_by_client s)) s) in
  modify (λ s, with_by_ip (dict_set (ip lease) r (_leases_by_ip s)) s).

(** The tail of [request], from the comment [# allocate new] on. *)
Definition allocate (cid : string) (now : Z) : M LeasePool IPv4Address :=
  let! q := gets _available in
  match q with
  | [] => raise (RuntimeError "No available IPs")
  | a :: q' =>
      do! modify (with_available q') in
      let! ls := gets lease_seconds in
      let! r := new heap with_heap (mkLease cid a (now + ls)) in
      do! _commit_lease r in
      ret a
  end.

Definition request (cid : string) (now : Z) : M LeasePool IPv4Address :=
  do! expire now in
  let! lease := gets (λ s, dict_get cid (_leases_by_client s)) in
  match lease with
  | Some r =>
      let! L := get r in
      if expiry L >? now then ret (ip L) else allocate cid now
  | None => allocate cid now
  end.

Definition renew (cid : string) (now : Z) : M LeasePool IPv4Address :=
  do! expire now in
  let! lease := gets (λ s, dict_get cid (_leases_by_client s)) in
  match lease with
  | Some r =>
      let! L := get r in
      if expiry L >? now then
        let! ls := gets lease_seconds in
        do! assign heap with_heap r (λ L, mkLease (client_id L) (ip L) (now + ls)) in
        ret (ip L)
      else request cid now
  | None => request cid now
  end.

Definition release (cid : string) : M LeasePool unit :=
  let! d := gets _leases_by_client in
  match dict_get cid d with
  | Some r =>
      do! modify (with_by_client (dict_del cid d)) in
      let! lease := get r in
      do! modify (λ s, with_by_ip (dict_del (ip lease) (_leases_by_ip s)) s) in
      modify (λ s, with_available (_available s ++ [ip lease]) s)
  | None => ret tt
  end.

(** *** Vocabulary of the specification *)

#[global] Instance Lease_inhabited : Inhabited Lease :=
  populate (mkLease "" 0 0).

(** The lease objects the pool tracks, and the addresses they hold. *)
Definition refs (s : LeasePool) : list loc := (_leases_by_client s).*2.
Definition leased (s : LeasePool) : list IPv4Address := (_leases_by_ip s).*1.

(** The lease a client holds, read through the client index. *)
Definition lease_of (cid : string) (s : LeasePool) : option Lease :=
  match dict_get cid (_leases_by_client s) with
  | Some r => heap s !! r
  | None => None
  end.

Definition address_of (cid : string) (s : LeasePool) : option IPv4Address :=
  ip <$> lease_of cid s.

(** The lease objects the client index lists, in its order. *)
Definition leases (s : LeasePool) : list Lease :=
  omap (λ cr, heap s !! cr.2) (_leases_by_client s).

(** The host set of a pool as the specification words it: the hosts of
    the block, less the exclusions, less the first host. *)
Definition host_set (network : IPv4Address * Z)
    (exclusions : list IPv4Address) : list IPv4Address :=
  let hs := hosts (ip_network network.1 network.2) in
  filter (λ a, (a ∉ exclusions) ∧ head hs ≠ Some a) hs.

(** Consistency of a pool: both indices list the same objects, each
    under its own field, no client occurs twice, and no address occurs
    twice across the queue and the leases. *)
Record inv (s : LeasePool) : Prop := {
  inv_valid : Forall (λ r, (r < length (heap s))%nat) (refs s);
  inv_by_client : _leases_by_client s = index client_id (heap s) (refs s);
  inv_by_ip : _leases_by_ip s = index ip (heap s) (refs s);
  inv_clients : NoDup (_leases_by_client s).*1;
  inv_addrs : NoDup (_available s ++ leased s)
}.

(** Calls a driver can make. *)
Inductive op : Type :=
| Request (cid : string) (now : Z)
| Renew (cid : string) (now : Z)
| Release (cid : string)
| Expire (now : Z).

(** The state a call leaves behind, whether it returns or raises. *)
Definition step (o : op) (s : LeasePool) : LeasePool :=
  match o with
  | Request cid now => (request cid now s).2
  | Renew cid now => (renew cid now s).2
  | Release cid => (release cid s).2
  | Expire now => (expire now s).2
  end.

Definition run (ops : list op) (s : LeasePool) : LeasePool :=
  foldl (λ s o, step o s) s ops.

(** The results of a sequence of [request] calls. *)
Fixpoint request_all (reqs : list (string * Z)) (s : LeasePool)
    : list (res IPv4Address) :=
  match reqs with
  | [] => []
  | (cid, now) :: reqs' =>
      let (a, s') := request cid now s in a :: request_all reqs' s'
  end.

(** Time values handed to one instance never go back: every call's time
    is at least [t0] and at least the time of the call before it. *)
Fixpoint monotone (t0 : Z) (ops : list op) : Prop :=
  match ops with
  | [] => True
  | Request _ now :: ops' | Renew _ now :: ops' | Expire now :: ops' =>
      t0 <= now ∧ monotone now ops'
  | Release _ :: ops' => monotone t0 ops'
  end.

(** The time of the last timed call of a sequence that started at [t0]. *)
Fixpoint last_time (t0 : Z) (ops : list op) : Z :=
  match ops with
  | [] => t0
  | Request _ now :: ops' | Renew _ now :: ops' | Expire now :: ops' =>
      last_time now ops'
  | Release _ :: ops' => last_time t0 ops'
  end.

(** *** Consistent pools in closed form *)

Definition ip_at (h : list Lease) (r : loc) : IPv4Address := ip (h !!! r).
Definition client_at (h : list Lease) (r : loc) : string :=
  client_id (h !!! r).

(** A lease is expired at [now] when its expiry is [now] or earlier, and
    live otherwise. *)
Definition expired (now : Z) (h : list Lease) (r : loc) : Prop :=
  expiry (h !!! r) <= now.
Definition live (now : Z) (h : list Lease) (r : loc) : Prop :=
  ¬ expired now h r.

#[global] Instance expired_dec now h r : Decision (expired now h r) :=
  Z_le_dec (expiry (h !!! r)) now.

(** A consistent pool, written from its queue, its store and the list of
    the lease objects it tracks. *)
Definition pool (n : IPv4Network) (ls : Z) (q : list IPv4Address)
    (h : list Lease) (rs : list loc) : LeasePool :=
  mkPool n ls q (index client_id h rs) (index ip h rs) h.

Record wf (h : list Lease) (rs : list loc) (q : list IPv4Address) : Prop := {
  wf_valid : Forall (λ r, (r < length h)%nat) rs;
  wf_clients : NoDup (client_at h <$> rs);
  wf_addrs : NoDup (q ++ (ip_at h <$> rs))
}.

(** The queue after a sweep at [now]: reclaimed addresses go to the
    tail, in the order of the client index. *)
Definition swept_queue (now : Z) (q : list IPv4Address) (h : list Lease)
    (rs : list loc) : list IPv4Address :=
  q ++ (ip_at h <$> filter (expired now h) rs).

(** The lease object [r] after [renew] at [now]. *)
Definition renewed (now ls : Z) (h : list Lease) (r : loc) : Lease :=
  mkLease (client_at h r) (ip_at h r) (now + ls).

(** No lease outlives one term counted from time [T]. *)
Definition bounded (T ls : Z) (h : list Lease) (rs : list loc) : Prop :=
  Forall (λ r, expiry (h !!! r) <= T + ls) rs.

Definition op_time (T : Z) (o : op) : Z :=
  match o with
  | Request _ now | Renew _ now | Expire now => now
  | Release _ => T
  end.

End lease_pool.

(** ** nat/nat_table.py *)

Module nat_table.

Definition Key : Type := string * string * Z.

Record Mapping : Type := mkMapping {
  proto : string;
  internal_ip : string;
  internal_port : Z;
  external_port : Z;
  last_seen : Z
}.

Record NATTable : Type := mkTable {
  public_ip : string;
  pmin : Z;
  pmax : Z;
  timeout : Z;
  _int2ext : dict Key loc;
  _ext2int : dict Z loc;
  heap : list Mapping
}.

Definition with_heap (h : list Mapping) (s : NATTable) : NATTable :=
  mkTable (public_ip s) (pmin s) (pmax s) (timeout s)
          (_int2ext s) (_ext2int s) h.
Definition with_int2ext (d : dict Key loc) (s : NATTable) : NATTable :=
  mkTable (public_ip s) (pmin s) (pmax s) (timeout s)
          d (_ext2int s) (heap s).
Definition with_ext2int (d : dict Z loc) (s : NATTable) : NATTable :=
  mkTable (public_ip s) (pmin s) (pmax s) (timeout s)
          (_int2ext s) d (heap s).

Definition get (r : loc) : M NATTable Mapping := deref heap r.

Definition key_of (m : Mapping) : Key :=
  (proto m, internal_ip m, internal_port m).

(** The address text is taken in its canonical form, so that
    [str(IPv4Address(public_ip))] is the text itself. *)
Definition __init__ (public_ip : string) (port_range : Z * Z) (timeout : Z)
    : res NATTable :=
  let '(pmin, pmax) := port_range in
  if decide (1 <= pmin ∧ pmin < pmax ∧ pmax <= 65535) then
    Ok {| public_ip := public_ip; pmin := pmin; pmax := pmax;
          timeout := timeout; _int2ext := []; _ext2int := []; heap := [] |}
  else Raise AssertionError.

Definition _alloc_port : M NATTable Z :=
  let! lo := gets pmin in
  let! hi := gets pmax in
  let! d := gets _ext2int in
  match find (λ p, negb (dict_mem p d)) (range lo (hi + 1)) with
  | Some p => ret p
  | None => raise (RuntimeError "No free NAT ports available")
  end.

Definition set_last_seen (now : Z) (m : Mapping) : Mapping :=
  mkMapping (proto m) (internal_ip m) (internal_port m) (external_port m) now.

(** [proto.lower()] is Python's Unicode-aware [str.lower].  It is not
    written out here: the calls take it as the parameter [lower], so
    what is proved of them holds of the source whatever [str.lower]
    makes of a protocol string. *)
Section calls.
Variable lower : string → string.

Definition translate_out (proto internal_ip : string) (internal_port now : Z)
    : M NATTable (string * Z) :=
  let key : Key := (lower proto, internal_ip, internal_port) in
  let! m := gets (λ s, dict_get key (_int2ext s)) in
  match m with
  | Some r =>
      do! assign heap with_heap r (set_last_seen now) in
      let! m := get r in
      let! pub := gets public_ip in
      ret (pub, external_port m)
  | None =>
      let! port := _alloc_port in
      let! r := new heap with_heap (mkMapping key.1.1 key.1.2 key.2 port now) in
      do! modify (λ s, with_int2ext (dict_set key r (_int2ext s)) s) in
      do! modify (λ s, with_ext2int (dict_set port r (_ext2int s)) s) in
      let! pub := gets public_ip in
      ret (pub, port)
  end.

Definition translate_in (external_port : Z) (now : option Z)
    : M NATTable (option (string * string * Z)) :=
  let! m := gets (λ s, dict_get external_port (_ext2int s)) in
  match m with
  | None => ret None
  | Some r =>
      do! match now with
          | Some t => assign heap with_heap r (set_last_seen t)
          | None => ret tt
          end in
      let! m := get r in
      ret (Some (proto m, internal_ip m, internal_port m))
  end.

Definition touch_by_internal (proto internal_ip : string)
    (internal_port now : Z) : M NATTable bool :=
  let key : Key := (lower proto, internal_ip, internal_port) in
  let! m := gets (λ s, dict_get key (_int2ext s)) in
  match m with
  | None => ret false
  | Some r =>
      do! assign heap with_heap r (set_last_seen now) in
      ret true
  end.

Definition release (proto internal_ip : string) (internal_port : Z)
    : M NATTable bool :=
  let key : Key := (lower proto, internal_ip, internal_port) in
  let! d := gets _int2ext in
  match dict_get key d with
  | None => ret false
  | Some r =>
      do! modify (with_int2ext (dict_del key d)) in
      let! m := get r in
      do! modify (λ s, with_ext2int (dict_del (external_port m) (_ext2int s)) s) in
      ret true
  end.

(** [_ext2int.pop(port)], which raises when the key is missing. *)
Definition pop_ext (port : Z) : M NATTable loc :=
  let! d := gets _ext2int in
  match dict_get port d with
  | Some r => do! modify (with_ext2int (dict_del port d)) in ret r
  | None => raise KeyError
  end.

(** [[port for port, m in d.items() if now - m.last_seen >= self.timeout]] *)
Fixpoint to_remove (now : Z) (d : dict Z loc) : M NATTable (list Z) :=
  match d with
  | [] => ret []
  | (port, r) :: d' =>
      let! m := get r in
      let! t := gets timeout in
      let! rest := to_remove now d' in
      ret (if now - last_seen m >=? t then port :: rest else rest)
  end.

(** The body of the loop of [expire]. *)
Definition evict (port : Z) : M NATTable unit :=
  let! r := pop_ext port in
  let! m := get r in
  modify (λ s, with_int2ext (dict_del (key_of m) (_int2ext s)) s).

Definition expire (now : Z) : M NATTable Z :=
  let! d := gets _ext2int in
  let! ports := to_remove now d in
  do! for_each ports evict in
  ret (Z.of_nat (length ports)).

End calls.

(** *** Vocabulary of the specification *)

#[global] Instance Mapping_inhabited : Inhabited Mapping :=
  populate (mkMapping "" "" 0 0 0).

(** The mapping objects the table tracks, read through the port index. *)
Definition refs (s : NATTable) : list loc := (_ext2int s).*2.
Definition mappings (s : NATTable) : list Mapping :=
  omap (λ pr, heap s !! pr.2) (_ext2int s).

(** The ports that live mappings own. *)
Definition ports (s : NATTable) : list Z := (_ext2int s).*1.

(** The mapping found under a key, and the one found under a port. *)
Definition mapping_of (k : Key) (s : NATTable) : option Mapping :=
  match dict_get k (_int2ext s) with
  | Some r => heap s !! r
  | None => None
  end.
Definition owner_of (port : Z) (s : NATTable) : option Mapping :=
  match dict_get port (_ext2int s) with
  | Some r => heap s !! r
  | None => None
  end.

(** Consistency of a table: both indices list the same objects, each
    under its own field, no key and no port occurs twice, and every
    port lies in the configured range. *)
Record inv (s : NATTable) : Prop := {
  inv_valid : Forall (λ r, (r < length (heap s))%nat) (refs s);
  inv_int2ext : _int2ext s = index key_of (heap s) (refs s);
  inv_ext2int : _ext2int s = index external_port (heap s) (refs s);
  inv_keys : NoDup (_int2ext s).*1;
  inv_ports : NoDup (_ext2int s).*1;
  inv_range : Forall (λ p, pmin s <= p <= pmax s) (_ext2int s).*1
}.

(** Sequences of calls, for the same parameter [lower]. *)
Section driver.
Variable lower : string → string.

(** Calls a driver can make. *)
Inductive op : Type :=
| TranslateOut (proto internal_ip : string) (internal_port now : Z)
| TranslateIn (external_port : Z) (now : option Z)
| Touch (proto internal_ip : string) (internal_port now : Z)
| Release (proto internal_ip : string) (internal_port : Z)
| Expire (now : Z).

(** The state a call leaves behind, whether it returns or raises. *)
Definition step (o : op) (s : NATTable) : NATTable :=
  match o with
  | TranslateOut p a n now => (translate_out lower p a n now s).2
  | TranslateIn p now => (translate_in p now s).2
  | Touch p a n now => (touch_by_internal lower p a n now s).2
  | Release p a n => (release lower p a n s).2
  | Expire now => (expire now s).2
  end.

Definition run (ops : list op) (s : NATTable) : NATTable :=
  foldl (λ s o, step o s) s ops.

(** The results of a sequence of outbound translations, and the table
    they leave. *)
Fixpoint translate_all (reqs : list (string * string * Z * Z))
    (s : NATTable) : list (res (string * Z)) * NATTable :=
  match reqs with
  | [] => ([], s)
  | (p, a, n, now) :: reqs' =>
      let (r, s') := translate_out lower p a n now s in
      let (rs, s'') := translate_all reqs' s' in
      (r :: rs, s'')
  end.

(** The lookup key of an outbound tuple. *)
Definition key_for (t : string * string * Z * Z) : Key :=
  (lower t.1.1.1, t.1.1.2, t.1.2).

End driver.

(** *** Consistent tables in closed form *)

Definition key_at (h : list Mapping) (r : loc) : Key := key_of (h !!! r).
Definition port_at (h : list Mapping) (r : loc) : Z :=
  external_port (h !!! r).

(** A mapping is idle at [now] when it was last seen [tmo] or more ago,
    and fresh otherwise. *)
Definition idle (now tmo : Z) (h : list Mapping) (r : loc) : Prop :=
  now - last_seen (h !!! r) >= tmo.
Definition fresh (now tmo : Z) (h : list Mapping) (r : loc) : Prop :=
  ¬ idle now tmo h r.

#[global] Instance idle_dec now tmo h r : Decision (idle now tmo h r) :=
  Z_ge_dec (now - last_seen (h !!! r)) tmo.

(** A consistent table, written from its store and the list of the
    mapping objects it tracks. *)
Definition table (pub : string) (lo hi tmo : Z) (h : list Mapping)
    (rs : list loc) : NATTable :=
  mkTable pub lo hi tmo (index key_of h rs) (index external_port h rs) h.

Record wf (lo hi : Z) (h : list Mapping) (rs : list loc) : Prop := {
  wf_valid : Forall (λ r, (r < length h)%nat) rs;
  wf_keys : NoDup (key_at h <$> rs);
  wf_ports : NoDup (port_at h <$> rs);
  wf_range : Forall (λ p, lo <= p <= hi) (port_at h <$> rs)
}.

(** The store after object [r] was seen at [now]. *)
Definition touched (now : Z) (h : list Mapping) (r : loc) : list Mapping :=
  <[r := set_last_seen now (h !!! r)]> h.
Definition seen (at_ : option Z) (h : list Mapping) (r : loc)
    : list Mapping :=
  match at_ with Some t => touched t h r | None => h end.

(** What the scan of [_alloc_port] finds. *)
Definition free_port (lo hi : Z) (h : list Mapping) (rs : list loc)
    : option Z :=
  find (λ p, negb (dict_mem p (index external_port h rs)))
       (range lo (hi + 1)).

(** The mapping an outbound tuple gets when it is given [port], for the
    normalisation [lower]. *)
Definition fresh_mapping (lower : string → string) (p a : string)
    (n port now : Z) : Mapping :=
  mkMapping (lower p) a n port now.
Definition binding (lower : string → string) (t : string * string * Z * Z)
    (port : Z) : Mapping :=
  fresh_mapping lower t.1.1.1 t.1.1.2 t.1.2 port t.2.

(** Calls other than [release] and [expire]. *)
Definition quiet (o : op) : Prop :=
  match o with
  | Release _ _ _ | Expire _ => False
  | _ => True
  end.

(** Every time value a call carries is at most [T]. *)
Definition op_until (T : Z) (o : op) : Prop :=
  match o with
  | TranslateOut _ _ _ now | Touch _ _ _ now | Expire now => now <= T
  | TranslateIn _ (Some now) => now <= T
  | TranslateIn _ None | Release _ _ _ => True
  end.

(** No mapping was seen later than [T]. *)
Definition seen_by (T : Z) (h : list Mapping) (rs : list loc) : Prop :=
  Forall (λ r, last_seen (h !!! r) <= T) rs.

End nat_table.

(** * Verification *)

(** ** Dictionaries *)

Section dict_facts.
Context {K V : Type} `{EqDecision K}.
Implicit Types (k : K) (v : V) (d : dict K V).

Lemma dict_get_None k d : k ∉ d.*1 → dict_get k d = None.
Proof.
  induction d as [|[k' v'] d IH]; simpl; [done|].
  intros Hk. apply not_elem_of_cons in Hk as [Hne Hk].
  destruct (decide (k = k')); [done|]. by apply IH.
Qed.

Lemma dict_get_Some k v d : dict_get k d = Some v → (k, v) ∈ d.
Proof.
  induction d as [|[k' v'] d IH]; simpl; [done|].
  destruct (decide (k = k')) as [->|].
  - intros [= ->]. left.
  - intros Hg. right. by apply IH.
Qed.

Lemma dict_get_key k v d : dict_get k d = Some v → k ∈ d.*1.
Proof.
  intros Hg%dict_get_Some. apply list_elem_of_fmap. by exists (k, v).
Qed.

Lemma dict_get_is_None k d : dict_get k d = None → k ∉ d.*1.
Proof.
  induction d as [|[k' v'] d IH]; simpl.
  - intros _. apply not_elem_of_nil.
  - destruct (decide (k = k')); [done|].
    intros Hg. apply not_elem_of_cons. split; [done|]. by apply IH.
Qed.

Lemma dict_get_mid k v pre post :
  k ∉ pre.*1 → dict_get k (pre ++ (k, v) :: post) = Some v.
Proof.
  induction pre as [|[k' v'] pre IH]; simpl.
  - intros _. by rewrite decide_True.
  - intros Hk. apply not_elem_of_cons in Hk as [Hne Hk].
    rewrite decide_False by done. by apply IH.
Qed.

Lemma dict_del_mid k v pre post :
  k ∉ pre.*1 → dict_del k (pre ++ (k, v) :: post) = pre ++ post.
Proof.
  induction pre as [|[k' v'] pre IH]; simpl.
  - intros _. by rewrite decide_True.
  - intros Hk. apply not_elem_of_cons in Hk as [Hne Hk].
    rewrite decide_False by done. f_equal. by apply IH.
Qed.

Lemma dict_del_absent k d : k ∉ d.*1 → dict_del k d = d.
Proof.
  induction d as [|[k' v'] d IH]; simpl; [done|].
  intros Hk. apply not_elem_of_cons in Hk as [Hne Hk].
  rewrite decide_False by done. f_equal. by apply IH.
Qed.

Lemma dict_set_fresh k v d : k ∉ d.*1 → dict_set k v d = d ++ [(k, v)].
Proof.
  induction d as [|[k' v'] d IH]; simpl; [done|].
  intros Hk. apply not_elem_of_cons in Hk as [Hne Hk].
  rewrite decide_False by done. f_equal. by apply IH.
Qed.

Lemma dict_get_skip k k0 v pre post :
  k ≠ k0 → dict_get k (pre ++ (k0, v) :: post) = dict_get k (pre ++ post).
Proof.
  intros Hne. induction pre as [|[k' v'] pre IH]; simpl.
  - by rewrite decide_False.
  - by rewrite IH.
Qed.

Lemma dict_mem_true k d : dict_mem k d = true ↔ k ∈ d.*1.
Proof.
  unfold dict_mem. destruct (dict_get k d) eqn:Hg.
  - split; [|done]. intros _. by eapply dict_get_key.
  - split; [done|]. intros Hin. by apply dict_get_is_None in Hg.
Qed.
End dict_facts.

(** ** Indices *)

Section index.
Context {O K : Type} `{Inhabited O, EqDecision K}.
Implicit Types (h : list O) (rs : list loc) (key : O → K).

Lemma index_app key h rs1 rs2 :
  index key h (rs1 ++ rs2) = index key h rs1 ++ index key h rs2.
Proof. apply fmap_app. Qed.

Lemma index_refs key h rs : (index key h rs).*2 = rs.
Proof.
  unfold index. induction rs as [|r rs IH]; csimpl; [done|]. by f_equal.
Qed.

Lemma index_keys key h rs : (index key h rs).*1 = (λ r, key (h !!! r)) <$> rs.
Proof.
  unfold index. induction rs as [|r rs IH]; csimpl; [done|]. by f_equal.
Qed.

Lemma index_ext key h h' rs :
  Forall (λ r, key (h' !!! r) = key (h !!! r)) rs →
  index key h' rs = index key h rs.
Proof.
  unfold index. induction 1 as [|r rs Hr _ IH]; csimpl; [done|].
  by rewrite Hr, IH.
Qed.

Lemma index_alloc key h o rs :
  Forall (λ r, (r < length h)%nat) rs →
  index key (h ++ [o]) rs = index key h rs.
Proof.
  intros Hv. apply index_ext. eapply Forall_impl; [exact Hv|].
  intros r Hr. simpl. by rewrite lookup_total_app_l.
Qed.

Lemma index_assign key h r o rs :
  key o = key (h !!! r) →
  index key (<[r := o]> h) rs = index key h rs.
Proof.
  intros Hk. apply index_ext, Forall_forall. intros r' _.
  destruct (decide (r = r')) as [<-|Hne].
  - destruct (decide (r < length h)%nat).
    + by rewrite list_lookup_total_insert_eq.
    + by rewrite list_insert_ge by lia.
  - by rewrite list_lookup_total_insert_ne.
Qed.

Lemma index_get key h rs k r :
  dict_get k (index key h rs) = Some r → r ∈ rs ∧ key (h !!! r) = k.
Proof.
  intros Hg%dict_get_Some. unfold index in Hg.
  apply list_elem_of_fmap in Hg as (r' & [= -> ->] & Hin). done.
Qed.

Lemma index_split key h rs r :
  NoDup (index key h rs).*1 → r ∈ rs →
  ∃ pre post, rs = pre ++ r :: post ∧ key (h !!! r) ∉ (index key h pre).*1.
Proof.
  intros Hnd Hin. apply list_elem_of_split in Hin as (pre & post & ->).
  exists pre, post. split; [done|].
  rewrite index_app, fmap_app in Hnd. apply NoDup_app in Hnd as (_ & Hd & _).
  intros Hin. apply (Hd _ Hin). simpl. left.
Qed.

Lemma index_lookup key h rs r :
  NoDup (index key h rs).*1 → r ∈ rs →
  dict_get (key (h !!! r)) (index key h rs) = Some r.
Proof.
  intros Hnd Hin.
  destruct (index_split key h rs r Hnd Hin) as (pre & post & -> & Hpre).
  rewrite index_app. simpl. by apply dict_get_mid.
Qed.

Lemma index_keys_mid key h pre r post :
  NoDup (index key h (pre ++ r :: post)).*1 →
  (key (h !!! r) ∉ (index key h pre).*1) ∧
  NoDup (index key h (pre ++ post)).*1.
Proof.
  rewrite !index_app, !fmap_app. cbn [index fmap list_fmap].
  intros Hnd. split.
  - apply NoDup_app in Hnd as (_ & Hd & _).
    intros Hin. apply (Hd _ Hin). left.
  - apply NoDup_app in Hnd as (H1 & Hd & H2%NoDup_cons_1_2).
    apply NoDup_app. split; [done|]. split; [|done].
    intros x Hx Hx'. apply (Hd x Hx). by right.
Qed.

Lemma index_get_mid key h pre r post :
  NoDup (index key h (pre ++ r :: post)).*1 →
  dict_get (key (h !!! r)) (index key h (pre ++ r :: post)) = Some r.
Proof.
  intros [Hpre _]%index_keys_mid. rewrite index_app.
  by apply dict_get_mid.
Qed.

Lemma index_del_mid key h pre r post :
  NoDup (index key h (pre ++ r :: post)).*1 →
  dict_del (key (h !!! r)) (index key h (pre ++ r :: post))
  = index key h (pre ++ post).
Proof.
  intros [Hpre _]%index_keys_mid. rewrite !index_app.
  by apply dict_del_mid.
Qed.
End index.

(** ** The monad *)

Lemma bind_eq {S A B} (c : M S A) (k : A → M S B) s :
  bind c k s = match c s with
               | (Ok a, s') => k a s'
               | (Raise e, s') => (Raise e, s')
               end.
Proof. done. Qed.

Lemma bind_ok {S A B} (c : M S A) (k : A → M S B) s a s' :
  c s = (Ok a, s') → bind c k s = k a s'.
Proof. intros Hc. by rewrite bind_eq, Hc. Qed.

Lemma bind_raise {S A B} (c : M S A) (k : A → M S B) s e s' :
  c s = (Raise e, s') → bind c k s = (Raise e, s').
Proof. intros Hc. by rewrite bind_eq, Hc. Qed.

Lemma filter_none_complement {A} (P : A → Prop) `{!∀ x, Decision (P x)} l :
  filter P l = [] → filter (λ x, ¬ P x) l = l.
Proof.
  induction l as [|x l IH]; [done|]. rewrite !filter_cons.
  destruct (decide (P x)); [done|]. intros Hn.
  rewrite decide_True by done. by rewrite IH.
Qed.

Lemma filter_all_complement {A} (P : A → Prop) `{!∀ x, Decision (P x)}
    (l : list A) :
  Forall (λ x, ¬ P x) l → filter P l = [] ∧ filter (λ x, ¬ P x) l = l.
Proof.
  induction 1 as [|x l Hx _ [IH1 IH2]]; [done|].
  rewrite !filter_cons, decide_False, decide_True by done.
  by rewrite IH1, IH2.
Qed.

Lemma filter_fmap {A B} (f : A → B) (P : B → Prop)
    `{!∀ y, Decision (P y)} (l : list A) :
  filter P (f <$> l) = f <$> filter (λ x, P (f x)) l.
Proof.
  induction l as [|x l IH]; [done|]. cbn [fmap list_fmap].
  rewrite !filter_cons. destruct (decide (P (f x))); cbn; by rewrite IH.
Qed.

Lemma lookup_valid {A} `{Inhabited A} (h : list A) r :
  (r < length h)%nat → h !! r = Some (h !!! r).
Proof. intros Hr. by apply list_lookup_lookup_total_lt. Qed.


(** ** Ranges and the first element a scan finds *)

Lemma range_nil a b : b <= a → range a b = [].
Proof. intros Hab. unfold range. by replace (Z.to_nat (b - a)) with 0%nat by lia. Qed.

Lemma range_cons a b : a < b → range a b = a :: range (a + 1) b.
Proof.
  intros Hab. unfold range.
  replace (Z.to_nat (b - a)) with (S (Z.to_nat (b - (a + 1)))) by lia.
  cbn [seq fmap list_fmap]. f_equal; [lia|].
  rewrite <- fmap_S_seq, <- list_fmap_compose.
  apply list_fmap_ext. intros _ i _. cbn. lia.
Qed.

Lemma elem_of_range a b x : x ∈ range a b ↔ a <= x < b.
Proof.
  unfold range. rewrite list_elem_of_fmap. split.
  - intros (i & -> & Hi%elem_of_seq). lia.
  - intros Hx. exists (Z.to_nat (x - a)). split; [lia|].
    apply elem_of_seq. lia.
Qed.

Lemma find_range (f : Z → bool) (n : nat) : ∀ a b,
  Z.to_nat (b - a) = n →
  match find f (range a b) with
  | Some p => a <= p < b ∧ f p = true ∧ ∀ p', a <= p' < p → f p' = false
  | None => ∀ p, a <= p < b → f p = false
  end.
Proof.
  induction n as [|n IH]; intros a b Hn.
  - rewrite range_nil by lia. cbn. intros p Hp. lia.
  - rewrite range_cons by lia. cbn [find].
    destruct (f a) eqn:Hfa.
    + split; [lia|]. split; [done|]. intros p' Hp'. lia.
    + specialize (IH (a + 1) b ltac:(lia)).
      destruct (find f (range (a + 1) b)) as [p|].
      * destruct IH as (Hp & Hfp & Hlow). split; [lia|]. split; [done|].
        intros p' Hp'. destruct (decide (p' = a)) as [->|]; [done|].
        apply Hlow. lia.
      * intros p Hp. destruct (decide (p = a)) as [->|]; [done|].
        apply IH. lia.
Qed.

Lemma range_snoc a b : a <= b → range a (b + 1) = range a b ++ [b].
Proof.
  intros Hab. unfold range.
  replace (Z.to_nat (b + 1 - a)) with (S (Z.to_nat (b - a))) by lia.
  rewrite seq_S, fmap_app. cbn. do 2 f_equal. lia.
Qed.

(** ** The lease pool *)

Module pool_facts.
Import lease_pool.
Implicit Types (s : LeasePool) (h : list Lease) (rs pre : list loc)
  (q : list IPv4Address) (r : loc) (now ls : Z) (n : IPv4Network)
  (cid : string).


Ltac mred :=
  cbv [bind gets modify ret raise get deref new assign
       with_heap with_available with_by_client with_by_ip];
  cbn [_available _leases_by_client _leases_by_ip heap net lease_seconds pool].

Lemma keys_client h rs : (index client_id h rs).*1 = client_at h <$> rs.
Proof. apply index_keys. Qed.

Lemma keys_ip h rs : (index ip h rs).*1 = ip_at h <$> rs.
Proof. apply index_keys. Qed.

Lemma expired_clients_spec now s rs :
  Forall (λ r, (r < length (heap s))%nat) rs →
  expired_clients now (index client_id (heap s) rs) s
  = (Ok (client_at (heap s) <$> filter (expired now (heap s)) rs), s).
Proof.
  induction 1 as [|r rs Hr _ IH]; [done|].
  cbn [index fmap list_fmap expired_clients]. mred.
  rewrite (lookup_valid _ _ Hr).
  change ((λ r0, (client_id (heap s !!! r0), r0)) <$> rs)
    with (index client_id (heap s) rs).
  rewrite IH, filter_cons.
  destruct (decide (expired now (heap s) r)) as [He|He]; unfold expired in He;
    destruct (Z.leb_spec (expiry (heap s !!! r)) now); try lia; done.
Qed.

Lemma reclaim_spec n ls q dc di h cid r :
  dict_get cid dc = Some r → (r < length h)%nat →
  reclaim cid (mkPool n ls q dc di h)
  = (Ok tt, mkPool n ls (q ++ [ip_at h r]) (dict_del cid dc)
              (dict_del (ip_at h r) di) h).
Proof.
  intros Hg Hr. unfold reclaim, pop_client. mred.
  rewrite Hg. mred. by rewrite (lookup_valid _ _ Hr).
Qed.

Lemma reclaim_loop now n ls h pre rs q :
  Forall (λ r, (r < length h)%nat) rs →
  NoDup (index client_id h (pre ++ rs)).*1 →
  NoDup (index ip h (pre ++ rs)).*1 →
  for_each (client_at h <$> filter (expired now h) rs) reclaim
    (mkPool n ls q (index client_id h (pre ++ rs)) (index ip h (pre ++ rs)) h)
  = (Ok tt,
     pool n ls (q ++ (ip_at h <$> filter (expired now h) rs)) h
       (pre ++ filter (live now h) rs)).
Proof.
  intros Hv. revert pre q.
  induction Hv as [|r rs Hr _ IH]; intros pre q Hc Ha.
  - cbn. unfold ret. by rewrite (app_nil_r q).
  - rewrite !filter_cons.
    destruct (decide (expired now h r)) as [He|He].
    + rewrite decide_False by (unfold live; tauto). cbn [fmap list_fmap for_each].
      erewrite bind_ok; last first.
      { apply reclaim_spec; [|exact Hr]. by apply index_get_mid. }
      cbv beta. change (client_at h r) with (client_id (h !!! r)).
      change (ip_at h r) with (ip (h !!! r)) at 2.
      rewrite !index_del_mid by done.
      apply index_keys_mid in Hc as [_ Hc], Ha as [_ Ha].
      rewrite IH by done. by rewrite <- app_assoc.
    + rewrite decide_True by done. unfold pool.
      rewrite (cons_middle r pre rs), (app_assoc pre [r]) in Hc, Ha |- *.
      rewrite (cons_middle r pre (filter _ rs)), !(app_assoc pre [r]).
      by apply IH.
Qed.

Lemma inv_pool s :
  inv s ↔ ∃ q h rs,
    s = pool (net s) (lease_seconds s) q h rs ∧ wf h rs q.
Proof.
  split.
  - intros [Hv Hc Ha Hnc Hna]. exists (_available s), (heap s), (refs s).
    split.
    + destruct s; unfold pool, refs in *; cbn in *. by f_equal.
    + split; [done| |].
      * rewrite Hc, index_keys in Hnc. done.
      * unfold leased in Hna. rewrite Ha, index_keys in Hna. done.
  - intros (q & h & rs & -> & [Hv Hnc Hna]). unfold pool.
    split; unfold refs, leased; cbn; rewrite ?index_refs, ?index_keys; done.
Qed.

Lemma wf_inv n ls q h rs : wf h rs q → inv (pool n ls q h rs).
Proof. intros Hwf. apply inv_pool. by exists q, h, rs. Qed.

Lemma wf_index_clients h rs q :
  wf h rs q → NoDup (index client_id h rs).*1.
Proof. intros [_ H _]. by rewrite index_keys. Qed.

Lemma wf_index_addrs h rs q :
  wf h rs q → NoDup (index ip h rs).*1.
Proof. intros [_ _ H]. rewrite index_keys. by apply NoDup_app in H as (_&_&?). Qed.

Lemma expire_pool now n ls q h rs :
  wf h rs q →
  expire now (pool n ls q h rs)
  = (Ok (Z.of_nat (length (filter (expired now h) rs))),
     pool n ls (q ++ (ip_at h <$> filter (expired now h) rs)) h
       (filter (live now h) rs)).
Proof.
  intros Hwf. unfold expire.
  rewrite bind_eq. cbn [gets].
  rewrite bind_eq.
  change (_leases_by_client (pool n ls q h rs)) with
    (index client_id (heap (pool n ls q h rs)) rs).
  rewrite expired_clients_spec by apply Hwf.
  cbv beta iota. rewrite bind_eq. cbn [heap pool].
  pose proof (reclaim_loop now n ls h [] rs q) as Hl. cbn [app] in Hl.
  unfold pool at 1. rewrite Hl;
    [|apply Hwf|by eapply wf_index_clients|by eapply wf_index_addrs].
  cbn [ret]. by rewrite length_fmap.
Qed.

Lemma wf_sweep now h rs q :
  wf h rs q →
  wf h (filter (live now h) rs)
     (q ++ (ip_at h <$> filter (expired now h) rs)).
Proof.
  intros [Hv Hc Ha]. split.
  - apply Forall_forall. intros r [_ Hr]%list_elem_of_filter.
    by eapply Forall_forall in Hv.
  - eapply sublist_NoDup; [exact Hc|].
    apply fmap_sublist, sublist_filter.
  - rewrite <- app_assoc, <- fmap_app.
    unfold live. by rewrite filter_app_complement.
Qed.

Lemma sweep_live now h rs r :
  r ∈ filter (live now h) rs → now < expiry (h !!! r).
Proof.
  intros [Hl _]%list_elem_of_filter. unfold live, expired in Hl. lia.
Qed.

Lemma sweep_idle now h rs :
  Forall (live now h) rs →
  filter (expired now h) rs = [] ∧ filter (live now h) rs = rs.
Proof. apply filter_all_complement. Qed.

Lemma expire_idle now n ls q h rs :
  wf h rs q → Forall (live now h) rs →
  expire now (pool n ls q h rs) = (Ok 0, pool n ls q h rs).
Proof.
  intros Hwf Hl. rewrite expire_pool by done.
  destruct (sweep_idle now h rs Hl) as [-> ->]. cbn. by rewrite app_nil_r.
Qed.

Lemma sweep_all_live now h rs : Forall (live now h) (filter (live now h) rs).
Proof. apply Forall_forall. by intros r [? _]%list_elem_of_filter. Qed.

(** A call that starts with a sweep behaves as it does on the swept pool. *)
Lemma request_sweep cid now n ls q h rs :
  wf h rs q →
  request cid now (pool n ls q h rs)
  = request cid now
      (pool n ls (q ++ (ip_at h <$> filter (expired now h) rs)) h
         (filter (live now h) rs)).
Proof.
  intros Hwf. unfold request.
  rewrite (bind_eq (expire now)), expire_pool by done.
  rewrite (bind_eq (expire now)), expire_idle;
    [done|by apply wf_sweep|apply sweep_all_live].
Qed.

Lemma renew_sweep cid now n ls q h rs :
  wf h rs q →
  renew cid now (pool n ls q h rs)
  = renew cid now
      (pool n ls (q ++ (ip_at h <$> filter (expired now h) rs)) h
         (filter (live now h) rs)).
Proof.
  intros Hwf. unfold renew.
  rewrite (bind_eq (expire now)), expire_pool by done.
  rewrite (bind_eq (expire now)), expire_idle;
    [done|by apply wf_sweep|apply sweep_all_live].
Qed.

Lemma client_lookup h rs q r :
  wf h rs q → r ∈ rs →
  dict_get (client_at h r) (index client_id h rs) = Some r.
Proof.
  intros Hwf Hr. apply (index_lookup client_id); [|done].
  by eapply wf_index_clients.
Qed.

Lemma client_absent h rs cid :
  cid ∉ client_at h <$> rs → dict_get cid (index client_id h rs) = None.
Proof. intros Hc. apply dict_get_None. by rewrite index_keys. Qed.

Lemma wf_lookup h rs q r :
  wf h rs q → r ∈ rs → h !! r = Some (h !!! r).
Proof.
  intros [Hv _ _] Hr. apply lookup_valid. by eapply Forall_forall in Hv.
Qed.

Lemma request_live_spec cid now n ls q h rs r :
  wf h rs q → r ∈ rs → client_at h r = cid → live now h r →
  Forall (live now h) rs →
  request cid now (pool n ls q h rs) = (Ok (ip_at h r), pool n ls q h rs).
Proof.
  intros Hwf Hr <- Hlr Hl. unfold request.
  rewrite (bind_eq (expire now)), expire_idle by done.
  mred. unfold pool at 1. cbn [_leases_by_client heap].
  rewrite (client_lookup h rs q r) by done. mred.
  rewrite (wf_lookup h rs q r) by done.
  unfold live, expired in Hlr. rewrite Z.gtb_ltb.
  destruct (Z.ltb_spec now (expiry (h !!! r))); [done|lia].
Qed.

Lemma commit_fresh n ls q h rs L :
  Forall (λ r, (r < length h)%nat) rs →
  client_id L ∉ client_at h <$> rs → ip L ∉ ip_at h <$> rs →
  _commit_lease (length h)
    (mkPool n ls q (index client_id h rs) (index ip h rs) (h ++ [L]))
  = (Ok tt, pool n ls q (h ++ [L]) (rs ++ [length h])).
Proof.
  intros Hv Hc Ha. unfold _commit_lease. mred.
  rewrite <- keys_client in Hc. rewrite <- keys_ip in Ha.
  rewrite list_lookup_middle by done. mred.
  rewrite dict_get_None by done. mred.
  rewrite !dict_set_fresh by done.
  unfold pool. rewrite !index_app.
  rewrite (index_alloc client_id), (index_alloc ip) by done.
  cbn [index fmap list_fmap].
  by rewrite list_lookup_total_middle.
Qed.

Lemma allocate_spec cid now n ls a q h rs :
  wf h rs (a :: q) → cid ∉ client_at h <$> rs →
  allocate cid now (pool n ls (a :: q) h rs)
  = (Ok a, pool n ls q (h ++ [mkLease cid a (now + ls)]) (rs ++ [length h])).
Proof.
  intros [Hv Hc Ha] Hcid. unfold allocate. mred. unfold pool at 1.
  cbn [_available]. mred.
  rewrite commit_fresh; [done|done|done|].
  cbn [ip]. apply NoDup_cons_1_1 in Ha. intros Hin. apply Ha.
  apply elem_of_app. by right.
Qed.

Lemma allocate_empty cid now n ls h rs :
  allocate cid now (pool n ls [] h rs)
  = (Raise (RuntimeError "No available IPs"), pool n ls [] h rs).
Proof. done. Qed.

Lemma request_alloc_spec cid now n ls a q h rs :
  wf h rs (a :: q) → cid ∉ client_at h <$> rs → Forall (live now h) rs →
  request cid now (pool n ls (a :: q) h rs)
  = (Ok a, pool n ls q (h ++ [mkLease cid a (now + ls)]) (rs ++ [length h])).
Proof.
  intros Hwf Hcid Hl. unfold request.
  rewrite (bind_eq (expire now)), expire_idle by done.
  rewrite bind_eq. cbn [gets]. unfold pool at 1. cbn [_leases_by_client].
  rewrite client_absent by done. by apply allocate_spec.
Qed.

Lemma request_empty_spec cid now n ls h rs :
  wf h rs [] → cid ∉ client_at h <$> rs → Forall (live now h) rs →
  request cid now (pool n ls [] h rs)
  = (Raise (RuntimeError "No available IPs"), pool n ls [] h rs).
Proof.
  intros Hwf Hcid Hl. unfold request.
  rewrite (bind_eq (expire now)), expire_idle by done.
  rewrite bind_eq. cbn [gets]. unfold pool at 1. cbn [_leases_by_client].
  rewrite client_absent by done. done.
Qed.

Lemma index_renewed {K} (key : Lease → K) now ls h r rs :
  key (renewed now ls h r) = key (h !!! r) →
  index key (<[r := renewed now ls h r]> h) rs = index key h rs.
Proof. apply index_assign. Qed.

Lemma renew_live_spec cid now n ls q h rs r :
  wf h rs q → r ∈ rs → client_at h r = cid → live now h r →
  Forall (live now h) rs →
  renew cid now (pool n ls q h rs)
  = (Ok (ip_at h r), pool n ls q (<[r := renewed now ls h r]> h) rs).
Proof.
  intros Hwf Hr <- Hlr Hl. unfold renew.
  rewrite (bind_eq (expire now)), expire_idle by done.
  mred. rewrite (client_lookup h rs q r) by done. mred.
  rewrite (wf_lookup h rs q r) by done. mred.
  unfold live, expired in Hlr. rewrite Z.gtb_ltb.
  destruct (Z.ltb_spec now (expiry (h !!! r))); [|lia]. mred.
  rewrite (wf_lookup h rs q r) by done. mred.
  unfold pool, renewed, client_at, ip_at.
  by rewrite !index_assign.
Qed.

Lemma renew_absent_spec cid now n ls q h rs :
  wf h rs q → cid ∉ client_at h <$> rs → Forall (live now h) rs →
  renew cid now (pool n ls q h rs) = request cid now (pool n ls q h rs).
Proof.
  intros Hwf Hcid Hl. unfold renew.
  rewrite (bind_eq (expire now)), expire_idle by done.
  rewrite bind_eq. cbn [gets]. unfold pool at 1. cbn [_leases_by_client].
  by rewrite client_absent.
Qed.

Lemma release_present_spec n ls q h pre r post :
  wf h (pre ++ r :: post) q →
  release (client_at h r) (pool n ls q h (pre ++ r :: post))
  = (Ok tt, pool n ls (q ++ [ip_at h r]) h (pre ++ post)).
Proof.
  intros Hwf. unfold release. mred.
  pose proof (wf_index_clients _ _ _ Hwf) as Hc.
  pose proof (wf_index_addrs _ _ _ Hwf) as Ha.
  unfold client_at at 1. rewrite index_get_mid by done. mred.
  rewrite (wf_lookup _ _ _ r Hwf) by (apply elem_of_app; right; left).
  mred. unfold pool, client_at, ip_at.
  by rewrite !index_del_mid.
Qed.

Lemma release_absent_spec cid n ls q h rs :
  cid ∉ client_at h <$> rs →
  release cid (pool n ls q h rs) = (Ok tt, pool n ls q h rs).
Proof.
  intros Hcid. unfold release. mred. by rewrite client_absent.
Qed.

(** *** The shape of a pool is kept *)

Lemma wf_alloc h rs a q cid e :
  wf h rs (a :: q) → cid ∉ client_at h <$> rs →
  wf (h ++ [mkLease cid a e]) (rs ++ [length h]) q.
Proof.
  intros [Hv Hc Ha] Hcid.
  assert (Hkc : client_at (h ++ [mkLease cid a e]) <$> rs ++ [length h]
                = (client_at h <$> rs) ++ [cid]).
  { rewrite <- !keys_client, index_app, fmap_app, index_alloc by done.
    cbn. unfold client_at. by rewrite list_lookup_total_middle. }
  assert (Hka : ip_at (h ++ [mkLease cid a e]) <$> rs ++ [length h]
                = (ip_at h <$> rs) ++ [a]).
  { rewrite <- !keys_ip, index_app, fmap_app, index_alloc by done.
    cbn. unfold ip_at. by rewrite list_lookup_total_middle. }
  split.
  - apply Forall_app. split.
    + eapply Forall_impl; [exact Hv|]. intros r Hr. cbv beta in *.
      rewrite length_app. lia.
    + apply Forall_singleton. rewrite length_app. cbn. lia.
  - rewrite Hkc. apply NoDup_app. split; [done|]. split.
    + intros x Hx ->%list_elem_of_singleton. done.
    + apply NoDup_singleton.
  - rewrite Hka.
    eapply NoDup_Permutation_proper; [|exact Ha].
    rewrite app_assoc. by rewrite <- Permutation_cons_append.
Qed.

Lemma wf_renewed now ls h rs q r :
  wf h rs q → wf (<[r := renewed now ls h r]> h) rs q.
Proof.
  intros [Hv Hc Ha]. split.
  - by rewrite length_insert.
  - rewrite <- keys_client, index_renewed; [by rewrite keys_client|done].
  - rewrite <- keys_ip, index_renewed; [by rewrite keys_ip|done].
Qed.

Lemma wf_release h pre r post q :
  wf h (pre ++ r :: post) q → wf h (pre ++ post) (q ++ [ip_at h r]).
Proof.
  intros [Hv Hc Ha]. split.
  - apply Forall_app in Hv as [H1 H2%Forall_cons_1]. apply Forall_app.
    tauto.
  - rewrite fmap_app in *. cbn in Hc.
    eapply NoDup_Permutation_proper in Hc;
      [|by rewrite <- Permutation_middle].
    by apply NoDup_cons_1_2 in Hc.
  - rewrite fmap_app in *. cbn in Ha.
    eapply NoDup_Permutation_proper; [|exact Ha].
    rewrite <- app_assoc. apply Permutation_app_head. cbn.
    by rewrite <- Permutation_middle.
Qed.

(** *** The three outcomes of [request] and of [renew] *)

Lemma request_cases cid now n ls q h rs :
  wf h rs q →
  let q1 := swept_queue now q h rs in
  let rs1 := filter (live now h) rs in
  (∃ r, r ∈ rs1 ∧ client_at h r = cid ∧
     request cid now (pool n ls q h rs)
     = (Ok (ip_at h r), pool n ls q1 h rs1))
  ∨ ((cid ∉ client_at h <$> rs1) ∧ q1 = [] ∧
     request cid now (pool n ls q h rs)
     = (Raise (RuntimeError "No available IPs"), pool n ls [] h rs1))
  ∨ ((cid ∉ client_at h <$> rs1) ∧ ∃ a q2, q1 = a :: q2 ∧
     request cid now (pool n ls q h rs)
     = (Ok a, pool n ls q2 (h ++ [mkLease cid a (now + ls)])
                (rs1 ++ [length h]))).
Proof.
  intros Hwf q1 rs1. rewrite request_sweep by done.
  fold (swept_queue now q h rs). fold q1 rs1.
  assert (Hwf1 : wf h rs1 q1) by by apply wf_sweep.
  assert (Hl1 : Forall (live now h) rs1) by apply sweep_all_live.
  destruct (decide (cid ∈ client_at h <$> rs1)) as [Hin|Hout].
  - left. apply list_elem_of_fmap in Hin as (r & -> & Hr). exists r.
    split; [done|]. split; [done|].
    apply request_live_spec; try done.
    by eapply Forall_forall in Hl1.
  - right. destruct q1 as [|a q2] eqn:Hq.
    + left. split; [done|]. split; [done|]. by apply request_empty_spec.
    + right. split; [done|]. exists a, q2. split; [done|].
      by apply request_alloc_spec.
Qed.

Lemma renew_cases cid now n ls q h rs :
  wf h rs q →
  let q1 := swept_queue now q h rs in
  let rs1 := filter (live now h) rs in
  (∃ r, r ∈ rs1 ∧ client_at h r = cid ∧
     renew cid now (pool n ls q h rs)
     = (Ok (ip_at h r), pool n ls q1 (<[r := renewed now ls h r]> h) rs1))
  ∨ ((cid ∉ client_at h <$> rs1) ∧ q1 = [] ∧
     renew cid now (pool n ls q h rs)
     = (Raise (RuntimeError "No available IPs"), pool n ls [] h rs1))
  ∨ ((cid ∉ client_at h <$> rs1) ∧ ∃ a q2, q1 = a :: q2 ∧
     renew cid now (pool n ls q h rs)
     = (Ok a, pool n ls q2 (h ++ [mkLease cid a (now + ls)])
                (rs1 ++ [length h]))).
Proof.
  intros Hwf q1 rs1. rewrite renew_sweep by done.
  fold (swept_queue now q h rs). fold q1 rs1.
  assert (Hwf1 : wf h rs1 q1) by by apply wf_sweep.
  assert (Hl1 : Forall (live now h) rs1) by apply sweep_all_live.
  destruct (decide (cid ∈ client_at h <$> rs1)) as [Hin|Hout].
  - left. apply list_elem_of_fmap in Hin as (r & -> & Hr). exists r.
    split; [done|]. split; [done|].
    apply renew_live_spec; try done.
    by eapply Forall_forall in Hl1.
  - right. rewrite renew_absent_spec by done.
    destruct q1 as [|a q2] eqn:Hq.
    + left. split; [done|]. split; [done|]. by apply request_empty_spec.
    + right. split; [done|]. exists a, q2. split; [done|].
      by apply request_alloc_spec.
Qed.

Lemma release_cases cid n ls q h rs :
  wf h rs q →
  (∃ pre r post, rs = pre ++ r :: post ∧ client_at h r = cid ∧
     release cid (pool n ls q h rs)
     = (Ok tt, pool n ls (q ++ [ip_at h r]) h (pre ++ post)))
  ∨ ((cid ∉ client_at h <$> rs) ∧
     release cid (pool n ls q h rs) = (Ok tt, pool n ls q h rs)).
Proof.
  intros Hwf. destruct (decide (cid ∈ client_at h <$> rs)) as [Hin|Hout].
  - left. apply list_elem_of_fmap in Hin as (r & -> & Hr).
    apply list_elem_of_split in Hr as (pre & post & ->).
    exists pre, r, post. split; [done|]. split; [done|].
    by apply release_present_spec.
  - right. split; [done|]. by apply release_absent_spec.
Qed.

(** *** Every call keeps the pool consistent *)

Lemma bounded_mono T T' ls h rs :
  T <= T' → bounded T ls h rs → bounded T' ls h rs.
Proof.
  intros HT Hb. eapply Forall_impl; [exact Hb|].
  intros r Hr. cbv beta in *. lia.
Qed.

Lemma bounded_filter T ls h rs (P : loc → Prop) `{!∀ r, Decision (P r)} :
  bounded T ls h rs → bounded T ls h (filter P rs).
Proof.
  intros Hb. apply Forall_forall. intros r [_ Hr]%list_elem_of_filter.
  by eapply Forall_forall in Hb.
Qed.

Lemma bounded_alloc T ls h rs cid a :
  Forall (λ r, (r < length h)%nat) rs →
  bounded T ls h rs →
  bounded T ls (h ++ [mkLease cid a (T + ls)]) (rs ++ [length h]).
Proof.
  intros Hv Hb. apply Forall_app. split.
  - apply Forall_forall. intros r Hr.
    rewrite lookup_total_app_l by (by eapply Forall_forall in Hv).
    by eapply Forall_forall in Hb.
  - apply Forall_singleton. by rewrite list_lookup_total_middle.
Qed.

Lemma bounded_renewed T ls h rs r :
  bounded T ls h rs → bounded T ls (<[r := renewed T ls h r]> h) rs.
Proof.
  intros Hb. apply Forall_forall. intros r' Hr'.
  eapply Forall_forall in Hb; [|exact Hr'].
  destruct (decide (r = r')) as [<-|Hne].
  - destruct (decide (r < length h)%nat).
    + by rewrite list_lookup_total_insert_eq.
    + by rewrite list_insert_ge by lia.
  - by rewrite list_lookup_total_insert_ne.
Qed.

Lemma sweep_perm now q h rs :
  swept_queue now q h rs ++ (ip_at h <$> filter (live now h) rs)
  ≡ₚ q ++ (ip_at h <$> rs).
Proof.
  unfold swept_queue, live. rewrite <- app_assoc, <- fmap_app.
  by rewrite filter_app_complement.
Qed.

Ltac bnd :=
  let Hb := fresh "Hb" in
  let HT := fresh "HT" in
  intros Hb HT; apply (bounded_mono _ _ _ _ _ HT) in Hb.

Lemma step_pool o n ls q h rs T :
  wf h rs q →
  ∃ q' h' rs',
    step o (pool n ls q h rs) = pool n ls q' h' rs' ∧
    wf h' rs' q' ∧
    q' ++ (ip_at h' <$> rs') ≡ₚ q ++ (ip_at h <$> rs) ∧
    (bounded T ls h rs → T <= op_time T o →
     bounded (op_time T o) ls h' rs').
Proof.
  intros Hwf.
  destruct o as [cid now|cid now|cid|now]; cbn [step op_time] in *.
  - pose proof (wf_sweep now _ _ _ Hwf) as Hwf1.
    pose proof (sweep_perm now q h rs) as Hp.
    destruct (request_cases cid now n ls q h rs Hwf)
      as [(r & Hr & Hc & ->)|[(Hc & Hq & ->)|(Hc & a & q2 & Hq & ->)]];
      cbn [snd].
    + eexists _, _, _. split; [done|]. split; [done|]. split; [done|].
      bnd; by apply bounded_filter.
    + fold (swept_queue now q h rs) in Hwf1. rewrite Hq in Hwf1, Hp.
      eexists _, _, _. split; [done|]. split; [done|]. split; [done|].
      bnd; by apply bounded_filter.
    + fold (swept_queue now q h rs) in Hwf1. rewrite Hq in Hwf1, Hp.
      eexists _, _, _. split; [done|]. split; [by apply wf_alloc|]. split.
      * rewrite <- Hp. rewrite <- !keys_ip.
        rewrite index_app, fmap_app, index_alloc by apply Hwf1.
        cbn. rewrite list_lookup_total_middle by done. cbn.
        rewrite app_assoc. by rewrite <- Permutation_cons_append.
      * bnd. apply bounded_alloc; [apply Hwf1|by apply bounded_filter].
  - pose proof (wf_sweep now _ _ _ Hwf) as Hwf1.
    pose proof (sweep_perm now q h rs) as Hp.
    destruct (renew_cases cid now n ls q h rs Hwf)
      as [(r & Hr & Hc & ->)|[(Hc & Hq & ->)|(Hc & a & q2 & Hq & ->)]];
      cbn [snd].
    + eexists _, _, _. split; [done|]. split; [by apply wf_renewed|]. split.
      * rewrite <- Hp. rewrite <- !keys_ip. by rewrite index_renewed.
      * bnd. by apply bounded_renewed, bounded_filter.
    + fold (swept_queue now q h rs) in Hwf1. rewrite Hq in Hwf1, Hp.
      eexists _, _, _. split; [done|]. split; [done|]. split; [done|].
      bnd; by apply bounded_filter.
    + fold (swept_queue now q h rs) in Hwf1. rewrite Hq in Hwf1, Hp.
      eexists _, _, _. split; [done|]. split; [by apply wf_alloc|]. split.
      * rewrite <- Hp. rewrite <- !keys_ip.
        rewrite index_app, fmap_app, index_alloc by apply Hwf1.
        cbn. rewrite list_lookup_total_middle by done. cbn.
        rewrite app_assoc. by rewrite <- Permutation_cons_append.
      * bnd. apply bounded_alloc; [apply Hwf1|by apply bounded_filter].
  - destruct (release_cases cid n ls q h rs Hwf)
      as [(pre & r & post & -> & Hc & ->)|(Hc & ->)]; cbn [snd].
    + eexists _, _, _. split; [done|]. split; [by apply wf_release|]. split.
      * rewrite !fmap_app. cbn. rewrite <- app_assoc.
        apply Permutation_app_head. cbn.
        by rewrite <- Permutation_middle.
      * intros Hb _. apply Forall_app in Hb as [H1 H2%Forall_cons_1].
        apply Forall_app. tauto.
    + by eexists _, _, _.
  - rewrite expire_pool by done. cbn [snd].
    eexists _, _, _. split; [done|]. split; [by apply wf_sweep|]. split.
    + apply sweep_perm.
    + bnd; by apply bounded_filter.
Qed.

Lemma run_pool ops n ls q h rs T :
  wf h rs q →
  ∃ q' h' rs',
    run ops (pool n ls q h rs) = pool n ls q' h' rs' ∧
    wf h' rs' q' ∧
    q' ++ (ip_at h' <$> rs') ≡ₚ q ++ (ip_at h <$> rs) ∧
    (bounded T ls h rs → monotone T ops →
     bounded (last_time T ops) ls h' rs').
Proof.
  revert q h rs T. induction ops as [|o ops IH]; intros q h rs T Hwf.
  - by exists q, h, rs.
  - destruct (step_pool o n ls q h rs T Hwf)
      as (q1 & h1 & rs1 & Hs & Hwf1 & Hp1 & Hb1).
    destruct (IH q1 h1 rs1 (op_time T o) Hwf1)
      as (q2 & h2 & rs2 & Hr & Hwf2 & Hp2 & Hb2).
    exists q2, h2, rs2. cbn [run foldl]. rewrite Hs. fold (run ops).
    split; [exact Hr|]. split; [done|]. split; [by rewrite Hp2|].
    intros Hb Hm. destruct o; cbn [monotone last_time op_time] in *;
      try (destruct Hm as [Hle Hm]); apply Hb2; try done;
      apply Hb1; try done; lia.
Qed.

Lemma inv_run ops s : inv s → inv (run ops s).
Proof.
  intros (q & h & rs & -> & Hwf)%inv_pool.
  destruct (run_pool ops (net s) (lease_seconds s) q h rs 0 Hwf)
    as (q' & h' & rs' & -> & Hwf' & _). by apply wf_inv.
Qed.

(** *** Reading a lease *)

Lemma lease_of_pool n ls q h rs r :
  wf h rs q → r ∈ rs →
  lease_of (client_at h r) (pool n ls q h rs) = Some (h !!! r).
Proof.
  intros Hwf Hr. unfold lease_of. cbn [pool _leases_by_client heap].
  rewrite (client_lookup h rs q r) by done. by eapply wf_lookup.
Qed.

Lemma lease_of_pool_None n ls q h rs cid :
  cid ∉ client_at h <$> rs → lease_of cid (pool n ls q h rs) = None.
Proof.
  intros Hc. unfold lease_of. cbn [pool _leases_by_client].
  by rewrite client_absent.
Qed.

Lemma lease_of_pool_Some n ls q h rs cid L :
  wf h rs q → lease_of cid (pool n ls q h rs) = Some L →
  ∃ r, r ∈ rs ∧ client_at h r = cid ∧ h !!! r = L.
Proof.
  intros Hwf. destruct (decide (cid ∈ client_at h <$> rs)) as [Hin|Hout].
  - apply list_elem_of_fmap in Hin as (r & -> & Hr).
    rewrite (lease_of_pool n ls _ _ _ _ Hwf Hr). intros [= <-]. by exists r.
  - by rewrite lease_of_pool_None.
Qed.

Lemma client_unique h rs q r r' :
  wf h rs q → r ∈ rs → r' ∈ rs → client_at h r = client_at h r' → r = r'.
Proof.
  intros Hwf Hr Hr' Heq.
  pose proof (client_lookup h rs q r Hwf Hr) as H1.
  pose proof (client_lookup h rs q r' Hwf Hr') as H2.
  rewrite Heq in H1. congruence.
Qed.

Lemma leased_pool n ls q h rs : leased (pool n ls q h rs) = ip_at h <$> rs.
Proof. apply keys_ip. Qed.

Lemma leases_pool n ls q h rs :
  wf h rs q → leases (pool n ls q h rs) = (h !!!.) <$> rs.
Proof.
  intros [Hv _ _]. unfold leases. cbn [pool _leases_by_client heap].
  induction Hv as [|r rs Hr _ IH]; [done|].
  cbn. rewrite (lookup_valid _ _ Hr). cbn. f_equal. exact IH.
Qed.

(** *** The pool a constructor call builds *)

Lemma NoDup_range a b : NoDup (range a b).
Proof.
  unfold range. apply NoDup_fmap_2_strong; [|apply NoDup_seq].
  intros i j _ _ Hij. lia.
Qed.

Lemma NoDup_hosts n : NoDup (hosts n).
Proof.
  unfold hosts. repeat case_decide; try apply NoDup_range.
  apply NoDup_singleton.
Qed.

Lemma init_available network ls excl :
  _available (__init__ network ls excl) = host_set network excl.
Proof.
  unfold __init__, host_set. cbn [_available].
  destruct (hosts (ip_network network.1 network.2)) as [|h0 hs] eqn:Hh;
    [done|].
  apply list_filter_iff. intros a. cbn [head].
  rewrite not_elem_of_union, not_elem_of_singleton, elem_of_list_to_set.
  split; intros [? ?]; split; congruence.
Qed.

Lemma init_pool network ls excl :
  __init__ network ls excl
  = pool (ip_network network.1 network.2) ls (host_set network excl) [] [].
Proof. unfold pool. by rewrite <- (init_available network ls excl). Qed.

Lemma init_wf network excl : wf [] [] (host_set network excl).
Proof.
  split; [done|apply NoDup_nil_2|]. cbn. rewrite app_nil_r.
  apply NoDup_filter, NoDup_hosts.
Qed.

Lemma init_inv network ls excl : inv (__init__ network ls excl).
Proof. rewrite init_pool. apply wf_inv, init_wf. Qed.

(** *** Specified properties of the lease pool *)

(** C1. Whatever sequence of request, renew, release and expire calls a
    pool built from a network and exclusions has served, no address
    occurs twice across the available queue and the leased set, the two
    together hold exactly the constructed host set (block hosts less
    exclusions less the first host), and the leased set is the set of
    addresses of the leases that clients hold. *)
Theorem C1_address_partition network ls excl ops :
  let s := run ops (__init__ network ls excl) in
  NoDup (_available s ++ leased s) ∧
  _available s ++ leased s ≡ₚ host_set network excl ∧
  (∀ a, a ∈ leased s ↔ ∃ cid L, lease_of cid s = Some L ∧ ip L = a).
Proof.
  intros s. subst s. rewrite init_pool.
  destruct (run_pool ops (ip_network network.1 network.2) ls
              (host_set network excl) [] [] 0 (init_wf network excl))
    as (q & h & rs & -> & Hwf & Hp & _).
  rewrite leased_pool. cbn [pool _available].
  split; [apply Hwf|]. split.
  - rewrite Hp. cbn. by rewrite app_nil_r.
  - intros a. split.
    + intros (r & -> & Hr)%list_elem_of_fmap.
      exists (client_at h r), (h !!! r). split; [|done].
      by eapply lease_of_pool.
    + intros (cid & L & HL & <-).
      apply lease_of_pool_Some in HL as (r & Hr & _ & <-); [|done].
      apply list_elem_of_fmap. by exists r.
Qed.

(** C10. A pool built from a /32 network has one host, which the
    constructor reserves as the gateway: the queue is empty, the count of
    available addresses is 0, and after any sequence of calls a request
    raises for want of addresses and leaves the pool as built. *)
Theorem C10_single_address_pool addr ls excl ops cid now :
  let s0 := __init__ (addr, 32) ls excl in
  hosts (net s0) = [addr] ∧
  available_count s0 = 0 ∧
  run ops s0 = s0 ∧
  request cid now (run ops s0)
  = (Raise (RuntimeError "No available IPs"), s0).
Proof.
  intros s0.
  assert (Hs0 : s0 = mkPool (ip_network addr 32) ls [] [] [] []).
  { unfold s0, __init__. cbn [fst snd].
    change (hosts (ip_network addr 32)) with [addr].
    rewrite filter_cons, decide_False by set_solver. done. }
  assert (Hrun : run ops s0 = s0).
  { rewrite Hs0. induction ops as [|o ops IH]; [done|].
    cbn [run foldl]. fold (run ops).
    replace (step o _) with (mkPool (ip_network addr 32) ls [] [] [] []);
      [exact IH|]. by destruct o. }
  split; [by rewrite Hs0|]. split; [by rewrite Hs0|]. split; [done|].
  rewrite Hrun, Hs0. done.
Qed.

Lemma request_again t2 n ls q h rs r :
  wf h rs q → r ∈ rs → t2 < expiry (h !!! r) →
  ∃ s2, request (client_at h r) t2 (pool n ls q h rs)
        = (Ok (ip_at h r), s2) ∧
        lease_of (client_at h r) s2 = Some (h !!! r).
Proof.
  intros Hwf Hr Hlive.
  assert (Hr1 : r ∈ filter (live t2 h) rs).
  { apply list_elem_of_filter. split; [|done]. unfold live, expired. lia. }
  pose proof (wf_sweep t2 _ _ _ Hwf) as Hwf1.
  destruct (request_cases (client_at h r) t2 n ls q h rs Hwf)
    as [(r' & Hr' & Hc & ->)|[(Hc & _)|(Hc & _)]].
  - assert (r' = r) as ->.
    { eapply client_unique; [exact Hwf1|done|done|done]. }
    eexists. split; [done|]. by eapply lease_of_pool.
  - destruct Hc. apply list_elem_of_fmap. by exists r.
  - destruct Hc. apply list_elem_of_fmap. by exists r.
Qed.

Lemma request_ok cid now s a s1 :
  inv s → request cid now s = (Ok a, s1) →
  ∃ n ls q h rs r,
    s1 = pool n ls q h rs ∧ wf h rs q ∧ r ∈ rs ∧
    client_at h r = cid ∧ ip_at h r = a.
Proof.
  intros (q & h & rs & -> & Hwf)%inv_pool.
  pose proof (wf_sweep now _ _ _ Hwf) as Hwf1.
  destruct (request_cases cid now (net s) (lease_seconds s) q h rs Hwf)
    as [(r & Hr & Hc & ->)|[(Hc & _ & ->)|(Hc & a' & q2 & Hq & ->)]];
    intros [= <- <-].
  - by eexists _, _, _, _, _, r.
  - fold (swept_queue now q h rs) in Hwf1. rewrite Hq in Hwf1.
    eexists _, _, _, _, _, (length h).
    split; [done|]. split; [by apply wf_alloc|].
    split; [apply elem_of_app; right; left|].
    unfold client_at, ip_at. by rewrite list_lookup_total_middle.
Qed.

(** C3. When [request c t1] returns an address, [c] holds a lease on
    that address; for every [t2] with [t1 <= t2] below that lease's
    expiry, a following [request c t2] returns the same address and
    leaves the lease of [c] as it was, address and expiry. *)
Theorem C3_request_idempotent s cid t1 t2 a s1 L :
  inv s →
  request cid t1 s = (Ok a, s1) →
  lease_of cid s1 = Some L →
  t1 <= t2 → t2 < expiry L →
  ip L = a ∧
  ∃ s2, request cid t2 s1 = (Ok a, s2) ∧ lease_of cid s2 = Some L.
Proof.
  intros Hinv Hreq HL _ Ht2.
  destruct (request_ok cid t1 s a s1 Hinv Hreq)
    as (n & ls & q & h & rs & r & -> & Hwf & Hr & <- & <-).
  rewrite (lease_of_pool n ls q h rs r Hwf Hr) in HL.
  injection HL as <-. split; [done|].
  by apply request_again.
Qed.

(** A successful request always leaves the client with a lease. *)
Lemma request_leaves_lease s cid t1 a s1 :
  inv s → request cid t1 s = (Ok a, s1) →
  ∃ L, lease_of cid s1 = Some L ∧ ip L = a ∧ client_id L = cid.
Proof.
  intros Hinv Hreq.
  destruct (request_ok cid t1 s a s1 Hinv Hreq)
    as (n & ls & q & h & rs & r & -> & Hwf & Hr & <- & <-).
  exists (h !!! r). split; [by eapply lease_of_pool|done].
Qed.

Lemma renew_live s cid now L :
  inv s → lease_of cid s = Some L → expiry L > now →
  ∃ s', renew cid now s = (Ok (ip L), s') ∧
        lease_of cid s'
        = Some (mkLease cid (ip L) (now + lease_seconds s)).
Proof.
  intros (q & h & rs & Hs & Hwf)%inv_pool HL Hlive.
  set (n := net s) in *. set (ls := lease_seconds s) in *. rewrite Hs in *.
  clearbody n ls. clear Hs.
  apply lease_of_pool_Some in HL as (r & Hr & <- & <-); [|done].
  assert (Hr1 : r ∈ filter (live now h) rs).
  { apply list_elem_of_filter. split; [|done]. unfold live, expired. lia. }
  pose proof (wf_sweep now _ _ _ Hwf) as Hwf1.
  destruct (renew_cases (client_at h r) now n ls q h rs Hwf)
    as [(r' & Hr' & Hc & ->)|[(Hc & _)|(Hc & _)]].
  - assert (r' = r) as ->.
    { eapply client_unique; [exact Hwf1|done|done|done]. }
    eexists. split; [done|].
    pose proof (wf_renewed now ls _ _ _ r Hwf1) as Hwf2.
    pose proof (lease_of_pool n ls _ _ _ r Hwf2 Hr1) as Hl.
    assert (Hlt : (r < length h)%nat).
    { destruct Hwf as [Hv _ _]. by eapply Forall_forall in Hv. }
    unfold client_at at 1 in Hl.
    rewrite list_lookup_total_insert_eq in Hl by done. exact Hl.
  - destruct Hc. apply list_elem_of_fmap. by exists r.
  - destruct Hc. apply list_elem_of_fmap. by exists r.
Qed.

(** C8. A client with a live lease gets its address back from [renew],
    and its lease then runs to [now] plus the lease term.  When the
    pool has been driven with time values that never go back, up to
    [now], the new expiry is not below the old one. *)
Theorem C8_renew_extends s cid now L :
  inv s → lease_of cid s = Some L → expiry L > now →
  (∃ s', renew cid now s = (Ok (ip L), s') ∧
         lease_of cid s'
         = Some (mkLease cid (ip L) (now + lease_seconds s))) ∧
  (∀ network ls excl t0 ops,
     s = run ops (__init__ network ls excl) →
     monotone t0 ops → last_time t0 ops <= now →
     lease_seconds s = ls ∧ expiry L <= now + ls).
Proof.
  intros Hinv HL Hlive. split; [by apply renew_live|].
  intros network ls excl t0 ops -> Hm Hlast. rewrite init_pool in *.
  destruct (run_pool ops (ip_network network.1 network.2) ls
              (host_set network excl) [] [] t0 (init_wf network excl))
    as (q & h & rs & Hrun & Hwf & _ & Hb).
  rewrite Hrun in *. split; [done|].
  apply lease_of_pool_Some in HL as (r & Hr & _ & <-); [|done].
  specialize (Hb (Forall_nil_2 _) Hm).
  eapply Forall_forall in Hb; [|exact Hr]. cbv beta in Hb. lia.
Qed.

(** *** First in, first out *)

Lemma lease_of_release_other n ls q q' h pre r post cid :
  cid ≠ client_at h r →
  lease_of cid (pool n ls q' h (pre ++ post))
  = lease_of cid (pool n ls q h (pre ++ r :: post)).
Proof.
  intros Hne. unfold lease_of. cbn [pool _leases_by_client heap].
  rewrite !index_app. cbn [index fmap list_fmap].
  by rewrite dict_get_skip.
Qed.

Lemma released_absent h pre r post q :
  wf h (pre ++ r :: post) q →
  client_at h r ∉ client_at h <$> (pre ++ post).
Proof.
  intros [_ Hc _]. rewrite fmap_app in *. cbn in Hc.
  apply NoDup_app in Hc as (_ & H2 & [H3 _]%NoDup_cons).
  intros [Hin|Hin]%elem_of_app; [|done]. apply (H2 _ Hin). left.
Qed.

Lemma release_all n ls h cs : ∀ addrs q rs,
  wf h rs q → NoDup cs →
  (λ c, address_of c (pool n ls q h rs)) <$> cs = Some <$> addrs →
  ∃ rs', run (Release <$> cs) (pool n ls q h rs)
         = pool n ls (q ++ addrs) h rs' ∧
         wf h rs' (q ++ addrs) ∧
         Forall (λ c, lease_of c (pool n ls (q ++ addrs) h rs') = None) cs ∧
         (∀ c, c ∉ cs →
            lease_of c (pool n ls (q ++ addrs) h rs')
            = lease_of c (pool n ls q h rs)).
Proof.
  induction cs as [|c cs IH]; intros addrs q rs Hwf Hnd Hf.
  - destruct addrs; [|done]. exists rs. rewrite app_nil_r.
    split; [done|]. split; [done|]. split; [constructor|done].
  - destruct addrs as [|a addrs]; [done|]. cbn [fmap list_fmap] in Hf.
    injection Hf as Ha Hf. apply NoDup_cons in Hnd as [Hc Hnd].
    unfold address_of in Ha.
    destruct (lease_of c _) as [L|] eqn:HL; [|done]. injection Ha as <-.
    apply lease_of_pool_Some in HL as (r & Hr & <- & <-); [|done].
    destruct (release_cases (client_at h r) n ls q h rs Hwf)
      as [(pre & r' & post & -> & Hcr & Hrel)|(Hout & _)].
    2:{ destruct Hout. apply list_elem_of_fmap. by exists r. }
    assert (r' = r) as ->.
    { eapply client_unique; [exact Hwf| |done|done].
      apply elem_of_app. right. left. }
    pose proof (wf_release _ _ _ _ _ Hwf) as Hwf1.
    destruct (IH addrs (q ++ [ip_at h r]) (pre ++ post))
      as (rs' & Hrun & Hwf' & Hnone & Hother); [done|done| |].
    { rewrite <- Hf. apply Forall_fmap_ext_1, Forall_forall.
      intros c' Hc'. unfold address_of.
      rewrite (lease_of_release_other n ls q (q ++ [ip_at h r]) h pre r);
        [done|]. by intros ->. }
    rewrite <- app_assoc in Hrun, Hwf', Hnone, Hother. cbn [app] in *.
    exists rs'. cbn [fmap list_fmap run foldl step]. rewrite Hrel.
    cbn [snd]. fold (run (Release <$> cs)).
    split; [exact Hrun|]. split; [exact Hwf'|]. split.
    + apply Forall_cons. split; [|exact Hnone].
      rewrite Hother by done. apply lease_of_pool_None.
      by eapply released_absent.
    + intros c' [Hne Hc']%not_elem_of_cons. rewrite Hother by done.
      by apply lease_of_release_other.
Qed.

Lemma clients_alloc h rs cid a e :
  Forall (λ r, (r < length h)%nat) rs →
  client_at (h ++ [mkLease cid a e]) <$> rs ++ [length h]
  = (client_at h <$> rs) ++ [cid].
Proof.
  intros Hv.
  rewrite <- !keys_client, index_app, fmap_app, index_alloc by done.
  cbn. unfold client_at. by rewrite list_lookup_total_middle.
Qed.

Lemma fresh_requests n ls reqs : ∀ q h rs,
  wf h rs q → NoDup reqs.*1 →
  Forall (λ c, c ∉ client_at h <$> rs) reqs.*1 →
  (length reqs ≤ length q)%nat →
  request_all reqs (pool n ls q h rs) = Ok <$> take (length reqs) q.
Proof.
  induction reqs as [|[c t] reqs IH]; intros q h rs Hwf Hnd Hfresh Hlen;
    [done|].
  cbn [fmap list_fmap fst length] in *.
  apply NoDup_cons in Hnd as [Hc Hnd].
  apply Forall_cons in Hfresh as [Hcf Hfresh].
  destruct q as [|a0 q0]; [cbn in Hlen; lia|]. cbn [length] in Hlen.
  assert (Hsub : ∀ c', c' ∉ client_at h <$> rs →
                       c' ∉ client_at h <$> filter (live t h) rs).
  { intros c' Hc' (r & -> & [_ Hr]%list_elem_of_filter)%list_elem_of_fmap.
    apply Hc'. apply list_elem_of_fmap. by exists r. }
  pose proof (wf_sweep t _ _ _ Hwf) as Hwf1.
  cbn [request_all].
  destruct (request_cases c t n ls (a0 :: q0) h rs Hwf)
    as [(r & Hr & Hcr & _)|[(_ & Hq & _)|(_ & a & q2 & Hq & ->)]].
  - destruct (Hsub c Hcf). apply list_elem_of_fmap. by exists r.
  - done.
  - unfold swept_queue in Hq. cbn [app] in Hq. injection Hq as <- <-.
    cbn [take fmap list_fmap]. f_equal.
    rewrite IH.
    + by rewrite take_app_le by lia.
    + by apply wf_alloc, Hsub.
    + done.
    + rewrite clients_alloc by apply Hwf1.
      apply Forall_forall. intros c' Hc'.
      eapply Forall_forall in Hfresh; [|exact Hc'].
      intros [Hin|Hin%list_elem_of_singleton]%elem_of_app.
      * by apply (Hsub c').
      * by subst c'.
    + rewrite length_app. lia.
Qed.

(** C6. Take clients [cs] that hold the addresses [addrs], one each.
    Releasing them in that order appends [addrs] to the tail of the
    queue and leaves none of them with a lease; releasing a client
    without a lease changes nothing.  Requests by clients that hold no
    lease afterwards are then served from the head: first the addresses
    already queued, then the released ones in the order of release. *)
Theorem C6_fifo_reuse s cs addrs reqs :
  inv s → NoDup cs →
  (λ c, address_of c s) <$> cs = Some <$> addrs →
  let s1 := run (Release <$> cs) s in
  NoDup reqs.*1 →
  Forall (λ c, lease_of c s1 = None) reqs.*1 →
  (length reqs ≤ length (_available s ++ addrs))%nat →
  _available s1 = _available s ++ addrs ∧
  Forall (λ c, lease_of c s1 = None) cs ∧
  (∀ c, lease_of c s = None → release c s = (Ok tt, s)) ∧
  request_all reqs s1
  = Ok <$> take (length reqs) (_available s ++ addrs).
Proof.
  intros (q & h & rs & Hs & Hwf)%inv_pool Hnd Haddr.
  set (n := net s) in *. set (ls := lease_seconds s) in *. rewrite Hs in *.
  clearbody n ls. clear Hs.
  destruct (release_all n ls h cs addrs q rs Hwf Hnd Haddr)
    as (rs' & Hrun & Hwf' & Hnone & _).
  intros s1 Hndr Hfresh Hlen. subst s1. rewrite Hrun in *.
  cbn [pool _available] in *.
  split; [done|]. split; [done|]. split.
  - intros c Hc.
    destruct (release_cases c n ls q h rs Hwf)
      as [(pre & r & post & -> & <- & _)|(_ & ->)]; [|done].
    rewrite (lease_of_pool n ls q h _ r Hwf) in Hc; [done|].
    apply elem_of_app. right. left.
  - apply fresh_requests; try done.
    eapply Forall_impl; [exact Hfresh|]. intros c Hc Hin.
    apply list_elem_of_fmap in Hin as (r & -> & Hr).
    by rewrite (lease_of_pool n ls _ h rs' r Hwf' Hr) in Hc.
Qed.

(** *** Exhaustion and expiry *)

Lemma request_raise s cid now e s' :
  inv s → request cid now s = (Raise e, s') →
  s' = s ∧ e = RuntimeError "No available IPs".
Proof.
  intros (q & h & rs & Hs & Hwf)%inv_pool.
  set (n := net s) in *. set (ls := lease_seconds s) in *. rewrite Hs.
  clearbody n ls. clear Hs.
  destruct (request_cases cid now n ls q h rs Hwf)
    as [(r & _ & _ & ->)|[(_ & Hq & ->)|(_ & a & q2 & _ & ->)]];
    intros [= <- <-]; [].
  split; [|done]. unfold swept_queue in Hq.
  apply app_eq_nil in Hq as [-> Hexp%fmap_nil_inv].
  unfold live. by rewrite filter_none_complement.
Qed.

Lemma expire_sweep s now :
  inv s →
  ∃ s', expire now s
        = (Ok (Z.of_nat (length (filter (λ L, expiry L <= now) (leases s)))),
           s') ∧
        inv s' ∧
        leases s' = filter (λ L, ¬ expiry L <= now) (leases s) ∧
        (∀ L, L ∈ leases s → expiry L <= now →
           ip L ∈ _available s' ∧ (ip L ∉ leased s') ∧
           lease_of (client_id L) s' = None) ∧
        expire now s' = (Ok 0, s').
Proof.
  intros (q & h & rs & Hs & Hwf)%inv_pool.
  set (n := net s) in *. set (ls := lease_seconds s) in *. rewrite Hs.
  clearbody n ls. clear Hs.
  pose proof (wf_sweep now _ _ _ Hwf) as Hwf1.
  eexists. rewrite expire_pool by done.
  rewrite !leases_pool by done.
  split; [|split; [by apply wf_inv|split; [|split]]].
  - by rewrite filter_fmap, length_fmap.
  - by rewrite filter_fmap.
  - intros L (r & -> & Hr)%list_elem_of_fmap Hexp.
    assert (Hre : r ∈ filter (expired now h) rs)
      by by apply list_elem_of_filter.
    assert (Hin : ip (h !!! r) ∈ swept_queue now q h rs).
    { apply elem_of_app. right. apply list_elem_of_fmap. by exists r. }
    split; [exact Hin|]. rewrite leased_pool.
    destruct Hwf1 as [_ Hc1 Ha1]. apply NoDup_app in Ha1 as (_ & Hd & _).
    split; [by apply Hd|].
    apply lease_of_pool_None.
    intros (r' & Heq & [Hl' Hr']%list_elem_of_filter)%list_elem_of_fmap.
    assert (r = r') as <- by by eapply client_unique.
    by apply Hl'.
  - apply expire_idle; [done|apply sweep_all_live].
Qed.
End pool_facts.

(** ** The translation table *)

Module nat_facts.
Import nat_table.
Implicit Types (s : NATTable) (h : list Mapping) (rs pre post : list loc)
  (r : loc) (now lo hi tmo port : Z) (pub : string) (k : Key).

Ltac mred :=
  cbv [bind gets modify ret raise get deref new assign
       with_heap with_int2ext with_ext2int];
  cbn [_int2ext _ext2int heap public_ip pmin pmax timeout table].

Section normalisation.
(** [str.lower], as any function on strings. *)
Variable lower : string → string.

Lemma keys_key h rs : (index key_of h rs).*1 = key_at h <$> rs.
Proof. apply index_keys. Qed.

Lemma keys_port h rs : (index external_port h rs).*1 = port_at h <$> rs.
Proof. apply index_keys. Qed.

Lemma inv_table s :
  inv s ↔ ∃ h rs,
    s = table (public_ip s) (pmin s) (pmax s) (timeout s) h rs ∧
    wf (pmin s) (pmax s) h rs.
Proof.
  split.
  - intros [Hv Hi He Hk Hp Hr]. exists (heap s), (refs s). split.
    + destruct s; unfold table, refs in *; cbn in *. by f_equal.
    + rewrite Hi, keys_key in Hk. rewrite He, keys_port in Hp, Hr.
      by split.
  - intros (h & rs & -> & [Hv Hk Hp Hr]). unfold table.
    split; unfold refs; cbn; rewrite ?index_refs, ?keys_key, ?keys_port;
      done.
Qed.

Lemma table_wf_inv pub lo hi tmo h rs : wf lo hi h rs → inv (table pub lo hi tmo h rs).
Proof. intros Hwf. apply inv_table. by exists h, rs. Qed.

Lemma table_wf_lookup lo hi h rs r :
  wf lo hi h rs → r ∈ rs → h !! r = Some (h !!! r).
Proof.
  intros [Hv _ _ _] Hr. apply lookup_valid. by eapply Forall_forall in Hv.
Qed.

Lemma key_lookup lo hi h rs r :
  wf lo hi h rs → r ∈ rs →
  dict_get (key_at h r) (index key_of h rs) = Some r.
Proof.
  intros [_ Hk _ _] Hr. apply (index_lookup key_of); [|done].
  by rewrite keys_key.
Qed.

Lemma port_lookup lo hi h rs r :
  wf lo hi h rs → r ∈ rs →
  dict_get (port_at h r) (index external_port h rs) = Some r.
Proof.
  intros [_ _ Hp _] Hr. apply (index_lookup external_port); [|done].
  by rewrite keys_port.
Qed.

Lemma key_absent h rs k :
  k ∉ key_at h <$> rs → dict_get k (index key_of h rs) = None.
Proof. intros Hk. apply dict_get_None. by rewrite keys_key. Qed.

Lemma port_absent h rs port :
  port ∉ port_at h <$> rs → dict_get port (index external_port h rs) = None.
Proof. intros Hk. apply dict_get_None. by rewrite keys_port. Qed.

Lemma key_unique lo hi h rs r r' :
  wf lo hi h rs → r ∈ rs → r' ∈ rs → key_at h r = key_at h r' → r = r'.
Proof.
  intros Hwf Hr Hr' Heq.
  pose proof (key_lookup _ _ _ _ r Hwf Hr) as H1.
  pose proof (key_lookup _ _ _ _ r' Hwf Hr') as H2.
  rewrite Heq in H1. congruence.
Qed.

Lemma port_unique lo hi h rs r r' :
  wf lo hi h rs → r ∈ rs → r' ∈ rs → port_at h r = port_at h r' → r = r'.
Proof.
  intros Hwf Hr Hr' Heq.
  pose proof (port_lookup _ _ _ _ r Hwf Hr) as H1.
  pose proof (port_lookup _ _ _ _ r' Hwf Hr') as H2.
  rewrite Heq in H1. congruence.
Qed.

(** *** Touching a mapping *)

Lemma index_touched {K} (key : Mapping → K) now h r rs :
  key (set_last_seen now (h !!! r)) = key (h !!! r) →
  index key (touched now h r) rs = index key h rs.
Proof. apply index_assign. Qed.

Lemma wf_touched lo hi now h rs r :
  wf lo hi h rs → wf lo hi (touched now h r) rs.
Proof.
  intros [Hv Hk Hp Hr]. split.
  - unfold touched. by rewrite length_insert.
  - rewrite <- keys_key, index_touched; [by rewrite keys_key|done].
  - rewrite <- keys_port, index_touched; [by rewrite keys_port|done].
  - rewrite <- keys_port, index_touched; [by rewrite keys_port|done].
Qed.

Lemma table_touched pub lo hi tmo now h rs r :
  mkTable pub lo hi tmo (index key_of h rs) (index external_port h rs)
    (touched now h r)
  = table pub lo hi tmo (touched now h r) rs.
Proof. unfold table. by rewrite !index_touched. Qed.

(** *** The port scan *)

Lemma taken_iff h rs port :
  negb (dict_mem port (index external_port h rs)) = false
  ↔ port ∈ port_at h <$> rs.
Proof. rewrite negb_false_iff, dict_mem_true. by rewrite keys_port. Qed.

Lemma free_port_Some lo hi h rs port :
  free_port lo hi h rs = Some port →
  lo <= port <= hi ∧ (port ∉ port_at h <$> rs) ∧
  ∀ p', lo <= p' < port → p' ∈ port_at h <$> rs.
Proof.
  unfold free_port. intros Hf.
  pose proof (find_range (λ p, negb (dict_mem p (index external_port h rs)))
                _ lo (hi + 1) eq_refl) as Hr.
  rewrite Hf in Hr. destruct Hr as (Hp & Hfree & Hlow).
  split; [lia|]. split.
  - intros Hin%taken_iff. cbv beta in Hfree. congruence.
  - intros p' Hp'. by apply taken_iff, Hlow.
Qed.

Lemma free_port_None lo hi h rs :
  free_port lo hi h rs = None →
  ∀ p, lo <= p <= hi → p ∈ port_at h <$> rs.
Proof.
  unfold free_port. intros Hf p Hp.
  pose proof (find_range (λ p, negb (dict_mem p (index external_port h rs)))
                _ lo (hi + 1) eq_refl) as Hr.
  rewrite Hf in Hr. apply taken_iff, Hr. lia.
Qed.

Lemma alloc_port_spec pub lo hi tmo h rs :
  _alloc_port (table pub lo hi tmo h rs)
  = match free_port lo hi h rs with
    | Some p => (Ok p, table pub lo hi tmo h rs)
    | None => (Raise (RuntimeError "No free NAT ports available"),
               table pub lo hi tmo h rs)
    end.
Proof.
  unfold _alloc_port, free_port. mred.
  by destruct (find _ _).
Qed.

(** *** The calls, on consistent tables *)

Lemma translate_out_hit p a n now pub lo hi tmo h rs r :
  wf lo hi h rs → r ∈ rs → key_at h r = (lower p, a, n) →
  translate_out lower p a n now (table pub lo hi tmo h rs)
  = (Ok (pub, port_at h r), table pub lo hi tmo (touched now h r) rs).
Proof.
  intros Hwf Hr Hk. unfold nat_table.translate_out. mred.
  rewrite <- Hk, (key_lookup lo hi h rs r) by done. mred.
  pose proof (table_wf_lookup _ _ _ _ _ Hwf Hr) as Hl.
  rewrite Hl. mred.
  rewrite list_lookup_insert_eq by (by eapply lookup_lt_Some).
  fold (touched now h r). by rewrite table_touched.
Qed.

Lemma table_alloc pub lo hi tmo h rs m :
  Forall (λ r, (r < length h)%nat) rs →
  mkTable pub lo hi tmo
    (index key_of h rs ++ [(key_of m, length h)])
    (index external_port h rs ++ [(external_port m, length h)])
    (h ++ [m])
  = table pub lo hi tmo (h ++ [m]) (rs ++ [length h]).
Proof.
  intros Hv. unfold table. rewrite !index_app.
  rewrite (index_alloc key_of), (index_alloc external_port) by done.
  cbn [index fmap list_fmap]. by rewrite list_lookup_total_middle.
Qed.

Lemma translate_out_miss p a n now pub lo hi tmo h rs port :
  wf lo hi h rs → (lower p, a, n) ∉ key_at h <$> rs →
  free_port lo hi h rs = Some port →
  translate_out lower p a n now (table pub lo hi tmo h rs)
  = (Ok (pub, port),
     table pub lo hi tmo (h ++ [fresh_mapping lower p a n port now])
       (rs ++ [length h])).
Proof.
  intros Hwf Hk Hf. unfold nat_table.translate_out.
  rewrite bind_eq. cbn [gets table _int2ext].
  rewrite key_absent by done.
  rewrite bind_eq, alloc_port_spec, Hf. mred.
  apply free_port_Some in Hf as (_ & Hfree & _).
  rewrite <- keys_key in Hk. rewrite <- keys_port in Hfree.
  rewrite !dict_set_fresh by done.
  by rewrite <- (table_alloc pub lo hi tmo h rs) by apply Hwf.
Qed.

Lemma translate_out_full p a n now pub lo hi tmo h rs :
  (lower p, a, n) ∉ key_at h <$> rs →
  free_port lo hi h rs = None →
  translate_out lower p a n now (table pub lo hi tmo h rs)
  = (Raise (RuntimeError "No free NAT ports available"),
     table pub lo hi tmo h rs).
Proof.
  intros Hk Hf. unfold nat_table.translate_out.
  rewrite bind_eq. cbn [gets table _int2ext].
  rewrite key_absent by done.
  by rewrite bind_eq, alloc_port_spec, Hf.
Qed.

Lemma translate_in_hit port (at_ : option Z) pub lo hi tmo h rs r :
  wf lo hi h rs → r ∈ rs → port_at h r = port →
  translate_in port at_ (table pub lo hi tmo h rs)
  = (Ok (Some (key_at h r)), table pub lo hi tmo (seen at_ h r) rs).
Proof.
  intros Hwf Hr <-. unfold translate_in. mred.
  rewrite (port_lookup lo hi h rs r) by done. mred.
  pose proof (table_wf_lookup _ _ _ _ _ Hwf Hr) as Hl.
  destruct at_ as [t|]; mred; rewrite Hl; mred; [|done].
  rewrite list_lookup_insert_eq by (by eapply lookup_lt_Some).
  fold (touched t h r). by rewrite table_touched.
Qed.

Lemma translate_in_miss port (at_ : option Z) pub lo hi tmo h rs :
  port ∉ port_at h <$> rs →
  translate_in port at_ (table pub lo hi tmo h rs)
  = (Ok None, table pub lo hi tmo h rs).
Proof.
  intros Hp. unfold translate_in. mred. by rewrite port_absent.
Qed.

Lemma touch_hit p a n now pub lo hi tmo h rs r :
  wf lo hi h rs → r ∈ rs → key_at h r = (lower p, a, n) →
  touch_by_internal lower p a n now (table pub lo hi tmo h rs)
  = (Ok true, table pub lo hi tmo (touched now h r) rs).
Proof.
  intros Hwf Hr Hk. unfold nat_table.touch_by_internal. mred.
  rewrite <- Hk, (key_lookup lo hi h rs r) by done. mred.
  rewrite (table_wf_lookup _ _ _ _ _ Hwf Hr). mred.
  fold (touched now h r). by rewrite table_touched.
Qed.

Lemma touch_miss p a n now pub lo hi tmo h rs :
  (lower p, a, n) ∉ key_at h <$> rs →
  touch_by_internal lower p a n now (table pub lo hi tmo h rs)
  = (Ok false, table pub lo hi tmo h rs).
Proof.
  intros Hk. unfold nat_table.touch_by_internal. mred. by rewrite key_absent.
Qed.

Lemma release_hit p a n pub lo hi tmo h pre r post :
  wf lo hi h (pre ++ r :: post) → key_at h r = (lower p, a, n) →
  release lower p a n (table pub lo hi tmo h (pre ++ r :: post))
  = (Ok true, table pub lo hi tmo h (pre ++ post)).
Proof.
  intros Hwf Hk. unfold nat_table.release. mred.
  assert (Hnk : NoDup (index key_of h (pre ++ r :: post)).*1)
    by (rewrite keys_key; apply Hwf).
  assert (Hnp : NoDup (index external_port h (pre ++ r :: post)).*1)
    by (rewrite keys_port; apply Hwf).
  rewrite <- Hk. unfold key_at. rewrite index_get_mid by done. mred.
  rewrite (table_wf_lookup _ _ _ _ r Hwf) by (apply elem_of_app; right; left).
  mred. unfold table. by rewrite !index_del_mid.
Qed.

Lemma release_miss p a n pub lo hi tmo h rs :
  (lower p, a, n) ∉ key_at h <$> rs →
  release lower p a n (table pub lo hi tmo h rs)
  = (Ok false, table pub lo hi tmo h rs).
Proof.
  intros Hk. unfold nat_table.release. mred. by rewrite key_absent.
Qed.

(** *** The idle sweep *)

Lemma to_remove_spec now s rs :
  Forall (λ r, (r < length (heap s))%nat) rs →
  to_remove now (index external_port (heap s) rs) s
  = (Ok (port_at (heap s) <$> filter (idle now (timeout s) (heap s)) rs), s).
Proof.
  induction 1 as [|r rs Hr _ IH]; [done|].
  cbn [index fmap list_fmap to_remove]. mred.
  rewrite (lookup_valid _ _ Hr).
  change ((λ r0, (external_port (heap s !!! r0), r0)) <$> rs)
    with (index external_port (heap s) rs).
  rewrite IH, filter_cons.
  destruct (decide (idle now (timeout s) (heap s) r)) as [He|He];
    unfold idle in He; rewrite Z.geb_leb;
    destruct (Z.leb_spec (timeout s) (now - last_seen (heap s !!! r)));
    try lia; done.
Qed.

Lemma evict_spec pub lo hi tmo di de h port r :
  dict_get port de = Some r → (r < length h)%nat →
  evict port (mkTable pub lo hi tmo di de h)
  = (Ok tt, mkTable pub lo hi tmo (dict_del (key_at h r) di)
              (dict_del port de) h).
Proof.
  intros Hg Hr. unfold evict, pop_ext. mred.
  rewrite Hg. mred. by rewrite (lookup_valid _ _ Hr).
Qed.

Lemma evict_loop now pub lo hi tmo h pre rs :
  Forall (λ r, (r < length h)%nat) rs →
  NoDup (index key_of h (pre ++ rs)).*1 →
  NoDup (index external_port h (pre ++ rs)).*1 →
  for_each (port_at h <$> filter (idle now tmo h) rs) evict
    (table pub lo hi tmo h (pre ++ rs))
  = (Ok tt, table pub lo hi tmo h (pre ++ filter (fresh now tmo h) rs)).
Proof using Type.
  clear lower.
  intros Hv. revert pre.
  induction Hv as [|r rs Hr _ IH]; intros pre Hk Hp; [done|].
  rewrite !filter_cons.
  destruct (decide (idle now tmo h r)) as [He|He].
  - rewrite decide_False by (unfold fresh; tauto).
    cbn [fmap list_fmap for_each].
    erewrite bind_ok; last first.
    { unfold table. apply evict_spec; [|exact Hr]. by apply index_get_mid. }
    cbv beta. change (port_at h r) with (external_port (h !!! r)).
    unfold key_at. rewrite !index_del_mid by done.
    apply index_keys_mid in Hk as [_ Hk], Hp as [_ Hp].
    by apply IH.
  - rewrite decide_True by done.
    rewrite (cons_middle r pre rs), (app_assoc pre [r]) in Hk, Hp |- *.
    rewrite (cons_middle r pre (filter _ rs)), !(app_assoc pre [r]).
    by apply IH.
Qed.

Lemma expire_table now pub lo hi tmo h rs :
  wf lo hi h rs →
  expire now (table pub lo hi tmo h rs)
  = (Ok (Z.of_nat (length (filter (idle now tmo h) rs))),
     table pub lo hi tmo h (filter (fresh now tmo h) rs)).
Proof.
  intros [Hv Hk Hp _]. unfold expire.
  rewrite bind_eq. cbn [gets]. rewrite bind_eq.
  change (_ext2int (table pub lo hi tmo h rs)) with
    (index external_port (heap (table pub lo hi tmo h rs)) rs).
  rewrite to_remove_spec by done.
  cbv beta iota. rewrite bind_eq. cbn [heap timeout table].
  pose proof (evict_loop now pub lo hi tmo h [] rs) as Hl. cbn [app] in Hl.
  rewrite Hl;
    [|done|by rewrite keys_key|by rewrite keys_port].
  cbn [ret]. by rewrite length_fmap.
Qed.

(** *** The shape of a table is kept *)

Lemma table_wf_sweep lo hi h rs (P : loc → Prop) `{!∀ r, Decision (P r)} :
  wf lo hi h rs → wf lo hi h (filter P rs).
Proof.
  intros [Hv Hk Hp Hr]. split.
  - apply Forall_forall. intros r [_ Hin]%list_elem_of_filter.
    by eapply Forall_forall in Hv.
  - eapply sublist_NoDup; [exact Hk|]. apply fmap_sublist, sublist_filter.
  - eapply sublist_NoDup; [exact Hp|]. apply fmap_sublist, sublist_filter.
  - apply Forall_forall.
    intros p (r & -> & [_ Hin]%list_elem_of_filter)%list_elem_of_fmap.
    eapply Forall_forall in Hr; [exact Hr|].
    apply list_elem_of_fmap. by exists r.
Qed.

Lemma keys_alloc h rs m :
  Forall (λ r, (r < length h)%nat) rs →
  key_at (h ++ [m]) <$> rs ++ [length h] = (key_at h <$> rs) ++ [key_of m].
Proof.
  intros Hv. rewrite <- !keys_key, index_app, fmap_app, index_alloc by done.
  cbn. by rewrite list_lookup_total_middle.
Qed.

Lemma ports_alloc h rs m :
  Forall (λ r, (r < length h)%nat) rs →
  port_at (h ++ [m]) <$> rs ++ [length h]
  = (port_at h <$> rs) ++ [external_port m].
Proof.
  intros Hv. rewrite <- !keys_port, index_app, fmap_app, index_alloc by done.
  cbn. by rewrite list_lookup_total_middle.
Qed.

Lemma table_wf_alloc lo hi h rs m :
  wf lo hi h rs → key_of m ∉ key_at h <$> rs →
  external_port m ∉ port_at h <$> rs →
  lo <= external_port m <= hi →
  wf lo hi (h ++ [m]) (rs ++ [length h]).
Proof.
  intros [Hv Hk Hp Hr] Hkm Hpm Hin. split.
  - apply Forall_app. split.
    + eapply Forall_impl; [exact Hv|]. intros r Hlt. cbv beta in *.
      rewrite length_app. lia.
    + apply Forall_singleton. rewrite length_app. cbn. lia.
  - rewrite keys_alloc by done. apply NoDup_app. split; [done|]. split.
    + by intros x Hx ->%list_elem_of_singleton.
    + apply NoDup_singleton.
  - rewrite ports_alloc by done. apply NoDup_app. split; [done|]. split.
    + by intros x Hx ->%list_elem_of_singleton.
    + apply NoDup_singleton.
  - rewrite ports_alloc by done. apply Forall_app. split; [done|].
    by apply Forall_singleton.
Qed.

Lemma table_wf_release lo hi h pre r post :
  wf lo hi h (pre ++ r :: post) → wf lo hi h (pre ++ post).
Proof.
  intros [Hv Hk Hp Hr]. split.
  - apply Forall_app in Hv as [H1 H2%Forall_cons_1]. apply Forall_app.
    tauto.
  - rewrite <- keys_key in *. by apply index_keys_mid in Hk as [_ Hk].
  - rewrite <- keys_port in *. by apply index_keys_mid in Hp as [_ Hp].
  - rewrite fmap_app in *. cbn in Hr.
    apply Forall_app in Hr as [H1 H2%Forall_cons_1]. apply Forall_app.
    tauto.
Qed.

(** *** The outcomes of each call *)

Lemma translate_out_cases p a n now pub lo hi tmo h rs :
  wf lo hi h rs →
  (∃ r, r ∈ rs ∧ key_at h r = (lower p, a, n) ∧
     translate_out lower p a n now (table pub lo hi tmo h rs)
     = (Ok (pub, port_at h r), table pub lo hi tmo (touched now h r) rs))
  ∨ (((lower p, a, n) ∉ key_at h <$> rs) ∧
     ∃ port, free_port lo hi h rs = Some port ∧
       translate_out lower p a n now (table pub lo hi tmo h rs)
       = (Ok (pub, port),
          table pub lo hi tmo (h ++ [fresh_mapping lower p a n port now])
            (rs ++ [length h])))
  ∨ (((lower p, a, n) ∉ key_at h <$> rs) ∧
     free_port lo hi h rs = None ∧
     translate_out lower p a n now (table pub lo hi tmo h rs)
     = (Raise (RuntimeError "No free NAT ports available"),
        table pub lo hi tmo h rs)).
Proof.
  intros Hwf.
  destruct (decide ((lower p, a, n) ∈ key_at h <$> rs)) as [Hin|Hout].
  - left. apply list_elem_of_fmap in Hin as (r & Hk & Hr). exists r.
    split; [done|]. split; [done|]. by apply translate_out_hit.
  - right. destruct (free_port lo hi h rs) as [port|] eqn:Hf.
    + left. split; [done|]. exists port. split; [done|].
      by apply translate_out_miss.
    + right. split; [done|]. split; [done|]. by apply translate_out_full.
Qed.

Lemma wf_fresh_mapping p a n now lo hi h rs port :
  wf lo hi h rs → (lower p, a, n) ∉ key_at h <$> rs →
  free_port lo hi h rs = Some port →
  wf lo hi (h ++ [fresh_mapping lower p a n port now]) (rs ++ [length h]).
Proof.
  intros Hwf Hk (Hin & Hfree & _)%free_port_Some. by apply table_wf_alloc.
Qed.

Lemma step_table o pub lo hi tmo h rs :
  wf lo hi h rs →
  ∃ h' rs', step lower o (table pub lo hi tmo h rs)
    = table pub lo hi tmo h' rs' ∧
            wf lo hi h' rs'.
Proof.
  intros Hwf. destruct o as [p a n now|port t|p a n now|p a n|now];
    cbn [nat_table.step].
  - destruct (translate_out_cases p a n now pub lo hi tmo h rs Hwf)
      as [(r & Hr & Hk & ->)|[(Hk & port & Hf & ->)|(Hk & Hf & ->)]];
      cbn [snd]; eexists _, _; (split; [done|]).
    + by apply wf_touched.
    + by apply wf_fresh_mapping.
    + done.
  - destruct (decide (port ∈ port_at h <$> rs)) as [Hin|Hout].
    + apply list_elem_of_fmap in Hin as (r & -> & Hr).
      rewrite (translate_in_hit _ t pub lo hi tmo h rs r) by done.
      cbn [snd]. eexists _, _. split; [done|].
      destruct t; [by apply wf_touched|done].
    + rewrite translate_in_miss by done. by eexists _, _.
  - destruct (decide ((lower p, a, n) ∈ key_at h <$> rs)) as [Hin|Hout].
    + apply list_elem_of_fmap in Hin as (r & Hk & Hr).
      rewrite (touch_hit p a n now pub lo hi tmo h rs r) by done.
      cbn [snd]. eexists _, _. split; [done|]. by apply wf_touched.
    + rewrite touch_miss by done. by eexists _, _.
  - destruct (decide ((lower p, a, n) ∈ key_at h <$> rs)) as [Hin|Hout].
    + apply list_elem_of_fmap in Hin as (r & Hk & Hr).
      apply list_elem_of_split in Hr as (pre & post & ->).
      rewrite release_hit by done.
      cbn [snd]. eexists _, _. split; [done|]. by eapply table_wf_release.
    + rewrite release_miss by done. by eexists _, _.
  - rewrite expire_table by done. cbn [snd].
    eexists _, _. split; [done|]. by apply table_wf_sweep.
Qed.

Lemma run_table ops pub lo hi tmo : ∀ h rs,
  wf lo hi h rs →
  ∃ h' rs', run lower ops (table pub lo hi tmo h rs)
    = table pub lo hi tmo h' rs' ∧
            wf lo hi h' rs'.
Proof.
  induction ops as [|o ops IH]; intros h rs Hwf.
  - by exists h, rs.
  - destruct (step_table o pub lo hi tmo h rs Hwf) as (h1 & rs1 & Hs & Hwf1).
    destruct (IH h1 rs1 Hwf1) as (h2 & rs2 & Hr & Hwf2).
    exists h2, rs2. cbn [nat_table.run foldl]. rewrite Hs.
    by fold (run lower ops).
Qed.

Lemma init_table pub range tmo s0 :
  __init__ pub range tmo = Ok s0 →
  s0 = table pub range.1 range.2 tmo [] [] ∧
  1 <= range.1 < range.2 ∧ range.2 <= 65535.
Proof.
  destruct range as [lo hi]. unfold __init__. case_decide; [|done].
  intros [= <-]. cbn. split; [done|]. lia.
Qed.

Lemma wf_empty lo hi : wf lo hi [] [].
Proof. split; cbn; by constructor. Qed.

Lemma init_table_inv pub range tmo s0 :
  __init__ pub range tmo = Ok s0 → inv s0.
Proof. intros [-> _]%init_table. apply table_wf_inv, wf_empty. Qed.

Lemma table_inv_run ops s : inv s → inv (run lower ops s).
Proof.
  intros (h & rs & -> & Hwf)%inv_table.
  destruct (run_table ops (public_ip s) (pmin s) (pmax s) (timeout s) h rs Hwf)
    as (h' & rs' & -> & Hwf'). by apply table_wf_inv.
Qed.

(** *** Reading a mapping *)

Lemma mappings_table pub lo hi tmo h rs :
  wf lo hi h rs → mappings (table pub lo hi tmo h rs) = (h !!!.) <$> rs.
Proof.
  intros [Hv _ _ _]. unfold mappings. cbn [table _ext2int heap].
  induction Hv as [|r rs Hr _ IH]; [done|].
  cbn. rewrite (lookup_valid _ _ Hr). cbn. f_equal. exact IH.
Qed.

Lemma ports_table pub lo hi tmo h rs :
  ports (table pub lo hi tmo h rs) = port_at h <$> rs.
Proof. apply keys_port. Qed.

Lemma mapping_of_table pub lo hi tmo h rs r :
  wf lo hi h rs → r ∈ rs →
  mapping_of (key_at h r) (table pub lo hi tmo h rs) = Some (h !!! r).
Proof.
  intros Hwf Hr. unfold mapping_of. cbn [table _int2ext heap].
  rewrite (key_lookup lo hi h rs r) by done. by eapply table_wf_lookup.
Qed.

Lemma owner_of_table pub lo hi tmo h rs r :
  wf lo hi h rs → r ∈ rs →
  owner_of (port_at h r) (table pub lo hi tmo h rs) = Some (h !!! r).
Proof.
  intros Hwf Hr. unfold owner_of. cbn [table _ext2int heap].
  rewrite (port_lookup lo hi h rs r) by done. by eapply table_wf_lookup.
Qed.

Lemma mapping_of_None pub lo hi tmo h rs k :
  k ∉ key_at h <$> rs → mapping_of k (table pub lo hi tmo h rs) = None.
Proof.
  intros Hk. unfold mapping_of. cbn [table _int2ext].
  by rewrite key_absent.
Qed.

Lemma owner_of_None pub lo hi tmo h rs port :
  port ∉ port_at h <$> rs → owner_of port (table pub lo hi tmo h rs) = None.
Proof.
  intros Hk. unfold owner_of. cbn [table _ext2int].
  by rewrite port_absent.
Qed.

Lemma mapping_of_Some pub lo hi tmo h rs k m :
  wf lo hi h rs → mapping_of k (table pub lo hi tmo h rs) = Some m →
  ∃ r, r ∈ rs ∧ key_at h r = k ∧ h !!! r = m.
Proof.
  intros Hwf. destruct (decide (k ∈ key_at h <$> rs)) as [Hin|Hout].
  - apply list_elem_of_fmap in Hin as (r & -> & Hr).
    rewrite (mapping_of_table pub lo hi tmo _ _ _ Hwf Hr).
    intros [= <-]. by exists r.
  - by rewrite mapping_of_None.
Qed.

Lemma owner_of_Some pub lo hi tmo h rs port m :
  wf lo hi h rs → owner_of port (table pub lo hi tmo h rs) = Some m →
  ∃ r, r ∈ rs ∧ port_at h r = port ∧ h !!! r = m.
Proof.
  intros Hwf. destruct (decide (port ∈ port_at h <$> rs)) as [Hin|Hout].
  - apply list_elem_of_fmap in Hin as (r & -> & Hr).
    rewrite (owner_of_table pub lo hi tmo _ _ _ Hwf Hr).
    intros [= <-]. by exists r.
  - by rewrite owner_of_None.
Qed.

(** *** Specified properties of the translation table *)

(** C9. After any sequence of calls on a table the constructor built,
    the live mappings have pairwise different keys and pairwise
    different external ports, a mapping is found under its key exactly
    when it is found under its port, what either index returns is a
    live mapping filed under its own field, and every external port
    lies in the configured range. *)
Theorem C9_table_invariants pub range tmo s0 ops :
  __init__ pub range tmo = Ok s0 →
  let s := run lower ops s0 in
  NoDup (key_of <$> mappings s) ∧
  NoDup (external_port <$> mappings s) ∧
  (∀ m, mapping_of (key_of m) s = Some m
        ↔ owner_of (external_port m) s = Some m) ∧
  (∀ k m, mapping_of k s = Some m → m ∈ mappings s ∧ key_of m = k) ∧
  (∀ p m, owner_of p s = Some m → m ∈ mappings s ∧ external_port m = p) ∧
  Forall (λ m, range.1 <= external_port m <= range.2) (mappings s).
Proof.
  intros (-> & _)%init_table s. subst s.
  destruct (run_table ops pub range.1 range.2 tmo [] [] (wf_empty _ _))
    as (h & rs & -> & Hwf).
  rewrite mappings_table by done. rewrite <- !list_fmap_compose.
  split; [apply Hwf|]. split; [apply Hwf|]. split; [|split; [|split]].
  - intros m. split.
    + intros (r & Hr & _ & <-)%mapping_of_Some; [|done].
      by apply (owner_of_table pub _ _ tmo _ _ _ Hwf).
    + intros (r & Hr & _ & <-)%owner_of_Some; [|done].
      by apply (mapping_of_table pub _ _ tmo _ _ _ Hwf).
  - intros k m (r & Hr & <- & <-)%mapping_of_Some; [|done].
    split; [|done]. apply list_elem_of_fmap. by exists r.
  - intros p m (r & Hr & <- & <-)%owner_of_Some; [|done].
    split; [|done]. apply list_elem_of_fmap. by exists r.
  - pose proof (wf_range _ _ _ _ Hwf) as Hrange.
    apply Forall_forall. intros m (r & -> & Hr)%list_elem_of_fmap.
    eapply Forall_forall in Hrange; [exact Hrange|].
    apply list_elem_of_fmap. by exists r.
Qed.

Lemma touched_fields now h r0 r :
  key_at (touched now h r0) r = key_at h r ∧
  port_at (touched now h r0) r = port_at h r.
Proof.
  unfold key_at, port_at, touched.
  destruct (decide (r0 = r)) as [<-|Hne].
  - destruct (decide (r0 < length h)%nat).
    + by rewrite list_lookup_total_insert_eq.
    + by rewrite list_insert_ge by lia.
  - by rewrite list_lookup_total_insert_ne.
Qed.

Lemma quiet_step o pub lo hi tmo h rs r :
  wf lo hi h rs → r ∈ rs → quiet o →
  ∃ h' rs', step lower o (table pub lo hi tmo h rs)
    = table pub lo hi tmo h' rs' ∧
            wf lo hi h' rs' ∧ r ∈ rs' ∧
            key_at h' r = key_at h r ∧ port_at h' r = port_at h r.
Proof.
  intros Hwf Hr Hq.
  destruct o as [p a n now|port t|p a n now|p a n|now]; cbn [nat_table.step];
    try done.
  - destruct (translate_out_cases p a n now pub lo hi tmo h rs Hwf)
      as [(r0 & Hr0 & Hk & ->)|[(Hk & port & Hf & ->)|(Hk & Hf & ->)]];
      cbn [snd]; eexists _, _; (split; [done|]).
    + split; [by apply wf_touched|]. split; [done|]. apply touched_fields.
    + split; [by apply wf_fresh_mapping|].
      split; [apply elem_of_app; by left|].
      assert ((r < length h)%nat).
      { destruct Hwf as [Hv _ _ _]. by eapply Forall_forall in Hv. }
      unfold key_at, port_at. by rewrite lookup_total_app_l.
    + done.
  - destruct (decide (port ∈ port_at h <$> rs)) as [Hin|Hout].
    + apply list_elem_of_fmap in Hin as (r0 & -> & Hr0).
      rewrite (translate_in_hit _ t pub lo hi tmo h rs r0) by done.
      cbn [snd]. eexists _, _. split; [done|].
      destruct t; cbn [seen]; [|done].
      split; [by apply wf_touched|]. split; [done|]. apply touched_fields.
    + rewrite translate_in_miss by done. by eexists _, _.
  - destruct (decide ((lower p, a, n) ∈ key_at h <$> rs)) as [Hin|Hout].
    + apply list_elem_of_fmap in Hin as (r0 & Hk & Hr0).
      rewrite (touch_hit p a n now pub lo hi tmo h rs r0) by done.
      cbn [snd]. eexists _, _. split; [done|].
      split; [by apply wf_touched|]. split; [done|]. apply touched_fields.
    + rewrite touch_miss by done. by eexists _, _.
Qed.

Lemma quiet_run ops pub lo hi tmo : ∀ h rs r,
  wf lo hi h rs → r ∈ rs → Forall quiet ops →
  ∃ h' rs', run lower ops (table pub lo hi tmo h rs)
    = table pub lo hi tmo h' rs' ∧
            wf lo hi h' rs' ∧ r ∈ rs' ∧
            key_at h' r = key_at h r ∧ port_at h' r = port_at h r.
Proof.
  induction ops as [|o ops IH]; intros h rs r Hwf Hr Hq.
  - by exists h, rs.
  - apply Forall_cons in Hq as [Hqo Hq].
    destruct (quiet_step o pub lo hi tmo h rs r Hwf Hr Hqo)
      as (h1 & rs1 & Hs & Hwf1 & Hr1 & Hk1 & Hp1).
    destruct (IH h1 rs1 r Hwf1 Hr1 Hq)
      as (h2 & rs2 & Hrun & Hwf2 & Hr2 & Hk2 & Hp2).
    exists h2, rs2. cbn [nat_table.run foldl]. rewrite Hs.
    fold (run lower ops).
    split; [done|]. split; [done|]. split; [done|]. split; congruence.
Qed.

Lemma translate_out_new s p a n now pub port s1 :
  inv s → mapping_of (lower p, a, n) s = None →
  translate_out lower p a n now s = (Ok (pub, port), s1) →
  ∃ h rs r,
    s1 = table (public_ip s) (pmin s) (pmax s) (timeout s) h rs ∧
    wf (pmin s) (pmax s) h rs ∧ r ∈ rs ∧
    h !!! r = fresh_mapping lower p a n port now ∧ pub = public_ip s.
Proof.
  intros (h & rs & Hs & Hwf)%inv_table.
  set (lo := pmin s) in *. set (hi := pmax s) in *.
  set (tmo := timeout s) in *. set (pb := public_ip s) in *.
  rewrite Hs. clearbody lo hi tmo pb. clear Hs. intros Hnone.
  destruct (translate_out_cases p a n now pb lo hi tmo h rs Hwf)
    as [(r & Hr & Hk & _)|[(Hk & port' & Hf & ->)|(Hk & Hf & ->)]].
  - rewrite <- Hk, (mapping_of_table pb lo hi tmo h rs r) in Hnone; done.
  - intros [= <- <- <-].
    exists (h ++ [fresh_mapping lower p a n port' now]), (rs ++ [length h]),
      (length h).
    split; [done|]. split; [by apply wf_fresh_mapping|].
    split; [apply elem_of_app; right; left|].
    split; [|done]. by rewrite list_lookup_total_middle.
  - done.
Qed.

(** C4, as the code has it.  When an outbound translation creates a
    mapping and returns port [p], then after any further calls other
    than [release] and [expire] an inbound lookup of [p] returns the
    tuple with [str.lower] applied to its protocol; it is the tuple as
    passed when [str.lower] leaves the protocol as it is. *)
Theorem C4_inbound_returns_normalised_tuple s proto ip port now pub p s1
    ops (at_ : option Z) :
  inv s → mapping_of (lower proto, ip, port) s = None →
  translate_out lower proto ip port now s = (Ok (pub, p), s1) →
  Forall quiet ops →
  (∃ s2, translate_in p at_ (run lower ops s1)
         = (Ok (Some (lower proto, ip, port)), s2)) ∧
  (lower proto = proto →
   ∃ s2, translate_in p at_ (run lower ops s1)
     = (Ok (Some (proto, ip, port)), s2)).
Proof.
  intros Hinv Hnone Hout Hq.
  destruct (translate_out_new s proto ip port now pub p s1 Hinv Hnone Hout)
    as (h & rs & r & -> & Hwf & Hr & Hm & _).
  destruct (quiet_run ops (public_ip s) (pmin s) (pmax s) (timeout s)
              h rs r Hwf Hr Hq)
    as (h' & rs' & -> & Hwf' & Hr' & Hk & Hp).
  assert (Hin : ∃ s2, translate_in p at_
                   (table (public_ip s) (pmin s) (pmax s) (timeout s) h' rs')
                 = (Ok (Some (lower proto, ip, port)), s2)).
  { eexists. rewrite (translate_in_hit p at_ _ _ _ _ h' rs' r); try done.
    - rewrite Hk. unfold key_at. by rewrite Hm.
    - rewrite Hp. unfold port_at. by rewrite Hm. }
  split; [done|]. by intros <-.
Qed.

(** *** Filling the range *)

Lemma free_port_next lo hi h rs c :
  port_at h <$> rs = range lo c → lo <= c <= hi →
  free_port lo hi h rs = Some c.
Proof.
  intros Hports Hc. destruct (free_port lo hi h rs) as [p|] eqn:Hf.
  - apply free_port_Some in Hf as (Hp & Hfree & Hlow).
    rewrite Hports in Hfree, Hlow. rewrite elem_of_range in Hfree.
    destruct (decide (p = c)) as [->|Hne]; [done|].
    assert (Hlt : c < p) by lia.
    specialize (Hlow c ltac:(lia)). apply elem_of_range in Hlow. lia.
  - pose proof (free_port_None _ _ _ _ Hf c Hc) as Hin.
    rewrite Hports in Hin. apply elem_of_range in Hin. lia.
Qed.

Lemma free_port_full lo hi h rs :
  port_at h <$> rs = range lo (hi + 1) → free_port lo hi h rs = None.
Proof.
  intros Hports. destruct (free_port lo hi h rs) as [p|] eqn:Hf; [|done].
  apply free_port_Some in Hf as (Hp & Hfree & _).
  destruct Hfree. rewrite Hports. apply elem_of_range. lia.
Qed.

Lemma objs_alloc h rs m :
  Forall (λ r, (r < length h)%nat) rs →
  ((h ++ [m]) !!!.) <$> rs ++ [length h] = ((h !!!.) <$> rs) ++ [m].
Proof.
  intros Hv. rewrite fmap_app. cbn. rewrite list_lookup_total_middle by done.
  f_equal. apply Forall_fmap_ext_1. eapply Forall_impl; [exact Hv|].
  intros r Hr. cbv beta in *. by rewrite lookup_total_app_l.
Qed.

Lemma fill pub lo hi tmo reqs : ∀ h rs c,
  wf lo hi h rs → port_at h <$> rs = range lo c → lo <= c →
  c + Z.of_nat (length reqs) = hi + 1 →
  NoDup (key_for lower <$> reqs) →
  Forall (λ t, key_for lower t ∉ key_at h <$> rs) reqs →
  ∃ h' rs',
    translate_all lower reqs (table pub lo hi tmo h rs)
    = (Ok <$> ((pub,.) <$> range c (hi + 1)), table pub lo hi tmo h' rs') ∧
    wf lo hi h' rs' ∧
    port_at h' <$> rs' = range lo (hi + 1) ∧
    key_at h' <$> rs' = (key_at h <$> rs) ++ (key_for lower <$> reqs) ∧
    (h' !!!.) <$> rs'
    = ((h !!!.) <$> rs) ++ zip_with (binding lower) reqs (range c (hi + 1)).
Proof.
  induction reqs as [|[[[p a] n] now] reqs IH];
    intros h rs c Hwf Hports Hlo Hlen Hnd Hfresh.
  - cbn [length] in Hlen. replace c with (hi + 1) in * by lia.
    rewrite range_nil by lia. exists h, rs. cbn.
    by rewrite !app_nil_r.
  - cbn [length] in Hlen. cbn [fmap list_fmap] in Hnd.
    apply NoDup_cons in Hnd as [Hk Hnd].
    apply Forall_cons in Hfresh as [Hkf Hfresh].
    assert (Hf : free_port lo hi h rs = Some c)
      by (apply free_port_next; [done|lia]).
    pose proof (wf_fresh_mapping p a n now _ _ _ _ _ Hwf Hkf Hf) as Hwf1.
    destruct (IH (h ++ [fresh_mapping lower p a n c now]) (rs ++ [length h])
                (c + 1)) as (h' & rs' & Hall & Hwf' & Hp' & Hk' & Hm');
      [done| |lia|lia|done| |].
    { rewrite ports_alloc by apply Hwf. rewrite Hports. cbn.
      by rewrite range_snoc. }
    { rewrite keys_alloc by apply Hwf.
      apply Forall_forall. intros t Ht.
      eapply Forall_forall in Hfresh; [|exact Ht].
      intros [Hin|Hin%list_elem_of_singleton]%elem_of_app; [done|].
      apply Hk. apply list_elem_of_fmap. exists t.
      split; [|done]. symmetry. exact Hin. }
    exists h', rs'. cbn [nat_table.translate_all].
    rewrite (translate_out_miss p a n now pub lo hi tmo h rs c) by done.
    rewrite Hall. rewrite (range_cons c (hi + 1)) by lia.
    split; [done|]. split; [done|]. split; [done|]. split.
    + rewrite Hk', keys_alloc by apply Hwf. cbn. by rewrite <- app_assoc.
    + rewrite Hm', objs_alloc by apply Hwf. cbn. by rewrite <- app_assoc.
Qed.

Lemma free_port_least lo hi h rs p :
  lo <= p <= hi → p ∉ port_at h <$> rs →
  (∀ p', lo <= p' < p → p' ∈ port_at h <$> rs) →
  free_port lo hi h rs = Some p.
Proof.
  intros Hp Hfree Hlow. destruct (free_port lo hi h rs) as [p0|] eqn:Hf.
  - apply free_port_Some in Hf as (Hp0 & Hfree0 & Hlow0).
    destruct (Z.lt_trichotomy p0 p) as [Hlt|[->|Hgt]]; [|done|].
    + destruct Hfree0. apply Hlow. lia.
    + destruct Hfree. apply Hlow0. lia.
  - destruct Hfree. by eapply free_port_None.
Qed.

(** C2, as the code has it.  For a tuple whose key has no mapping: the
    call returns the least port of the range that no mapping owns, and
    afterwards both the key and that port lead to the new mapping,
    which carries [now] as its last-seen time; the call raises exactly
    when every port of the range is owned.  On a new table with a
    range of [N] ports, [N] tuples whose keys differ (the protocol
    taken after [str.lower]) get the ports of the range in ascending
    order, and a further tuple with yet another key raises and leaves
    the table, with its [N] mappings, as it was.  Tuples that differ
    only in what [str.lower] erases share a key, and do not count as
    different here. *)
Theorem C2_outbound_allocation :
  (∀ s proto ip port now,
     inv s → mapping_of (lower proto, ip, port) s = None →
     (∀ p, pmin s <= p <= pmax s → p ∉ ports s →
           (∀ p', pmin s <= p' < p → p' ∈ ports s) →
           ∃ s', translate_out lower proto ip port now s
                 = (Ok (public_ip s, p), s') ∧
                 mapping_of (lower proto, ip, port) s'
                 = Some (mkMapping (lower proto) ip port p now) ∧
                 owner_of p s'
                 = Some (mkMapping (lower proto) ip port p now)) ∧
     ((∃ s', translate_out lower proto ip port now s
             = (Raise (RuntimeError "No free NAT ports available"), s'))
      ↔ ∀ p, pmin s <= p <= pmax s → p ∈ ports s)) ∧
  (∀ pub lo hi tmo s0 reqs extra,
     __init__ pub (lo, hi) tmo = Ok s0 →
     Z.of_nat (length reqs) = hi - lo + 1 →
     NoDup (key_for lower <$> reqs ++ [extra]) →
     ∃ sN, translate_all lower reqs s0
           = (Ok <$> ((pub,.) <$> range lo (hi + 1)), sN) ∧
           mappings sN = zip_with (binding lower) reqs (range lo (hi + 1)) ∧
           translate_out lower extra.1.1.1 extra.1.1.2 extra.1.2 extra.2 sN
           = (Raise (RuntimeError "No free NAT ports available"), sN)).
Proof.
  split.
  - intros s proto ip port now (h & rs & Hs & Hwf)%inv_table.
    set (lo := pmin s) in *. set (hi := pmax s) in *.
    set (tmo := timeout s) in *. set (pb := public_ip s) in *.
    rewrite Hs. clearbody lo hi tmo pb. clear Hs. intros Hnone.
    rewrite ports_table.
    assert (Hk : (lower proto, ip, port) ∉ key_at h <$> rs).
    { intros (r & Hk & Hr)%list_elem_of_fmap.
      rewrite Hk, (mapping_of_table pb lo hi tmo h rs r) in Hnone; done. }
    split.
    + intros p Hp Hfree Hlow.
      pose proof (free_port_least _ _ _ _ _ Hp Hfree Hlow) as Hf.
      pose proof (wf_fresh_mapping proto ip port now _ _ _ _ _ Hwf Hk Hf)
        as Hwf1.
      eexists. rewrite (translate_out_miss _ _ _ _ _ _ _ _ _ _ p) by done.
      split; [done|].
      assert (Hin : length h ∈ rs ++ [length h])
        by (apply elem_of_app; right; left).
      pose proof (mapping_of_table pb lo hi tmo _ _ _ Hwf1 Hin) as H1.
      pose proof (owner_of_table pb lo hi tmo _ _ _ Hwf1 Hin) as H2.
      unfold key_at in H1. unfold port_at in H2.
      rewrite list_lookup_total_middle in H1, H2 by done. done.
    + split.
      * intros [s' Hraise].
        destruct (translate_out_cases proto ip port now pb lo hi tmo h rs Hwf)
          as [(r & Hr & Hkr & Heq)|[(_ & p & Hf & Heq)|(_ & Hf & Heq)]];
          rewrite Heq in Hraise; try done.
        by apply free_port_None.
      * intros Hall.
        destruct (free_port lo hi h rs) as [p|] eqn:Hf.
        -- apply free_port_Some in Hf as (Hp & Hfree & _).
           destruct Hfree. by apply Hall.
        -- eexists. by apply translate_out_full.
  - intros pub lo hi tmo s0 reqs extra (-> & Hrange)%init_table Hlen Hnd.
    cbn [fst snd] in *. rewrite fmap_app in Hnd.
    apply NoDup_app in Hnd as (Hnd & Hdis & _).
    destruct (fill pub lo hi tmo reqs [] [] lo (wf_empty _ _))
      as (h & rs & Hall & Hwf & Hports & Hkeys & Hobjs);
      [by rewrite range_nil by lia|lia|lia|done| |].
    { apply Forall_forall. intros t _. cbn. apply not_elem_of_nil. }
    exists (table pub lo hi tmo h rs). split; [done|].
    rewrite mappings_table by done. split; [done|].
    apply translate_out_full; [|by apply free_port_full].
    rewrite Hkeys. cbn. intros Hin. apply (Hdis _ Hin). cbn. left.
Qed.

(** *** Exhaustion and expiry *)

Lemma translate_out_raise s p a n now e s' :
  translate_out lower p a n now s = (Raise e, s') → s' = s.
Proof.
  unfold nat_table.translate_out. mred.
  destruct (dict_get _ (_int2ext s)) as [r|].
  - mred. destruct (heap s !! r) as [m|] eqn:Hm; [|by intros [= _ <-]].
    mred. rewrite list_lookup_insert_eq by (by eapply lookup_lt_Some).
    done.
  - unfold _alloc_port. mred. destruct (find _ _); [done|].
    by intros [= _ <-].
Qed.

Lemma translate_out_raise_kind s p a n now e s' :
  inv s → translate_out lower p a n now s = (Raise e, s') →
  e = RuntimeError "No free NAT ports available".
Proof.
  intros (h & rs & -> & Hwf)%inv_table.
  destruct (translate_out_cases p a n now (public_ip s) (pmin s) (pmax s)
              (timeout s) h rs Hwf)
    as [(r & _ & _ & ->)|[(_ & port & _ & ->)|(_ & _ & ->)]]; try done.
  by intros [= <- _].
Qed.

Lemma table_expire_sweep s now :
  inv s →
  ∃ s', expire now s
        = (Ok (Z.of_nat (length
                 (filter (λ m, now - last_seen m >= timeout s) (mappings s)))),
           s') ∧
        inv s' ∧
        mappings s'
        = filter (λ m, ¬ now - last_seen m >= timeout s) (mappings s) ∧
        (∀ m, m ∈ mappings s → now - last_seen m >= timeout s →
           (external_port m ∉ ports s') ∧
           owner_of (external_port m) s' = None ∧
           mapping_of (key_of m) s' = None) ∧
        expire now s' = (Ok 0, s').
Proof.
  intros (h & rs & Hs & Hwf)%inv_table.
  set (lo := pmin s) in *. set (hi := pmax s) in *.
  set (tmo := timeout s) in *. set (pb := public_ip s) in *.
  rewrite Hs. clearbody lo hi tmo pb. clear Hs.
  pose proof (table_wf_sweep _ _ _ _ (fresh now tmo h) Hwf) as Hwf1.
  eexists. rewrite expire_table by done.
  rewrite !mappings_table by done. cbn [table timeout].
  split; [|split; [by apply table_wf_inv|split; [|split]]].
  - by rewrite filter_fmap, length_fmap.
  - by rewrite filter_fmap.
  - intros m (r & -> & Hr)%list_elem_of_fmap Hidle.
    assert (Hp : external_port (h !!! r)
                 ∉ port_at h <$> filter (fresh now tmo h) rs).
    { intros (r' & Heq & [Hf Hr']%list_elem_of_filter)%list_elem_of_fmap.
      assert (r = r') as <- by by apply (port_unique lo hi h rs).
      by apply Hf. }
    rewrite ports_table. split; [done|].
    split; [by apply owner_of_None|]. apply mapping_of_None.
    intros (r' & Heq & [Hf Hr']%list_elem_of_filter)%list_elem_of_fmap.
    assert (r = r') as <- by by apply (key_unique lo hi h rs).
    by apply Hf.
  - rewrite expire_table by done.
    destruct (filter_all_complement (idle now tmo h)
                (filter (fresh now tmo h) rs)) as [-> Hsame].
    { apply Forall_forall. by intros r [? _]%list_elem_of_filter. }
    unfold fresh at 1. by rewrite Hsame.
Qed.
End normalisation.
End nat_facts.

(** ** Properties specified for both components *)

(** C5. A [request] that raises leaves the pool as it found it, and the
    exception is the one for an empty queue; a [translate_out] that raises
    leaves the table as it found it, and on a consistent table the
    exception is the one for a full port range, whatever [str.lower]
    makes of the protocol. *)
Theorem C5_exhaustion_has_no_side_effect :
  (∀ s cid now e s',
     lease_pool.inv s → lease_pool.request cid now s = (Raise e, s') →
     s' = s ∧ e = RuntimeError "No available IPs") ∧
  (∀ lower s proto ip port now e s',
     nat_table.translate_out lower proto ip port now s = (Raise e, s') →
     s' = s ∧
     (nat_table.inv s → e = RuntimeError "No free NAT ports available")).
Proof.
  split.
  - intros s cid now e s' Hinv Hreq. by eapply pool_facts.request_raise.
  - intros lower s proto ip port now e s' Hout. split.
    + by eapply nat_facts.translate_out_raise.
    + intros Hinv. by eapply nat_facts.translate_out_raise_kind.
Qed.

(** C7. [expire now] on a pool returns the number of leases whose expiry
    is [now] or earlier, keeps exactly the other leases, and puts the
    address of each removed lease in the queue and out of the leased set;
    on a table it returns the number of mappings last seen [timeout] or
    more before [now], keeps exactly the others, and leaves the port and
    the key of each removed mapping unowned.  In both, the same call
    made again returns 0 and changes nothing. *)
Theorem C7_expire_counts_and_frees :
  (∀ s now,
     lease_pool.inv s →
     ∃ s', lease_pool.expire now s
           = (Ok (Z.of_nat (length (filter (λ L, lease_pool.expiry L <= now)
                                      (lease_pool.leases s)))), s') ∧
           lease_pool.inv s' ∧
           lease_pool.leases s'
           = filter (λ L, ¬ lease_pool.expiry L <= now) (lease_pool.leases s) ∧
           (∀ L, L ∈ lease_pool.leases s → lease_pool.expiry L <= now →
              lease_pool.ip L ∈ lease_pool._available s' ∧
              (lease_pool.ip L ∉ lease_pool.leased s') ∧
              lease_pool.lease_of (lease_pool.client_id L) s' = None) ∧
           lease_pool.expire now s' = (Ok 0, s')) ∧
  (∀ s now,
     nat_table.inv s →
     ∃ s', nat_table.expire now s
           = (Ok (Z.of_nat (length
                    (filter (λ m, now - nat_table.last_seen m
                                  >= nat_table.timeout s)
                       (nat_table.mappings s)))), s') ∧
           nat_table.inv s' ∧
           nat_table.mappings s'
           = filter (λ m, ¬ now - nat_table.last_seen m >= nat_table.timeout s)
               (nat_table.mappings s) ∧
           (∀ m, m ∈ nat_table.mappings s →
              now - nat_table.last_seen m >= nat_table.timeout s →
              (nat_table.external_port m ∉ nat_table.ports s') ∧
              nat_table.owner_of (nat_table.external_port m) s' = None ∧
              nat_table.mapping_of (nat_table.key_of m) s' = None) ∧
           nat_table.expire now s' = (Ok 0, s')).
Proof.
  split.
  - intros s now Hinv. by apply pool_facts.expire_sweep.
  - intros s now Hinv. by apply nat_facts.table_expire_sweep.
Qed.

(** ** The properties at concrete inputs

    The table is evaluated with [lower_ascii] for [str.lower]; every
    protocol string below is ASCII, where the two agree. *)

(** C3 on 10.0.0.0/29 with a term of 100: a request at 0, then one at 50. *)
Lemma C3_witness :
  let s := lease_pool.__init__ (167772160, 29) 100 [] in
  let s1 := (lease_pool.request "clientA" 0 s).2 in
  let L := lease_pool.mkLease "clientA" 167772162 100 in
  0 <= 50 ∧ 50 < lease_pool.expiry L ∧
  lease_pool.ip L = 167772162 ∧
  ∃ s2, lease_pool.request "clientA" 50 s1 = (Ok 167772162, s2) ∧
        lease_pool.lease_of "clientA" s2 = Some L.
Proof.
  intros s s1 L. split; [lia|]. split; [simpl; lia|].
  apply (pool_facts.C3_request_idempotent s "clientA" 0 50 167772162 s1 L).
  - apply pool_facts.init_inv.
  - vm_compute. reflexivity.
  - vm_compute. reflexivity.
  - lia.
  - simpl. lia.
Defined.

(** C8 on the same pool: the lease made at 0 is renewed at 50. *)
Lemma C8_witness :
  let s := lease_pool.run [lease_pool.Request "clientA" 0]
             (lease_pool.__init__ (167772160, 29) 100 []) in
  let L := lease_pool.mkLease "clientA" 167772162 100 in
  (∃ s', lease_pool.renew "clientA" 50 s = (Ok 167772162, s') ∧
         lease_pool.lease_of "clientA" s'
         = Some (lease_pool.mkLease "clientA" 167772162 150)) ∧
  lease_pool.lease_seconds s = 100 ∧ lease_pool.expiry L <= 50 + 100.
Proof.
  intros s L.
  destruct (pool_facts.C8_renew_extends s "clientA" 50 L) as [H1 H2].
  - apply pool_facts.inv_run, pool_facts.init_inv.
  - vm_compute. reflexivity.
  - simpl. lia.
  - split; [exact H1|].
    apply (H2 (167772160, 29) 100 [] 0 [lease_pool.Request "clientA" 0]).
    + reflexivity.
    + simpl. lia.
    + simpl. lia.
Defined.

(** C6 on the same pool: three clients take .2, .3 and .4; the second and
    the first release; four requests then get .5, .6, .3 and .2. *)
Lemma C6_witness :
  let s := lease_pool.run
             [lease_pool.Request "a" 0; lease_pool.Request "b" 0;
              lease_pool.Request "c" 0]
             (lease_pool.__init__ (167772160, 29) 100 []) in
  let s1 := lease_pool.run [lease_pool.Release "b"; lease_pool.Release "a"] s in
  lease_pool._available s1
  = [167772165; 167772166; 167772163; 167772162] ∧
  lease_pool.request_all [("x", 1); ("y", 2); ("a", 3); ("z", 4)] s1
  = [Ok 167772165; Ok 167772166; Ok 167772163; Ok 167772162].
Proof.
  intros s s1.
  destruct (pool_facts.C6_fifo_reuse s ["b"; "a"] [167772163; 167772162]
              [("x", 1); ("y", 2); ("a", 3); ("z", 4)])
    as (H1 & _ & _ & H4).
  - apply pool_facts.inv_run, pool_facts.init_inv.
  - compute_done.
  - vm_compute. reflexivity.
  - compute_done.
  - repeat constructor.
  - vm_compute. lia.
  - split; [exact H1|exact H4].
Defined.

(** C5 on 10.0.0.0/30, whose one address is taken, and on a table whose
    two ports are taken. *)
Lemma C5_witness :
  let s := (lease_pool.request "c1" 0
              (lease_pool.__init__ (167772160, 30) 10 [])).2 in
  let t := (nat_table.translate_all lower_ascii
              [("udp", "10.0.0.2", 1000, 0); ("udp", "10.0.0.3", 1001, 0)]
              (nat_table.table "198.51.100.7" 50000 50001 60 [] [])).2 in
  (lease_pool.request "c2" 1 s).1 = Raise (RuntimeError "No available IPs") ∧
  (lease_pool.request "c2" 1 s).2 = s ∧
  (nat_table.translate_out lower_ascii "udp" "10.0.0.4" 1002 0 t).1
  = Raise (RuntimeError "No free NAT ports available") ∧
  (nat_table.translate_out lower_ascii "udp" "10.0.0.4" 1002 0 t).2 = t.
Proof.
  intros s t. destruct C5_exhaustion_has_no_side_effect as [Hp Hn].
  split; [vm_compute; reflexivity|]. split.
  - apply (Hp s "c2" 1 (RuntimeError "No available IPs")
             (lease_pool.request "c2" 1 s).2).
    + apply (pool_facts.inv_run [lease_pool.Request "c1" 0]),
        pool_facts.init_inv.
    + vm_compute. reflexivity.
  - split; [vm_compute; reflexivity|].
    apply (Hn lower_ascii t "udp" "10.0.0.4" 1002 0
             (RuntimeError "No free NAT ports available")
             (nat_table.translate_out lower_ascii "udp" "10.0.0.4" 1002 0 t).2).
    vm_compute. reflexivity.
Defined.

(** C7 on a pool with one lease that ran out, and on a table with two
    mappings idle for longer than the timeout. *)
Lemma C7_witness :
  let s := lease_pool.run [lease_pool.Request "c1" 0]
             (lease_pool.__init__ (167772160, 30) 10 []) in
  let t := nat_table.run lower_ascii
             [nat_table.TranslateOut "tcp" "192.168.0.10" 12345 0;
              nat_table.TranslateOut "tcp" "192.168.0.11" 12346 1;
              nat_table.Touch "tcp" "192.168.0.10" 12345 10]
             (nat_table.table "203.0.113.5" 40000 40005 30 [] []) in
  (∃ s', lease_pool.expire 11 s = (Ok 1, s') ∧
         lease_pool.expire 11 s' = (Ok 0, s')) ∧
  (∃ t', nat_table.expire 100 t = (Ok 2, t') ∧
         nat_table.expire 100 t' = (Ok 0, t')).
Proof.
  intros s t. destruct C7_expire_counts_and_frees as [Hp Hn]. split.
  - destruct (Hp s 11) as (s' & H1 & _ & _ & _ & H2).
    + apply pool_facts.inv_run, pool_facts.init_inv.
    + exists s'. split; [exact H1|exact H2].
  - destruct (Hn t 100) as (t' & H1 & _ & _ & _ & H2).
    + apply nat_facts.table_inv_run, nat_facts.table_wf_inv, nat_facts.wf_empty.
    + exists t'. split; [exact H1|exact H2].
Defined.

(** C9 on a table that served translations, a touch, a release and a
    sweep. *)
Lemma C9_witness :
  let s := nat_table.run lower_ascii
             [nat_table.TranslateOut "tcp" "192.168.0.10" 12345 0;
              nat_table.TranslateOut "UDP" "192.168.0.11" 53 1;
              nat_table.TranslateIn 40001 (Some 2);
              nat_table.Release "TCP" "192.168.0.10" 12345;
              nat_table.TranslateOut "tcp" "192.168.0.12" 80 3;
              nat_table.Expire 32]
             (nat_table.table "203.0.113.5" 40000 40005 30 [] []) in
  NoDup (nat_table.key_of <$> nat_table.mappings s) ∧
  NoDup (nat_table.external_port <$> nat_table.mappings s) ∧
  Forall (λ m, 40000 <= nat_table.external_port m <= 40005)
    (nat_table.mappings s).
Proof.
  intros s.
  destruct (nat_facts.C9_table_invariants lower_ascii "203.0.113.5"
              (40000, 40005) 30
              (nat_table.table "203.0.113.5" 40000 40005 30 [] [])
              [nat_table.TranslateOut "tcp" "192.168.0.10" 12345 0;
               nat_table.TranslateOut "UDP" "192.168.0.11" 53 1;
               nat_table.TranslateIn 40001 (Some 2);
               nat_table.Release "TCP" "192.168.0.10" 12345;
               nat_table.TranslateOut "tcp" "192.168.0.12" 80 3;
               nat_table.Expire 32])
    as (H1 & H2 & _ & _ & _ & H6).
  - vm_compute. reflexivity.
  - split; [exact H1|]. split; [exact H2|exact H6].
Defined.

(** C4 at the protocol [TCP]: the inbound lookup returns [tcp].  The
    strings are ASCII, where [lower_ascii] is [str.lower]. *)
Lemma C4_counterexample :
  ¬ (∀ s proto ip port now pub p s1,
       nat_table.inv s →
       nat_table.mapping_of (lower_ascii proto, ip, port) s = None →
       nat_table.translate_out lower_ascii proto ip port now s
         = (Ok (pub, p), s1) →
       ∃ s2, nat_table.translate_in p None s1
             = (Ok (Some (proto, ip, port)), s2)).
Proof.
  intros H.
  destruct (H (nat_table.table "203.0.113.5" 40000 40005 30 [] [])
              "TCP" "192.168.0.10" 12345 0 "203.0.113.5" 40000
              (nat_table.translate_out lower_ascii "TCP" "192.168.0.10" 12345 0
                 (nat_table.table "203.0.113.5" 40000 40005 30 [] [])).2)
    as [s2 Hin].
  - apply nat_facts.table_wf_inv, nat_facts.wf_empty.
  - reflexivity.
  - vm_compute. reflexivity.
  - vm_compute in Hin. discriminate Hin.
Qed.

(** C4 as amended, at the protocols [TCP] and [tcp]. *)
Lemma C4_witness :
  let s := nat_table.table "203.0.113.5" 40000 40005 30 [] [] in
  let s1 := (nat_table.translate_out lower_ascii
               "TCP" "192.168.0.10" 12345 0 s).2 in
  let t1 := (nat_table.translate_out lower_ascii
               "tcp" "192.168.0.10" 12345 0 s).2 in
  let ops := [nat_table.TranslateOut "udp" "192.168.0.11" 53 1;
              nat_table.Touch "tcp" "192.168.0.10" 12345 2] in
  (∃ s2, nat_table.translate_in 40000 (Some 3)
           (nat_table.run lower_ascii ops s1)
         = (Ok (Some ("tcp", "192.168.0.10", 12345)), s2)) ∧
  (∃ s2, nat_table.translate_in 40000 None (nat_table.run lower_ascii ops t1)
         = (Ok (Some ("tcp", "192.168.0.10", 12345)), s2)).
Proof.
  intros s s1 t1 ops. split.
  - apply (nat_facts.C4_inbound_returns_normalised_tuple lower_ascii s "TCP"
             "192.168.0.10" 12345 0 "203.0.113.5" 40000 s1 ops (Some 3)).
    + apply nat_facts.table_wf_inv, nat_facts.wf_empty.
    + reflexivity.
    + vm_compute. reflexivity.
    + repeat constructor.
  - apply (nat_facts.C4_inbound_returns_normalised_tuple lower_ascii s "tcp"
             "192.168.0.10" 12345 0 "203.0.113.5" 40000 t1 ops None).
    + apply nat_facts.table_wf_inv, nat_facts.wf_empty.
    + reflexivity.
    + vm_compute. reflexivity.
    + repeat constructor.
    + reflexivity.
Defined.

(** C2 with tuples that are merely different.  On a new table with two
    ports, [TCP], [tcp] and [udp] from one address and port are three
    different tuples; the first two share a key and a port, and the third
    call returns the second port instead of raising.  The strings are
    ASCII, where [lower_ascii] is [str.lower]. *)
Lemma C2_counterexample :
  ¬ (∀ pub lo hi tmo s0 (reqs : list (string * string * Z * Z)) extra,
       nat_table.__init__ pub (lo, hi) tmo = Ok s0 →
       Z.of_nat (length reqs) = hi - lo + 1 →
       NoDup (fst <$> reqs ++ [extra]) →
       ∃ e s',
         nat_table.translate_out lower_ascii
           extra.1.1.1 extra.1.1.2 extra.1.2 extra.2
           (nat_table.translate_all lower_ascii reqs s0).2
         = (Raise e, s')).
Proof.
  intros H.
  destruct (H "203.0.113.5" 40000 40001 30
              (nat_table.table "203.0.113.5" 40000 40001 30 [] [])
              [("TCP", "192.168.0.10", 12345, 0);
               ("tcp", "192.168.0.10", 12345, 1)]
              ("udp", "192.168.0.10", 12345, 2))
    as (e & s' & Hout).
  - vm_compute. reflexivity.
  - reflexivity.
  - compute_done.
  - vm_compute in Hout. discriminate Hout.
Qed.

(** C2 as amended, on a table with port 40000 taken, and on a range of
    three ports asked for four bindings with different keys. *)
Lemma C2_witness :
  let s := (nat_table.translate_out lower_ascii "tcp" "192.168.0.10" 12345 0
              (nat_table.table "203.0.113.5" 40000 40005 30 [] [])).2 in
  (∃ s', nat_table.translate_out lower_ascii "UDP" "192.168.0.11" 53 7 s
         = (Ok ("203.0.113.5", 40001), s') ∧
         nat_table.owner_of 40001 s'
         = Some (nat_table.mkMapping "udp" "192.168.0.11" 53 40001 7)) ∧
  (∃ sN, nat_table.translate_all lower_ascii
           [("udp", "10.0.0.2", 1000, 0); ("udp", "10.0.0.3", 1001, 0);
            ("udp", "10.0.0.4", 1002, 0)]
           (nat_table.table "198.51.100.7" 50000 50002 60 [] [])
         = ([Ok ("198.51.100.7", 50000); Ok ("198.51.100.7", 50001);
             Ok ("198.51.100.7", 50002)], sN) ∧
         nat_table.translate_out lower_ascii "udp" "10.0.0.5" 1003 0 sN
         = (Raise (RuntimeError "No free NAT ports available"), sN)).
Proof.
  intros s.
  destruct (nat_facts.C2_outbound_allocation lower_ascii) as [Hone Hfill].
  split.
  - destruct (Hone s "UDP" "192.168.0.11" 53 7) as [Halloc _].
    + apply (nat_facts.table_inv_run lower_ascii
               [nat_table.TranslateOut "tcp" "192.168.0.10" 12345 0]),
        nat_facts.table_wf_inv, nat_facts.wf_empty.
    + reflexivity.
    + destruct (Halloc 40001) as (s' & H1 & _ & H3).
      * simpl. lia.
      * compute_done.
      * intros p' Hp'. assert (p' = 40000) as -> by (simpl in Hp'; lia).
        compute_done.
      * exists s'. split; [exact H1|exact H3].
  - destruct (Hfill "198.51.100.7" 50000 50002 60
                (nat_table.table "198.51.100.7" 50000 50002 60 [] [])
                [("udp", "10.0.0.2", 1000, 0); ("udp", "10.0.0.3", 1001, 0);
                 ("udp", "10.0.0.4", 1002, 0)]
                ("udp", "10.0.0.5", 1003, 0))
      as (sN & H1 & _ & H3).
    + vm_compute. reflexivity.
    + reflexivity.
    + compute_done.
    + exists sN. split; [exact H1|exact H3].
Defined.

(** ** More on the lease pool *)

Module pool_more.
Import lease_pool pool_facts.
Implicit Types (s : LeasePool) (h : list Lease) (rs pre : list loc)
  (q : list IPv4Address) (r : loc) (now ls : Z) (n : IPv4Network)
  (cid : string).

(** *** Counting leases *)

Lemma count_live_spec now s rs :
  Forall (λ r, (r < length (heap s))%nat) rs →
  count_live now (index client_id (heap s) rs) s
  = (Ok (Z.of_nat (length (filter (live now (heap s)) rs))), s).
Proof.
  induction 1 as [|r rs Hr _ IH]; [done|].
  cbn [index fmap list_fmap count_live]. mred.
  rewrite (lookup_valid _ _ Hr).
  change ((λ r0, (client_id (heap s !!! r0), r0)) <$> rs)
    with (index client_id (heap s) rs).
  rewrite IH, filter_cons. rewrite Z.gtb_ltb.
  destruct (decide (live now (heap s) r)) as [Hl|Hl];
    unfold live, expired in Hl;
    destruct (Z.ltb_spec now (expiry (heap s !!! r))); try lia;
    do 2 f_equal; cbn [length]; lia.
Qed.

Lemma active_count_pool now n ls q h rs :
  wf h rs q →
  active_count (Some now) (pool n ls q h rs)
  = (Ok (Z.of_nat (length (filter (live now h) rs))), pool n ls q h rs).
Proof.
  intros [Hv _ _]. unfold active_count. rewrite bind_eq. cbn [gets].
  change (_leases_by_client (pool n ls q h rs)) with
    (index client_id (heap (pool n ls q h rs)) rs).
  by rewrite count_live_spec.
Qed.

Lemma tracked_count_pool n ls q h rs :
  active_count None (pool n ls q h rs)
  = (Ok (Z.of_nat (length rs)), pool n ls q h rs).
Proof.
  unfold active_count, gets, pool. cbn [_leases_by_client].
  unfold index. by rewrite length_fmap.
Qed.

Lemma filter_split_length {A} (P : A → Prop) `{!∀ x, Decision (P x)}
    (l : list A) :
  (length (filter P l) + length (filter (λ x, ¬ P x) l) = length l)%nat.
Proof. by rewrite <- length_app, filter_app_complement. Qed.

(** X1. The raw count of tracked leases splits into the leases live at
    [now] and the leases [expire now] reclaims; after the sweep the raw
    count and the live count agree, and equal the live count from
    before. *)
Theorem X1_active_count_and_expire s now :
  inv s →
  ∃ n_all n_live n_gone s',
    active_count None s = (Ok n_all, s) ∧
    active_count (Some now) s = (Ok n_live, s) ∧
    expire now s = (Ok n_gone, s') ∧
    n_all = Z.of_nat (length (leases s)) ∧
    n_live = Z.of_nat (length (filter (λ L, expiry L > now) (leases s))) ∧
    n_all = n_live + n_gone ∧
    active_count None s' = (Ok n_live, s') ∧
    active_count (Some now) s' = (Ok n_live, s').
Proof.
  intros (q & h & rs & Hs & Hwf)%inv_pool.
  set (n := net s) in *. set (ls := lease_seconds s) in *. rewrite Hs.
  clearbody n ls. clear Hs.
  pose proof (wf_sweep now _ _ _ Hwf) as Hwf1.
  eexists _, _, _, _.
  rewrite tracked_count_pool, active_count_pool, expire_pool by done.
  split; [done|]. split; [done|]. split; [done|].
  rewrite tracked_count_pool, active_count_pool by done.
  destruct (sweep_idle now h (filter (live now h) rs)
              (sweep_all_live now h rs)) as [_ ->].
  pose proof (filter_split_length (expired now h) rs) as Hlen.
  fold (live now h) in Hlen. rewrite leases_pool by done.
  split; [by rewrite length_fmap|]. split.
  { rewrite filter_fmap, length_fmap. do 2 f_equal.
    apply list_filter_iff. intros r. unfold live, expired. lia. }
  split; [lia|]. done.
Qed.

(** *** Reachable pools *)

Lemma run_snoc ops o s : run (ops ++ [o]) s = step o (run ops s).
Proof.
  revert s. induction ops as [|o' ops IH]; intros s; [done|].
  cbn [app run foldl]. apply IH.
Qed.

Lemma reach network ls excl ops :
  ∃ q h rs,
    run ops (__init__ network ls excl)
    = pool (ip_network network.1 network.2) ls q h rs ∧
    wf h rs q ∧ q ++ (ip_at h <$> rs) ≡ₚ host_set network excl.
Proof.
  rewrite init_pool.
  destruct (run_pool ops (ip_network network.1 network.2) ls
              (host_set network excl) [] [] 0 (init_wf network excl))
    as (q & h & rs & Hrun & Hwf & Hp & _).
  exists q, h, rs. split; [done|]. split; [done|].
  rewrite Hp. cbn. by rewrite app_nil_r.
Qed.

(** X2. On a pool reached from the constructor, the number of available
    addresses plus the raw number of tracked leases is the size of the
    host set, whatever calls were made. *)
Theorem X2_counts_are_conserved network ls excl ops :
  let s := run ops (__init__ network ls excl) in
  ∃ n_all,
    active_count None s = (Ok n_all, s) ∧
    available_count s + n_all = Z.of_nat (length (host_set network excl)).
Proof.
  intros s. subst s.
  destruct (reach network ls excl ops) as (q & h & rs & -> & Hwf & Hp).
  eexists. rewrite tracked_count_pool. split; [done|].
  unfold available_count. cbn [pool _available].
  rewrite <- Hp, length_app, length_fmap. lia.
Qed.

Lemma renew_ok cid now s a s1 :
  inv s → renew cid now s = (Ok a, s1) →
  ∃ n ls q h rs r,
    s1 = pool n ls q h rs ∧ wf h rs q ∧ r ∈ rs ∧
    client_at h r = cid ∧ ip_at h r = a.
Proof.
  intros (q & h & rs & -> & Hwf)%inv_pool.
  pose proof (wf_sweep now _ _ _ Hwf) as Hwf1.
  destruct (renew_cases cid now (net s) (lease_seconds s) q h rs Hwf)
    as [(r & Hr & Hc & ->)|[(Hc & _ & ->)|(Hc & a' & q2 & Hq & ->)]];
    intros [= <- <-].
  - eexists _, _, _, _, _, r. split; [done|].
    split; [by apply wf_renewed|]. split; [done|].
    assert (Hlt : (r < length h)%nat).
    { destruct Hwf as [Hv _ _]. apply list_elem_of_filter in Hr as [_ Hr].
      by eapply Forall_forall in Hv. }
    unfold client_at, ip_at.
    by rewrite list_lookup_total_insert_eq.
  - fold (swept_queue now q h rs) in Hwf1. rewrite Hq in Hwf1.
    eexists _, _, _, _, _, (length h).
    split; [done|]. split; [by apply wf_alloc|].
    split; [apply elem_of_app; right; left|].
    unfold client_at, ip_at. by rewrite list_lookup_total_middle.
Qed.

Lemma leased_in_host_set network ls excl ops n' ls' q h rs r :
  run ops (__init__ network ls excl) = pool n' ls' q h rs →
  wf h rs q → r ∈ rs → ip_at h r ∈ host_set network excl.
Proof.
  intros Hrun Hwf Hr.
  destruct (reach network ls excl ops) as (q0 & h0 & rs0 & Heq & _ & Hp).
  rewrite Hrun in Heq. unfold pool in Heq.
  injection Heq as _ _ Hq Hc Hi Hh. subst q0 h0.
  assert (rs0 = rs) as ->.
  { apply (f_equal (fmap snd)) in Hc. by rewrite !index_refs in Hc. }
  rewrite <- Hp. apply elem_of_app. right.
  apply list_elem_of_fmap. by exists r.
Qed.

(** X3. Every address that [request] or [renew] returns on a pool
    reached from the constructor is a host of the block, is not an
    excluded address and is not the block's first host. *)
Theorem X3_returned_address_is_allocatable network ls excl ops cid now a s1 :
  let s := run ops (__init__ network ls excl) in
  request cid now s = (Ok a, s1) ∨ renew cid now s = (Ok a, s1) →
  let hs := hosts (ip_network network.1 network.2) in
  a ∈ hs ∧ (a ∉ excl) ∧ head hs ≠ Some a.
Proof.
  intros s Hcall hs.
  assert (Hinv : inv s) by apply inv_run, init_inv.
  assert (Hin : a ∈ host_set network excl).
  { destruct Hcall as [Hreq|Hren].
    - destruct (request_ok cid now s a s1 Hinv Hreq)
        as (n' & ls' & q & h & rs & r & -> & Hwf & Hr & _ & <-).
      apply (leased_in_host_set network ls excl
               (ops ++ [Request cid now]) n' ls' q h rs r); try done.
      rewrite run_snoc. cbn [step]. fold s. by rewrite Hreq.
    - destruct (renew_ok cid now s a s1 Hinv Hren)
        as (n' & ls' & q & h & rs & r & -> & Hwf & Hr & _ & <-).
      apply (leased_in_host_set network ls excl
               (ops ++ [Renew cid now]) n' ls' q h rs r); try done.
      rewrite run_snoc. cbn [step]. fold s. by rewrite Hren. }
  unfold host_set in Hin. apply list_elem_of_filter in Hin as [[H1 H2] H3].
  done.
Qed.

Lemma no_live_lease_absent cid now n ls q h rs :
  wf h rs q →
  (∀ L, lease_of cid (pool n ls q h rs) = Some L → expiry L <= now) →
  cid ∉ client_at h <$> filter (live now h) rs.
Proof.
  intros Hwf Hno (r & -> & [Hl Hr]%list_elem_of_filter)%list_elem_of_fmap.
  apply Hl. apply Hno. by apply lease_of_pool.
Qed.

(** X4. For a client without a lease that is live at [now], [renew]
    does exactly what [request] does: same result, same pool. *)
Theorem X4_renew_without_live_lease_is_request s cid now :
  inv s →
  (∀ L, lease_of cid s = Some L → expiry L <= now) →
  renew cid now s = request cid now s.
Proof.
  intros (q & h & rs & Hs & Hwf)%inv_pool.
  set (n := net s) in *. set (ls := lease_seconds s) in *. rewrite Hs.
  clearbody n ls. clear Hs. intros Hno.
  rewrite renew_sweep, request_sweep by done.
  apply renew_absent_spec.
  - by apply wf_sweep.
  - by eapply no_live_lease_absent.
  - apply sweep_all_live.
Qed.



(** *** Other clients *)

Lemma lease_kept n ls q' h h' rs' r :
  wf h' rs' q' → r ∈ rs' → h' !!! r = h !!! r →
  lease_of (client_at h r) (pool n ls q' h' rs') = Some (h !!! r).
Proof.
  intros Hwf Hr Heq.
  pose proof (lease_of_pool n ls q' h' rs' r Hwf Hr) as Hl.
  unfold client_at in *. by rewrite Heq in Hl.
Qed.

Lemma valid_ref h rs q r : wf h rs q → r ∈ rs → (r < length h)%nat.
Proof. intros [Hv _ _] Hr. by eapply Forall_forall in Hv. Qed.

(** X6. A call made for one client leaves every other client's lease
    as it is: [release] always, [request] and [renew] whenever the
    other lease is live at the time of the call. *)
Theorem X6_other_clients_keep_their_lease s cid cid' L :
  inv s → cid' ≠ cid → lease_of cid' s = Some L →
  lease_of cid' (release cid s).2 = Some L ∧
  (∀ now, expiry L > now →
     lease_of cid' (request cid now s).2 = Some L ∧
     lease_of cid' (renew cid now s).2 = Some L).
Proof.
  intros (q & h & rs & Hs & Hwf)%inv_pool Hne HL.
  set (n := net s) in *. set (ls := lease_seconds s) in *. rewrite Hs in *.
  clearbody n ls. clear Hs.
  apply lease_of_pool_Some in HL as (r' & Hr' & <- & <-); [|done].
  split.
  - destruct (release_cases cid n ls q h rs Hwf)
      as [(pre & r & post & -> & Hc & ->)|(Hc & ->)]; cbn [snd].
    + rewrite (lease_of_release_other n ls q (q ++ [ip_at h r]) h pre r)
        by congruence.
      by apply lease_of_pool.
    + by apply lease_of_pool.
  - intros now Hlive.
    assert (Hr1 : r' ∈ filter (live now h) rs).
    { apply list_elem_of_filter. split; [|done]. unfold live, expired. lia. }
    pose proof (wf_sweep now _ _ _ Hwf) as Hwf1.
    pose proof (valid_ref _ _ _ _ Hwf Hr') as Hlt.
    split.
    + destruct (request_cases cid now n ls q h rs Hwf)
        as [(r & Hr & Hc & ->)|[(Hc & Hq & ->)|(Hc & a & q2 & Hq & ->)]];
        cbn [snd].
      * by apply lease_of_pool.
      * fold (swept_queue now q h rs) in Hwf1. rewrite Hq in Hwf1.
        by apply lease_of_pool.
      * fold (swept_queue now q h rs) in Hwf1. rewrite Hq in Hwf1.
        apply lease_kept.
        -- by apply wf_alloc.
        -- apply elem_of_app. by left.
        -- by rewrite lookup_total_app_l.
    + destruct (renew_cases cid now n ls q h rs Hwf)
        as [(r & Hr & Hc & ->)|[(Hc & Hq & ->)|(Hc & a & q2 & Hq & ->)]];
        cbn [snd].
      * apply lease_kept; [by apply wf_renewed|done|].
        apply list_lookup_total_insert_ne. intros ->. by apply Hne.
      * fold (swept_queue now q h rs) in Hwf1. rewrite Hq in Hwf1.
        by apply lease_of_pool.
      * fold (swept_queue now q h rs) in Hwf1. rewrite Hq in Hwf1.
        apply lease_kept.
        -- by apply wf_alloc.
        -- apply elem_of_app. by left.
        -- by rewrite lookup_total_app_l.
Qed.

(** *** When a request fails, and what it creates when it succeeds *)

(** X7. On a consistent pool [request] raises exactly when the queue
    is empty, no tracked lease has run out by [now], and the client
    holds no lease. *)
Theorem X7_request_raises_iff_nothing_to_give s cid now :
  inv s →
  (∃ e s', request cid now s = (Raise e, s'))
  ↔ _available s = [] ∧
    Forall (λ L, now < expiry L) (leases s) ∧
    lease_of cid s = None.
Proof.
  intros (q & h & rs & Hs & Hwf)%inv_pool.
  set (n := net s) in *. set (ls := lease_seconds s) in *. rewrite Hs.
  clearbody n ls. clear Hs.
  rewrite leases_pool by done. cbn [pool _available].
  split.
  - intros (e & s' & Hraise).
    destruct (request_cases cid now n ls q h rs Hwf)
      as [(r & _ & _ & Heq)|[(Hc & Hq & _)|(_ & a & q2 & _ & Heq)]];
      try (rewrite Heq in Hraise; done).
    unfold swept_queue in Hq.
    apply app_eq_nil in Hq as [-> Hexp%fmap_nil_inv].
    pose proof (filter_none_complement (expired now h) rs Hexp) as Hsame.
    fold (live now h) in Hsame. rewrite Hsame in Hc.
    split; [done|]. split; [|by apply lease_of_pool_None].
    apply Forall_fmap, Forall_forall. intros r Hr. cbn.
    rewrite <- Hsame in Hr. apply list_elem_of_filter in Hr as [Hl _].
    unfold live, expired in Hl. lia.
  - intros (-> & Hall & Hnone).
    assert (Hl : Forall (live now h) rs).
    { apply Forall_forall. intros r Hr.
      eapply Forall_forall in Hall;
        [|apply list_elem_of_fmap; by exists r].
      unfold live, expired. cbv beta in Hall. lia. }
    assert (Hc : cid ∉ client_at h <$> rs).
    { intros (r & -> & Hr)%list_elem_of_fmap.
      by rewrite (lease_of_pool n ls [] h rs r) in Hnone. }
    eexists _, _. by apply request_empty_spec.
Qed.

(** X8. When the queue is not empty and the client has no lease that
    is live at [now], [request] returns the head of the queue [a] and
    leaves the client with a new lease on it that runs to [now] plus
    the lease term.  The leases afterwards are those that were live at
    [now], in their order, and the new one behind them.  The queue
    afterwards is exactly the rest of the old queue followed by the
    addresses of the leases that had run out, in the order of the
    leases; [a] is no longer in it. *)
Theorem X8_request_allocates_queue_head s cid now a q :
  inv s → _available s = a :: q →
  (∀ L, lease_of cid s = Some L → expiry L <= now) →
  ∃ s', request cid now s = (Ok a, s') ∧
        inv s' ∧
        leases s' = filter (λ L, ¬ expiry L <= now) (leases s)
                    ++ [mkLease cid a (now + lease_seconds s)] ∧
        lease_of cid s' = Some (mkLease cid a (now + lease_seconds s)) ∧
        _available s'
        = q ++ (ip <$> filter (λ L, expiry L <= now) (leases s)) ∧
        (a ∉ _available s') ∧
        lease_seconds s' = lease_seconds s ∧ net s' = net s.
Proof.
  intros (q0 & h & rs & Hs & Hwf)%inv_pool.
  set (n := net s) in *. set (ls := lease_seconds s) in *. rewrite Hs.
  clearbody n ls. clear Hs. cbn [pool _available]. intros -> Hno.
  pose proof (no_live_lease_absent cid now n ls _ h rs Hwf Hno) as Hc.
  pose proof (wf_sweep now _ _ _ Hwf) as Hwf1.
  destruct (request_cases cid now n ls (a :: q) h rs Hwf)
    as [(r & Hr & Hcr & _)|[(_ & Hq & _)|(_ & a' & q2 & Hq & ->)]].
  - destruct Hc. apply list_elem_of_fmap. by exists r.
  - done.
  - unfold swept_queue in Hq. cbn [app] in Hq. injection Hq as <- <-.
    assert (Hin : length h ∈ filter (live now h) rs ++ [length h])
      by (apply elem_of_app; right; left).
    pose proof (wf_alloc _ _ _ _ cid (now + ls) Hwf1 Hc) as Hwf2.
    pose proof (lease_of_pool n ls _ _ _ _ Hwf2 Hin) as Hl.
    unfold client_at in Hl.
    rewrite list_lookup_total_middle in Hl by done.
    eexists. split; [done|]. split; [by apply wf_inv|].
    rewrite !leases_pool by done. cbn [pool _available].
    split; [|split; [done|split; [|split; [|done]]]].
    + rewrite fmap_app. cbn [fmap list_fmap].
      rewrite list_lookup_total_middle by done. f_equal.
      rewrite filter_fmap. apply list_fmap_ext.
      intros i r [_ Hr]%list_elem_of_lookup_2%list_elem_of_filter.
      destruct Hwf as [Hv _ _]. eapply Forall_forall in Hv; [|exact Hr].
      by apply lookup_total_app_l.
    + by rewrite filter_fmap, <- list_fmap_compose.
    + destruct Hwf2 as [_ _ Ha2]. apply NoDup_app in Ha2 as (_ & Hd & _).
      intros Ha. apply (Hd a Ha).
      change (a ∈ ip_at (h ++ [mkLease cid a (now + ls)])
                  <$> filter (live now h) rs ++ [length h]).
      apply list_elem_of_fmap. exists (length h). split; [|done].
      unfold ip_at. by rewrite list_lookup_total_middle.
Qed.

(** *** The queue of a new pool *)

Lemma mask_facts p :
  0 <= p <= 32 →
  hostmask p = 2 ^ (32 - p) - 1 ∧ Z.land (netmask p) (hostmask p) = 0.
Proof.
  intros Hp.
  assert (∃ k : nat, p = Z.of_nat k ∧ (k ≤ 32)%nat) as (k & Hk & Hle).
  { exists (Z.to_nat p). lia. }
  subst p. clear Hp.
  do 33 (destruct k as [|k]; [by vm_compute|]). lia.
Qed.

Lemma broadcast_spec addr p :
  0 <= p <= 32 →
  broadcast_address (ip_network addr p)
  = network_address (ip_network addr p) + 2 ^ (32 - p) - 1.
Proof.
  intros Hp. destruct (mask_facts p Hp) as [Hh Hz].
  unfold broadcast_address, ip_network.
  cbn [network_address prefixlen].
  assert (Hdis : Z.land (Z.land addr (netmask p)) (hostmask p) = 0).
  { by rewrite <- Z.land_assoc, Hz, Z.land_0_r. }
  rewrite <- (Z.lxor_lor _ _ Hdis), <- (Z.add_nocarry_lxor _ _ Hdis). lia.
Qed.

Lemma length_range a b : length (range a b) = Z.to_nat (b - a).
Proof. unfold range. by rewrite length_fmap, length_seq. Qed.

(** X9. With no exclusions, a new pool on a block of prefix length at
    most 30 queues the hosts after the first in ascending order, from
    the network address plus 2 up to the address before the broadcast
    address: 2^(32-p) - 3 addresses.  On a /31 block it queues the
    second address only. *)
Theorem X9_queue_of_new_pool addr p ls :
  let n := ip_network addr p in
  let s := __init__ (addr, p) ls [] in
  (0 <= p <= 30 →
     _available s = range (network_address n + 2) (broadcast_address n) ∧
     broadcast_address n = network_address n + 2 ^ (32 - p) - 1 ∧
     available_count s = 2 ^ (32 - p) - 3) ∧
  (p = 31 → _available s = [network_address n + 1]).
Proof.
  intros n s. split.
  - intros Hp. pose proof (broadcast_spec addr p ltac:(lia)) as Hb.
    fold n in Hb.
    assert (Hpow : 2 ^ 2 <= 2 ^ (32 - p)) by (apply Z.pow_le_mono_r; lia).
    assert (Hq : _available s
                 = range (network_address n + 2) (broadcast_address n)).
    { unfold s, __init__. cbn [fst snd _available]. fold n.
      unfold hosts. rewrite !decide_False by (cbn; lia).
      rewrite range_cons by lia.
      rewrite filter_cons, decide_False
      by (intros Hn; apply Hn, elem_of_union; left; by apply elem_of_singleton).
      replace (network_address n + 1 + 1) with (network_address n + 2)
        by lia.
      apply filter_all_complement. apply Forall_forall.
      intros x Hx%elem_of_range.
      rewrite elem_of_union, elem_of_singleton, elem_of_list_to_set.
      intros [->|Hin]; [lia|]. by apply not_elem_of_nil in Hin. }
    split; [done|]. split; [done|].
    unfold available_count. rewrite Hq, length_range. lia.
  - intros ->. pose proof (broadcast_spec addr 31 ltac:(lia)) as Hb.
    fold n in Hb. change (2 ^ (32 - 31)) with 2 in Hb.
    unfold s, __init__. cbn [fst snd _available]. fold n.
    unfold hosts. rewrite decide_True by done.
    rewrite range_cons by lia. rewrite (range_cons (network_address n + 1))
      by lia. rewrite range_nil by lia.
    rewrite filter_cons, decide_False
      by (intros Hn; apply Hn, elem_of_union; left; by apply elem_of_singleton).
    rewrite filter_cons, decide_True; [done|].
    rewrite not_elem_of_union, not_elem_of_singleton, elem_of_list_to_set.
    split; [lia|apply not_elem_of_nil].
Qed.

(** *** The implicit sweep *)

(** X19. [request] and [renew] sweep before they decide, so an
    [expire] with the same time just before either call changes
    neither its result nor the pool it leaves. *)
Theorem X19_explicit_sweep_is_redundant s cid now :
  inv s →
  request cid now (expire now s).2 = request cid now s ∧
  renew cid now (expire now s).2 = renew cid now s.
Proof.
  intros (q & h & rs & Hs & Hwf)%inv_pool.
  set (n := net s) in *. set (ls := lease_seconds s) in *. rewrite Hs.
  clearbody n ls. clear Hs.
  rewrite expire_pool by done. cbn [snd].
  by rewrite (request_sweep cid now n ls q h rs),
    (renew_sweep cid now n ls q h rs).
Qed.
End pool_more.

(** ** More on the translation table *)

Module nat_more.
Import nat_table nat_facts.
Implicit Types (s : NATTable) (h : list Mapping) (rs pre post : list loc)
  (r : loc) (now lo hi tmo port : Z) (pub : string) (k : Key).

Section normalisation.
(** [str.lower], as any function on strings. *)
Variable lower : string → string.

Lemma table_valid_ref lo hi h rs r :
  wf lo hi h rs → r ∈ rs → (r < length h)%nat.
Proof. intros [Hv _ _ _] Hr. by eapply Forall_forall in Hv. Qed.

Lemma table_run_snoc ops o s :
  run lower (ops ++ [o]) s
  = step lower o (run lower ops s).
Proof.
  revert s. induction ops as [|o' ops IH]; intros s; [done|].
  cbn [app nat_table.run foldl]. apply IH.
Qed.

Lemma table_inj pub lo hi tmo h rs h' rs' :
  table pub lo hi tmo h rs = table pub lo hi tmo h' rs' →
  h = h' ∧ rs = rs'.
Proof.
  unfold table. intros [= Hk _ ->]. split; [done|].
  apply (f_equal (fmap snd)) in Hk. by rewrite !index_refs in Hk.
Qed.

Lemma touched_seen now h r :
  (r < length h)%nat → last_seen (touched now h r !!! r) = now.
Proof.
  intros Hr. unfold touched. by rewrite list_lookup_total_insert_eq.
Qed.

Lemma touched_other now h r r' :
  r ≠ r' → touched now h r !!! r' = h !!! r'.
Proof. intros Hne. unfold touched. by rewrite list_lookup_total_insert_ne. Qed.

Lemma touched_at now h r :
  (r < length h)%nat → touched now h r !!! r = set_last_seen now (h !!! r).
Proof. intros Hr. unfold touched. by rewrite list_lookup_total_insert_eq. Qed.

(** *** Outbound translation *)

Lemma translate_out_ok s p a n now pub port s1 :
  inv s → translate_out lower p a n now s = (Ok (pub, port), s1) →
  ∃ h rs r,
    s1 = table (public_ip s) (pmin s) (pmax s) (timeout s) h rs ∧
    wf (pmin s) (pmax s) h rs ∧ r ∈ rs ∧
    key_at h r = (lower p, a, n) ∧ port_at h r = port ∧
    last_seen (h !!! r) = now ∧ pub = public_ip s.
Proof.
  intros (h & rs & Hs & Hwf)%inv_table.
  set (lo := pmin s) in *. set (hi := pmax s) in *.
  set (tmo := timeout s) in *. set (pb := public_ip s) in *.
  rewrite Hs. clearbody lo hi tmo pb. clear Hs.
  destruct (translate_out_cases lower p a n now pb lo hi tmo h rs Hwf)
    as [(r & Hr & Hk & ->)|[(Hk & port' & Hf & ->)|(Hk & Hf & ->)]];
    [| |done].
  - intros [= <- <- <-]. exists (touched now h r), rs, r.
    pose proof (table_valid_ref _ _ _ _ _ Hwf Hr) as Hlt.
    destruct (touched_fields now h r r) as [Hk' Hp'].
    split; [done|]. split; [by apply wf_touched|]. split; [done|].
    split; [congruence|]. split; [done|]. split; [|done].
    by apply touched_seen.
  - intros [= <- <- <-].
    exists (h ++ [fresh_mapping lower p a n port' now]), (rs ++ [length h]),
      (length h).
    split; [done|]. split; [by apply wf_fresh_mapping|].
    split; [apply elem_of_app; right; left|].
    unfold key_at, port_at. rewrite list_lookup_total_middle by done. done.
Qed.

(** X10. Once a tuple has a port, translating it again returns the
    same port for as long as no [release] or [expire] is called, and
    so does translating it under any protocol string that [str.lower]
    sends to the same string. *)
Theorem X10_same_tuple_same_port s p p' a n t1 t2 pub port s1 ops :
  inv s →
  translate_out lower p a n t1 s = (Ok (pub, port), s1) →
  Forall quiet ops → lower p' = lower p →
  ∃ s2, translate_out lower p' a n t2 (run lower ops s1) = (Ok (pub, port), s2).
Proof.
  intros Hinv Hout Hq Hlow.
  destruct (translate_out_ok s p a n t1 pub port s1 Hinv Hout)
    as (h & rs & r & -> & Hwf & Hr & Hk & Hp & _ & ->).
  destruct (quiet_run lower ops (public_ip s) (pmin s) (pmax s) (timeout s)
              h rs r Hwf Hr Hq)
    as (h' & rs' & -> & Hwf' & Hr' & Hk' & Hp').
  eexists. rewrite (translate_out_hit lower p' a n t2 _ _ _ _ h' rs' r);
    [by rewrite Hp', Hp|done|done|].
  rewrite Hk', Hk. by rewrite Hlow.
Qed.

(** X11. Two tuples with different lookup keys (the protocol taken
    after [str.lower]) never get the same port while neither [release]
    nor [expire] is called between their translations. *)
Theorem X11_different_keys_different_ports
    s p1 a1 n1 t1 pub1 port1 s1 ops p2 a2 n2 t2 pub2 port2 s2 :
  inv s →
  translate_out lower p1 a1 n1 t1 s = (Ok (pub1, port1), s1) →
  Forall quiet ops →
  translate_out lower p2 a2 n2 t2 (run lower ops s1) = (Ok (pub2, port2), s2) →
  (lower p1, a1, n1) ≠ (lower p2, a2, n2) →
  port1 ≠ port2.
Proof.
  intros Hinv Hout1 Hq Hout2 Hne Heq. subst port2.
  destruct (translate_out_ok s p1 a1 n1 t1 pub1 port1 s1 Hinv Hout1)
    as (h & rs & r1 & -> & Hwf & Hr1 & Hk1 & Hp1 & _ & ->).
  set (lo := pmin s) in *. set (hi := pmax s) in *.
  set (tmo := timeout s) in *. set (pb := public_ip s) in *.
  clearbody lo hi tmo pb.
  assert (Hq' : Forall quiet (ops ++ [TranslateOut p2 a2 n2 t2])).
  { apply Forall_app. split; [done|]. by apply Forall_singleton. }
  destruct (quiet_run lower _ pb lo hi tmo h rs r1 Hwf Hr1 Hq')
    as (h2 & rs2 & Hrun2 & Hwf2 & Hr2 & Hk2 & Hp2).
  rewrite table_run_snoc in Hrun2. cbn [nat_table.step] in Hrun2.
  rewrite Hout2 in Hrun2. cbn [snd] in Hrun2. subst s2.
  destruct (quiet_run lower ops pb lo hi tmo h rs r1 Hwf Hr1 Hq)
    as (h' & rs' & Hrun & Hwf' & _).
  rewrite Hrun in Hout2.
  destruct (translate_out_ok _ p2 a2 n2 t2 pub2 port1 _
              (table_wf_inv pb lo hi tmo h' rs' Hwf') Hout2)
    as (h3 & rs3 & r2 & Heq & Hwf3 & Hr3 & Hk3 & Hp3 & _).
  cbn [table public_ip pmin pmax timeout] in Heq, Hwf3.
  apply table_inj in Heq as [<- <-].
  assert (r1 = r2) as <-.
  { apply (port_unique lo hi h2 rs2); try done. congruence. }
  apply Hne. congruence.
Qed.

(** *** Refreshing a mapping *)

Lemma keys_touched now h r rs :
  key_at (touched now h r) <$> rs = key_at h <$> rs.
Proof. rewrite <- !keys_key. by rewrite index_touched. Qed.

Lemma ports_touched now h r rs :
  port_at (touched now h r) <$> rs = port_at h <$> rs.
Proof. rewrite <- !keys_port. by rewrite index_touched. Qed.

Lemma mapping_of_touched pub lo hi tmo now h rs r k :
  wf lo hi h rs → r ∈ rs →
  mapping_of k (table pub lo hi tmo (touched now h r) rs)
  = if decide (k = key_at h r) then Some (set_last_seen now (h !!! r))
    else mapping_of k (table pub lo hi tmo h rs).
Proof.
  intros Hwf Hr. pose proof (wf_touched lo hi now h rs r Hwf) as Hwf'.
  pose proof (table_valid_ref _ _ _ _ _ Hwf Hr) as Hlt.
  destruct (decide (k = key_at h r)) as [->|Hne].
  - destruct (touched_fields now h r r) as [<- _].
    rewrite (mapping_of_table pub lo hi tmo _ _ _ Hwf' Hr).
    by rewrite touched_at.
  - destruct (decide (k ∈ key_at h <$> rs)) as [Hin|Hout].
    + apply list_elem_of_fmap in Hin as (r' & -> & Hr').
      rewrite (mapping_of_table pub lo hi tmo _ _ _ Hwf Hr').
      destruct (touched_fields now h r r') as [<- _].
      rewrite (mapping_of_table pub lo hi tmo _ _ _ Hwf' Hr').
      rewrite touched_other; [done|]. by intros ->.
    + rewrite !mapping_of_None; by rewrite ?keys_touched.
Qed.

Lemma owner_of_touched pub lo hi tmo now h rs r port :
  wf lo hi h rs → r ∈ rs →
  owner_of port (table pub lo hi tmo (touched now h r) rs)
  = if decide (port = port_at h r) then Some (set_last_seen now (h !!! r))
    else owner_of port (table pub lo hi tmo h rs).
Proof.
  intros Hwf Hr. pose proof (wf_touched lo hi now h rs r Hwf) as Hwf'.
  pose proof (table_valid_ref _ _ _ _ _ Hwf Hr) as Hlt.
  destruct (decide (port = port_at h r)) as [->|Hne].
  - destruct (touched_fields now h r r) as [_ <-].
    rewrite (owner_of_table pub lo hi tmo _ _ _ Hwf' Hr).
    by rewrite touched_at.
  - destruct (decide (port ∈ port_at h <$> rs)) as [Hin|Hout].
    + apply list_elem_of_fmap in Hin as (r' & -> & Hr').
      rewrite (owner_of_table pub lo hi tmo _ _ _ Hwf Hr').
      destruct (touched_fields now h r r') as [_ <-].
      rewrite (owner_of_table pub lo hi tmo _ _ _ Hwf' Hr').
      rewrite touched_other; [done|]. by intros ->.
    + rewrite !owner_of_None; by rewrite ?ports_touched.
Qed.

Lemma expire_keeps t pub lo hi tmo h rs r :
  wf lo hi h rs → r ∈ rs → t - last_seen (h !!! r) < tmo →
  mapping_of (key_at h r) (expire t (table pub lo hi tmo h rs)).2
  = Some (h !!! r) ∧
  owner_of (port_at h r) (expire t (table pub lo hi tmo h rs)).2
  = Some (h !!! r).
Proof.
  intros Hwf Hr Hlt. rewrite expire_table by done. cbn [snd].
  pose proof (table_wf_sweep lo hi h rs (fresh t tmo h) Hwf) as Hwf'.
  assert (Hr' : r ∈ filter (fresh t tmo h) rs).
  { apply list_elem_of_filter. split; [|done]. unfold fresh, idle. lia. }
  split; [by apply mapping_of_table|by apply owner_of_table].
Qed.

(** X12. [touch_by_internal] reports whether the key has a mapping.
    It never creates or removes one: the owned ports stay as they are
    and every other key keeps its mapping.  The mapping it finds gets
    [now] as its last-seen time, and a sweep at any time less than the
    timeout after [now] then keeps it. *)
Theorem X12_touch_refreshes_and_keeps_alive s p a n now :
  inv s →
  let k := (lower p, a, n) in
  ∃ s', touch_by_internal lower p a n now s
        = (Ok (bool_decide (is_Some (mapping_of k s))), s') ∧
        inv s' ∧ ports s' = ports s ∧
        mapping_of k s' = set_last_seen now <$> mapping_of k s ∧
        (∀ k', k' ≠ k → mapping_of k' s' = mapping_of k' s) ∧
        (∀ t, t - now < timeout s →
              mapping_of k (expire t s').2 = mapping_of k s').
Proof.
  intros (h & rs & Hs & Hwf)%inv_table k.
  set (lo := pmin s) in *. set (hi := pmax s) in *.
  set (tmo := timeout s) in *. set (pb := public_ip s) in *.
  rewrite Hs. clearbody lo hi tmo pb. clear Hs.
  destruct (decide (k ∈ key_at h <$> rs)) as [Hin|Hout].
  - apply list_elem_of_fmap in Hin as (r & Hk & Hr).
    pose proof (table_valid_ref _ _ _ _ _ Hwf Hr) as Hlt.
    pose proof (wf_touched lo hi now h rs r Hwf) as Hwf'.
    exists (table pb lo hi tmo (touched now h r) rs).
    rewrite (touch_hit lower p a n now pb lo hi tmo h rs r) by done.
    rewrite Hk, (mapping_of_table pb lo hi tmo _ _ _ Hwf Hr).
    split; [done|]. split; [by apply table_wf_inv|].
    split; [by rewrite !ports_table, ports_touched|].
    split; [|split].
    + rewrite mapping_of_touched by done. by rewrite decide_True.
    + intros k' Hne. rewrite mapping_of_touched by done.
      by rewrite decide_False by congruence.
    + intros t Ht.
      destruct (touched_fields now h r r) as [Hk' _].
      rewrite <- Hk'.
      rewrite (mapping_of_table pb lo hi tmo _ _ _ Hwf' Hr).
      apply expire_keeps; [done|done|]. rewrite touched_seen by done. lia.
  - exists (table pb lo hi tmo h rs).
    rewrite touch_miss by done.
    rewrite mapping_of_None by done.
    split; [done|]. split; [by apply table_wf_inv|].
    split; [done|]. split; [done|]. split; [done|].
    intros t _. rewrite expire_table by done. cbn [snd].
    apply mapping_of_None.
    intros (r & Hk & [_ Hr]%list_elem_of_filter)%list_elem_of_fmap.
    apply Hout. apply list_elem_of_fmap. by exists r.
Qed.

(** X13. A sweep keeps every mapping that was seen less than the
    timeout ago: it is still found under its key and under its port,
    unchanged. *)
Theorem X13_expire_keeps_recent_mappings s k m t :
  inv s → mapping_of k s = Some m →
  t - last_seen m < timeout s →
  mapping_of k (expire t s).2 = Some m ∧
  owner_of (external_port m) (expire t s).2 = Some m.
Proof.
  intros (h & rs & Hs & Hwf)%inv_table.
  set (lo := pmin s) in *. set (hi := pmax s) in *.
  set (tmo := timeout s) in *. set (pb := public_ip s) in *.
  rewrite Hs. clearbody lo hi tmo pb. clear Hs.
  intros (r & Hr & <- & <-)%mapping_of_Some Hlt; [|done].
  by apply expire_keeps.
Qed.

(** X14. [translate_in] returns the tuple of the mapping that owns
    the port, or nothing when no mapping owns it.  Without a time
    value it leaves the table as it is; with one it sets the last-seen
    time of the mapping found.  It never changes which ports are
    owned. *)
Theorem X14_translate_in_lookup s port (at_ : option Z) :
  inv s →
  ∃ s', translate_in port at_ s = (Ok (key_of <$> owner_of port s), s') ∧
        inv s' ∧ ports s' = ports s ∧
        (at_ = None → s' = s) ∧
        (∀ t, at_ = Some t →
              owner_of port s' = set_last_seen t <$> owner_of port s).
Proof.
  intros (h & rs & Hs & Hwf)%inv_table.
  set (lo := pmin s) in *. set (hi := pmax s) in *.
  set (tmo := timeout s) in *. set (pb := public_ip s) in *.
  rewrite Hs. clearbody lo hi tmo pb. clear Hs.
  destruct (decide (port ∈ port_at h <$> rs)) as [Hin|Hout].
  - apply list_elem_of_fmap in Hin as (r & -> & Hr).
    exists (table pb lo hi tmo (seen at_ h r) rs).
    rewrite (translate_in_hit _ at_ pb lo hi tmo h rs r) by done.
    rewrite (owner_of_table pb lo hi tmo _ _ _ Hwf Hr).
    split; [done|]. destruct at_ as [t|]; cbn [seen].
    + split; [by apply table_wf_inv, wf_touched|].
      split; [by rewrite !ports_table, ports_touched|].
      split; [done|]. intros t' [= <-].
      rewrite owner_of_touched by done. by rewrite decide_True.
    + split; [by apply table_wf_inv|]. by repeat split.
  - exists (table pb lo hi tmo h rs).
    rewrite translate_in_miss by done. rewrite owner_of_None by done.
    split; [done|]. split; [by apply table_wf_inv|]. by repeat split.
Qed.

(** *** Releasing a mapping *)

Lemma mid_absent {A B} (f : A → B) (pre post : list A) (x : A) :
  NoDup (f <$> pre ++ x :: post) → f x ∉ f <$> (pre ++ post).
Proof.
  rewrite !fmap_app. cbn. intros Hnd.
  apply NoDup_app in Hnd as (_ & H2 & [H3 _]%NoDup_cons).
  intros [Hin|Hin]%elem_of_app; [|done]. apply (H2 _ Hin). left.
Qed.

Lemma mapping_of_skip pub lo hi tmo h pre r post k :
  k ≠ key_at h r →
  mapping_of k (table pub lo hi tmo h (pre ++ post))
  = mapping_of k (table pub lo hi tmo h (pre ++ r :: post)).
Proof.
  intros Hne. unfold mapping_of. cbn [table _int2ext heap].
  rewrite !index_app. cbn [index fmap list_fmap].
  by rewrite dict_get_skip.
Qed.

(** X15. [release] reports whether the key had a mapping.  Afterwards
    the key has none, the port the mapping owned is owned by nobody,
    and every other key keeps its mapping. *)
Theorem X15_release_frees_key_and_port s p a n :
  inv s →
  let k := (lower p, a, n) in
  ∃ s', release lower p a n s
        = (Ok (bool_decide (is_Some (mapping_of k s))), s') ∧
        inv s' ∧
        mapping_of k s' = None ∧
        (∀ m, mapping_of k s = Some m →
              (external_port m ∉ ports s') ∧
              owner_of (external_port m) s' = None) ∧
        (∀ k', k' ≠ k → mapping_of k' s' = mapping_of k' s) ∧
        (mapping_of k s = None → s' = s).
Proof.
  intros (h & rs & Hs & Hwf)%inv_table k.
  set (lo := pmin s) in *. set (hi := pmax s) in *.
  set (tmo := timeout s) in *. set (pb := public_ip s) in *.
  rewrite Hs. clearbody lo hi tmo pb. clear Hs.
  destruct (decide (k ∈ key_at h <$> rs)) as [Hin|Hout].
  - apply list_elem_of_fmap in Hin as (r & Hk & Hr).
    rewrite Hk, (mapping_of_table pb lo hi tmo _ _ _ Hwf Hr).
    apply list_elem_of_split in Hr as (pre & post & ->).
    pose proof (table_wf_release _ _ _ _ _ _ Hwf) as Hwf'.
    exists (table pb lo hi tmo h (pre ++ post)).
    rewrite release_hit by done.
    assert (Hka : key_at h r ∉ key_at h <$> (pre ++ post))
      by (apply mid_absent, Hwf).
    assert (Hpa : port_at h r ∉ port_at h <$> (pre ++ post))
      by (apply mid_absent, Hwf).
    split; [done|]. split; [by apply table_wf_inv|].
    split; [by apply mapping_of_None|]. split; [|split; [|done]].
    + intros m [= <-]. rewrite ports_table.
      split; [done|]. by apply owner_of_None.
    + intros k' Hne. by apply mapping_of_skip.
  - exists (table pb lo hi tmo h rs).
    rewrite release_miss by done. rewrite mapping_of_None by done.
    split; [done|]. split; [by apply table_wf_inv|]. by repeat split.
Qed.

(** X16. After a mapping is released, an outbound translation for any
    key without a mapping succeeds, and the port it gets is in range
    and not above the released port. *)
Theorem X16_released_port_is_reused_lowest_first s p a n m p' a' n' now :
  inv s → mapping_of (lower p, a, n) s = Some m →
  let s1 := (release lower p a n s).2 in
  mapping_of (lower p', a', n') s1 = None →
  ∃ port s2, translate_out lower p' a' n' now s1
    = (Ok (public_ip s, port), s2) ∧
             pmin s <= port ∧ port <= external_port m.
Proof.
  intros (h & rs & Hs & Hwf)%inv_table.
  set (lo := pmin s) in *. set (hi := pmax s) in *.
  set (tmo := timeout s) in *. set (pb := public_ip s) in *.
  rewrite Hs. clearbody lo hi tmo pb. clear Hs.
  intros (r & Hr & Hk & <-)%mapping_of_Some; [|done].
  apply list_elem_of_split in Hr as (pre & post & ->).
  rewrite release_hit by done. cbn [snd]. intros Hnone.
  pose proof (table_wf_release _ _ _ _ _ _ Hwf) as Hwf'.
  assert (Hpa : port_at h r ∉ port_at h <$> (pre ++ post))
    by (apply mid_absent, Hwf).
  assert (Hrange : lo <= port_at h r <= hi).
  { destruct Hwf as [_ _ _ Hrg]. eapply Forall_forall in Hrg; [exact Hrg|].
    apply list_elem_of_fmap. exists r. split; [done|].
    apply elem_of_app. right. left. }
  assert (Hk' : (lower p', a', n') ∉ key_at h <$> (pre ++ post)).
  { intros (r' & Hkr & Hr')%list_elem_of_fmap.
    rewrite Hkr, (mapping_of_table pb lo hi tmo _ _ _ Hwf' Hr') in Hnone.
    done. }
  destruct (free_port lo hi h (pre ++ post)) as [port|] eqn:Hf.
  - exists port. eexists.
    rewrite (translate_out_miss lower p' a' n' now pb lo hi tmo _ _ port)
      by done.
    split; [done|].
    apply free_port_Some in Hf as (Hp & _ & Hlow). split; [lia|].
    destruct (Z_le_gt_dec port (port_at h r)) as [Hle|Hgt]; [done|].
    destruct Hpa. apply Hlow. lia.
  - destruct Hpa. by apply (free_port_None lo hi).
Qed.

(** *** Bounds *)

(** X17. A table reached from the constructor never holds more
    mappings than its port range has ports, and every port that
    [translate_out] returns lies in the range, hence between 1 and
    65535; the address it returns is the table's public address. *)
Theorem X17_table_size_and_port_bounds pub (bounds : Z * Z) tmo s0 ops :
  __init__ pub bounds tmo = Ok s0 →
  let s := run lower ops s0 in
  Z.of_nat (length (mappings s)) <= bounds.2 - bounds.1 + 1 ∧
  (∀ p a n now pub' port s1,
     translate_out lower p a n now s = (Ok (pub', port), s1) →
     pub' = pub ∧ bounds.1 <= port <= bounds.2 ∧ 1 <= port <= 65535).
Proof.
  intros (-> & Hb)%init_table s. subst s.
  destruct (run_table lower ops pub bounds.1 bounds.2 tmo [] [] (wf_empty _ _))
    as (h & rs & -> & Hwf).
  split.
  - rewrite mappings_table, length_fmap by done.
    destruct Hwf as [_ _ Hnd Hrg].
    assert (Hsub : port_at h <$> rs ⊆+ range bounds.1 (bounds.2 + 1)).
    { apply NoDup_submseteq; [done|]. intros x Hx.
      eapply Forall_forall in Hrg; [|exact Hx]. cbv beta in Hrg.
      apply elem_of_range. lia. }
    apply submseteq_length in Hsub.
    rewrite length_fmap, pool_more.length_range in Hsub. lia.
  - intros p a n now pub' port s1 Hout.
    destruct (translate_out_ok _ p a n now pub' port s1
                (table_wf_inv pub bounds.1 bounds.2 tmo h rs Hwf) Hout)
      as (h1 & rs1 & r & _ & Hwf1 & Hr & _ & Hp & _ & ->).
    cbn [table public_ip pmin pmax] in *. split; [done|].
    destruct Hwf1 as [_ _ _ Hrg].
    eapply Forall_forall in Hrg;
      [|apply list_elem_of_fmap; by exists r].
    cbv beta in Hrg. lia.
Qed.

(** *** A table left alone *)

Lemma seen_by_touched T now h rs r :
  now <= T → seen_by T h rs → seen_by T (touched now h r) rs.
Proof.
  intros Hle Hs. apply Forall_forall. intros r' Hr'.
  eapply Forall_forall in Hs; [|exact Hr']. cbv beta in Hs.
  destruct (decide (r = r')) as [<-|Hne].
  - destruct (decide (r < length h)%nat).
    + by rewrite touched_seen.
    + unfold touched. by rewrite list_insert_ge by lia.
  - by rewrite touched_other.
Qed.

Lemma seen_by_filter T h rs (P : loc → Prop) `{!∀ r, Decision (P r)} :
  seen_by T h rs → seen_by T h (filter P rs).
Proof.
  intros Hs. apply Forall_forall. intros r [_ Hr]%list_elem_of_filter.
  by eapply Forall_forall in Hs.
Qed.

Lemma step_seen o T pub lo hi tmo h rs :
  wf lo hi h rs → seen_by T h rs → op_until T o →
  ∃ h' rs', step lower o (table pub lo hi tmo h rs)
    = table pub lo hi tmo h' rs' ∧
            wf lo hi h' rs' ∧ seen_by T h' rs'.
Proof.
  intros Hwf Hs Ho. destruct o as [p a n now|port t|p a n now|p a n|now];
    cbn [nat_table.step op_until] in *.
  - destruct (translate_out_cases lower p a n now pub lo hi tmo h rs Hwf)
      as [(r & Hr & Hk & ->)|[(Hk & port & Hf & ->)|(Hk & Hf & ->)]];
      cbn [snd]; eexists _, _; (split; [done|]).
    + split; [by apply wf_touched|by apply seen_by_touched].
    + split; [by apply wf_fresh_mapping|].
      apply Forall_app. split.
      * apply Forall_forall. intros r Hr.
        rewrite lookup_total_app_l by (by eapply table_valid_ref).
        by eapply Forall_forall in Hs.
      * apply Forall_singleton. by rewrite list_lookup_total_middle.
    + done.
  - destruct (decide (port ∈ port_at h <$> rs)) as [Hin|Hout].
    + apply list_elem_of_fmap in Hin as (r & -> & Hr).
      rewrite (translate_in_hit _ t pub lo hi tmo h rs r) by done.
      cbn [snd]. eexists _, _. split; [done|].
      destruct t; cbn [seen]; [|done].
      split; [by apply wf_touched|by apply seen_by_touched].
    + rewrite translate_in_miss by done. by eexists _, _.
  - destruct (decide ((lower p, a, n) ∈ key_at h <$> rs)) as [Hin|Hout].
    + apply list_elem_of_fmap in Hin as (r & Hk & Hr).
      rewrite (touch_hit lower p a n now pub lo hi tmo h rs r) by done.
      cbn [snd]. eexists _, _. split; [done|].
      split; [by apply wf_touched|by apply seen_by_touched].
    + rewrite touch_miss by done. by eexists _, _.
  - destruct (decide ((lower p, a, n) ∈ key_at h <$> rs)) as [Hin|Hout].
    + apply list_elem_of_fmap in Hin as (r & Hk & Hr).
      apply list_elem_of_split in Hr as (pre & post & ->).
      rewrite release_hit by done.
      cbn [snd]. eexists _, _. split; [done|].
      split; [by eapply table_wf_release|].
      apply Forall_app in Hs as [H1 H2%Forall_cons_1]. apply Forall_app.
      tauto.
    + rewrite release_miss by done. by eexists _, _.
  - rewrite expire_table by done. cbn [snd].
    eexists _, _. split; [done|].
    split; [by apply table_wf_sweep|by apply seen_by_filter].
Qed.

Lemma run_seen ops T pub lo hi tmo : ∀ h rs,
  wf lo hi h rs → seen_by T h rs → Forall (op_until T) ops →
  ∃ h' rs', run lower ops (table pub lo hi tmo h rs)
    = table pub lo hi tmo h' rs' ∧
            wf lo hi h' rs' ∧ seen_by T h' rs'.
Proof.
  induction ops as [|o ops IH]; intros h rs Hwf Hs Hops.
  - by exists h, rs.
  - apply Forall_cons in Hops as [Ho Hops].
    destruct (step_seen o T pub lo hi tmo h rs Hwf Hs Ho)
      as (h1 & rs1 & Hst & Hwf1 & Hs1).
    destruct (IH h1 rs1 Hwf1 Hs1 Hops) as (h2 & rs2 & Hr & Hwf2 & Hs2).
    exists h2, rs2. cbn [nat_table.run foldl]. rewrite Hst.
    by fold (run lower ops).
Qed.

(** X18. When every call on a table carried a time of at most [T], a
    sweep at [T] plus the timeout, or later, removes every mapping: it
    returns their number and leaves no mapping and no owned port. *)
Theorem X18_expire_after_silence_empties_table pub (bounds : Z * Z) tmo s0
    ops T now :
  __init__ pub bounds tmo = Ok s0 →
  Forall (op_until T) ops → now - T >= tmo →
  let s := run lower ops s0 in
  ∃ s', expire now s = (Ok (Z.of_nat (length (mappings s))), s') ∧
        mappings s' = [] ∧ ports s' = [].
Proof.
  intros (-> & _)%init_table Hops Hnow s. subst s.
  destruct (run_seen ops T pub bounds.1 bounds.2 tmo [] []
              (wf_empty _ _) (Forall_nil_2 _) Hops)
    as (h & rs & -> & Hwf & Hs).
  assert (Hidle : Forall (idle now tmo h) rs).
  { eapply Forall_impl; [exact Hs|]. intros r Hr. unfold idle.
    cbv beta in Hr. lia. }
  assert (Hnone : filter (fresh now tmo h) rs = []).
  { clear -Hidle. induction Hidle as [|r rs Hr _ IH]; [done|].
    rewrite filter_cons, decide_False; [done|]. unfold fresh. tauto. }
  assert (Hall : filter (idle now tmo h) rs = rs).
  { clear -Hidle. induction Hidle as [|r rs Hr _ IH]; [done|].
    by rewrite filter_cons, decide_True, IH. }
  eexists. rewrite expire_table by done. rewrite Hnone, Hall.
  rewrite mappings_table, length_fmap by done. by repeat split.
Qed.
End normalisation.
End nat_more.

(** ** The further properties at concrete inputs

    The pool below is 10.0.0.0/29 with a term of 100 after requests by
    [a], [b] and [c] at 0, 10 and 20; the table has ports 40000 to 40005
    and a timeout of 30, after two outbound translations. *)

Lemma X1_witness :
  let s := lease_pool.run
             [lease_pool.Request "a" 0; lease_pool.Request "b" 10;
              lease_pool.Request "c" 20]
             (lease_pool.__init__ (167772160, 29) 100 []) in
  ∃ n_all n_live n_gone s',
    lease_pool.active_count None s = (Ok n_all, s) ∧
    lease_pool.active_count (Some 105) s = (Ok n_live, s) ∧
    lease_pool.expire 105 s = (Ok n_gone, s') ∧
    n_all = Z.of_nat (length (lease_pool.leases s)) ∧
    n_live = Z.of_nat (length (filter (λ L, lease_pool.expiry L > 105)
                                 (lease_pool.leases s))) ∧
    n_all = n_live + n_gone ∧
    lease_pool.active_count None s' = (Ok n_live, s') ∧
    lease_pool.active_count (Some 105) s' = (Ok n_live, s').
Proof.
  intros s. apply (pool_more.X1_active_count_and_expire s 105).
  apply pool_facts.inv_run, pool_facts.init_inv.
Defined.

Lemma X3_witness :
  let s := lease_pool.run [lease_pool.Request "a" 0]
             (lease_pool.__init__ (167772160, 29) 100 [167772162]) in
  let hs := hosts (ip_network 167772160 29) in
  167772164 ∈ hs ∧ (167772164 ∉ [167772162]) ∧ head hs ≠ Some 167772164.
Proof.
  intros s.
  apply (pool_more.X3_returned_address_is_allocatable (167772160, 29) 100
           [167772162] [lease_pool.Request "a" 0] "b" 5 167772164
           (lease_pool.request "b" 5 s).2).
  left. vm_compute. reflexivity.
Defined.

Lemma X4_witness :
  let s := lease_pool.run
             [lease_pool.Request "a" 0; lease_pool.Request "b" 10;
              lease_pool.Request "c" 20]
             (lease_pool.__init__ (167772160, 29) 100 []) in
  lease_pool.renew "a" 105 s = lease_pool.request "a" 105 s.
Proof.
  intros s. apply (pool_more.X4_renew_without_live_lease_is_request s "a" 105).
  - apply pool_facts.inv_run, pool_facts.init_inv.
  - intros L HL. vm_compute in HL. injection HL as <-. simpl. lia.
Defined.


Lemma X6_witness :
  let s := lease_pool.run
             [lease_pool.Request "a" 0; lease_pool.Request "b" 10;
              lease_pool.Request "c" 20]
             (lease_pool.__init__ (167772160, 29) 100 []) in
  let L := lease_pool.mkLease "b" 167772163 110 in
  lease_pool.lease_of "b" (lease_pool.release "a" s).2 = Some L ∧
  lease_pool.lease_of "b" (lease_pool.request "a" 105 s).2 = Some L ∧
  lease_pool.lease_of "b" (lease_pool.renew "a" 105 s).2 = Some L.
Proof.
  intros s L.
  destruct (pool_more.X6_other_clients_keep_their_lease s "a" "b" L)
    as [H1 H2].
  - apply pool_facts.inv_run, pool_facts.init_inv.
  - discriminate.
  - vm_compute. reflexivity.
  - split; [exact H1|]. apply (H2 105). simpl. lia.
Defined.

Lemma X7_witness :
  let s := lease_pool.run [lease_pool.Request "c1" 0]
             (lease_pool.__init__ (167772160, 30) 10 []) in
  ∃ e s', lease_pool.request "c2" 1 s = (Raise e, s').
Proof.
  intros s.
  apply (pool_more.X7_request_raises_iff_nothing_to_give s "c2" 1).
  - apply pool_facts.inv_run, pool_facts.init_inv.
  - split; [reflexivity|]. split; [|reflexivity].
    repeat constructor.
Defined.

Lemma X8_witness :
  let s := lease_pool.run
             [lease_pool.Request "a" 0; lease_pool.Request "b" 10;
              lease_pool.Request "c" 20]
             (lease_pool.__init__ (167772160, 29) 100 []) in
  ∃ s', lease_pool.request "a" 105 s = (Ok 167772165, s') ∧
        lease_pool.leases s'
        = [lease_pool.mkLease "b" 167772163 110;
           lease_pool.mkLease "c" 167772164 120;
           lease_pool.mkLease "a" 167772165 205] ∧
        lease_pool._available s' = [167772166; 167772162].
Proof.
  intros s.
  destruct (pool_more.X8_request_allocates_queue_head s "a" 105 167772165
              [167772166])
    as (s' & H1 & _ & H3 & _ & H5 & _).
  - apply pool_facts.inv_run, pool_facts.init_inv.
  - vm_compute. reflexivity.
  - intros L HL. vm_compute in HL. injection HL as <-. simpl. lia.
  - exists s'. split; [exact H1|]. split.
    + rewrite H3. vm_compute. reflexivity.
    + rewrite H5. vm_compute. reflexivity.
Defined.

Lemma X9_witness :
  let n := ip_network 167772165 29 in
  let s := lease_pool.__init__ (167772165, 29) 100 [] in
  lease_pool._available s
  = range (network_address n + 2) (broadcast_address n) ∧
  broadcast_address n = network_address n + 2 ^ (32 - 29) - 1 ∧
  lease_pool.available_count s = 2 ^ (32 - 29) - 3.
Proof.
  intros n s.
  apply (proj1 (pool_more.X9_queue_of_new_pool 167772165 29 100)). lia.
Defined.

Lemma X19_witness :
  let s := lease_pool.run
             [lease_pool.Request "a" 0; lease_pool.Request "b" 10;
              lease_pool.Request "c" 20]
             (lease_pool.__init__ (167772160, 29) 100 []) in
  lease_pool.request "d" 105 (lease_pool.expire 105 s).2
  = lease_pool.request "d" 105 s ∧
  lease_pool.renew "d" 105 (lease_pool.expire 105 s).2
  = lease_pool.renew "d" 105 s.
Proof.
  intros s. apply (pool_more.X19_explicit_sweep_is_redundant s "d" 105).
  apply pool_facts.inv_run, pool_facts.init_inv.
Defined.

Lemma X10_witness :
  let s := nat_table.table "203.0.113.5" 40000 40005 30 [] [] in
  let s1 := (nat_table.translate_out lower_ascii
               "TCP" "192.168.0.10" 12345 0 s).2 in
  let ops := [nat_table.TranslateOut "udp" "192.168.0.11" 53 1;
              nat_table.TranslateIn 40000 (Some 2)] in
  ∃ s2, nat_table.translate_out lower_ascii "tcp" "192.168.0.10" 12345 3
          (nat_table.run lower_ascii ops s1)
        = (Ok ("203.0.113.5", 40000), s2).
Proof.
  intros s s1 ops.
  apply (nat_more.X10_same_tuple_same_port lower_ascii s "TCP" "tcp"
           "192.168.0.10" 12345 0 3 "203.0.113.5" 40000 s1 ops).
  - apply nat_facts.table_wf_inv, nat_facts.wf_empty.
  - vm_compute. reflexivity.
  - repeat constructor.
  - reflexivity.
Defined.

Lemma X11_witness :
  let s := nat_table.table "203.0.113.5" 40000 40005 30 [] [] in
  let s1 := (nat_table.translate_out lower_ascii
               "tcp" "192.168.0.10" 12345 0 s).2 in
  let ops := [nat_table.Touch "tcp" "192.168.0.10" 12345 1] in
  (40000 : Z) ≠ 40001.
Proof.
  intros s s1 ops.
  apply (nat_more.X11_different_keys_different_ports lower_ascii s
           "tcp" "192.168.0.10" 12345 0 "203.0.113.5" 40000 s1 ops
           "tcp" "192.168.0.11" 12346 2 "203.0.113.5" 40001
           (nat_table.translate_out lower_ascii "tcp" "192.168.0.11" 12346 2
              (nat_table.run lower_ascii ops s1)).2).
  - apply nat_facts.table_wf_inv, nat_facts.wf_empty.
  - vm_compute. reflexivity.
  - repeat constructor.
  - vm_compute. reflexivity.
  - discriminate.
Defined.

Lemma X12_witness :
  let s := nat_table.run lower_ascii
             [nat_table.TranslateOut "tcp" "192.168.0.10" 12345 0;
              nat_table.TranslateOut "udp" "192.168.0.11" 53 1]
             (nat_table.table "203.0.113.5" 40000 40005 30 [] []) in
  let k := (lower_ascii "TCP", "192.168.0.10", 12345) in
  ∃ s', nat_table.touch_by_internal lower_ascii "TCP" "192.168.0.10" 12345 10 s
        = (Ok (bool_decide (is_Some (nat_table.mapping_of k s))), s') ∧
        nat_table.inv s' ∧ nat_table.ports s' = nat_table.ports s ∧
        nat_table.mapping_of k s'
        = nat_table.set_last_seen 10 <$> nat_table.mapping_of k s ∧
        (∀ k', k' ≠ k →
               nat_table.mapping_of k' s' = nat_table.mapping_of k' s) ∧
        (∀ t, t - 10 < nat_table.timeout s →
              nat_table.mapping_of k (nat_table.expire t s').2
              = nat_table.mapping_of k s').
Proof.
  intros s.
  apply (nat_more.X12_touch_refreshes_and_keeps_alive lower_ascii s "TCP"
           "192.168.0.10" 12345 10).
  apply nat_facts.table_inv_run, nat_facts.table_wf_inv, nat_facts.wf_empty.
Defined.

Lemma X13_witness :
  let s := nat_table.run lower_ascii
             [nat_table.TranslateOut "tcp" "192.168.0.10" 12345 0;
              nat_table.TranslateOut "udp" "192.168.0.11" 53 1]
             (nat_table.table "203.0.113.5" 40000 40005 30 [] []) in
  let m := nat_table.mkMapping "tcp" "192.168.0.10" 12345 40000 0 in
  nat_table.mapping_of ("tcp", "192.168.0.10", 12345)
    (nat_table.expire 20 s).2 = Some m ∧
  nat_table.owner_of 40000 (nat_table.expire 20 s).2 = Some m.
Proof.
  intros s m.
  apply (nat_more.X13_expire_keeps_recent_mappings s
           ("tcp", "192.168.0.10", 12345) m 20).
  - apply nat_facts.table_inv_run, nat_facts.table_wf_inv, nat_facts.wf_empty.
  - vm_compute. reflexivity.
  - simpl. lia.
Defined.

Lemma X14_witness :
  let s := nat_table.run lower_ascii
             [nat_table.TranslateOut "tcp" "192.168.0.10" 12345 0;
              nat_table.TranslateOut "udp" "192.168.0.11" 53 1]
             (nat_table.table "203.0.113.5" 40000 40005 30 [] []) in
  ∃ s', nat_table.translate_in 40001 (Some 5) s
        = (Ok (nat_table.key_of <$> nat_table.owner_of 40001 s), s') ∧
        nat_table.inv s' ∧ nat_table.ports s' = nat_table.ports s ∧
        (Some 5 = None → s' = s) ∧
        (∀ t, Some 5 = Some t →
              nat_table.owner_of 40001 s'
              = nat_table.set_last_seen t <$> nat_table.owner_of 40001 s).
Proof.
  intros s. apply (nat_more.X14_translate_in_lookup s 40001 (Some 5)).
  apply nat_facts.table_inv_run, nat_facts.table_wf_inv, nat_facts.wf_empty.
Defined.

Lemma X15_witness :
  let s := nat_table.run lower_ascii
             [nat_table.TranslateOut "tcp" "192.168.0.10" 12345 0;
              nat_table.TranslateOut "udp" "192.168.0.11" 53 1]
             (nat_table.table "203.0.113.5" 40000 40005 30 [] []) in
  let k := (lower_ascii "TCP", "192.168.0.10", 12345) in
  ∃ s', nat_table.release lower_ascii "TCP" "192.168.0.10" 12345 s
        = (Ok (bool_decide (is_Some (nat_table.mapping_of k s))), s') ∧
        nat_table.inv s' ∧
        nat_table.mapping_of k s' = None ∧
        (∀ m, nat_table.mapping_of k s = Some m →
              (nat_table.external_port m ∉ nat_table.ports s') ∧
              nat_table.owner_of (nat_table.external_port m) s' = None) ∧
        (∀ k', k' ≠ k →
               nat_table.mapping_of k' s' = nat_table.mapping_of k' s) ∧
        (nat_table.mapping_of k s = None → s' = s).
Proof.
  intros s.
  apply (nat_more.X15_release_frees_key_and_port lower_ascii s "TCP"
           "192.168.0.10" 12345).
  apply nat_facts.table_inv_run, nat_facts.table_wf_inv, nat_facts.wf_empty.
Defined.

Lemma X16_witness :
  let s := nat_table.run lower_ascii
             [nat_table.TranslateOut "tcp" "192.168.0.10" 12345 0;
              nat_table.TranslateOut "udp" "192.168.0.11" 53 1]
             (nat_table.table "203.0.113.5" 40000 40005 30 [] []) in
  let m := nat_table.mkMapping "tcp" "192.168.0.10" 12345 40000 0 in
  let s1 := (nat_table.release lower_ascii "tcp" "192.168.0.10" 12345 s).2 in
  ∃ port s2,
    nat_table.translate_out lower_ascii "tcp" "192.168.0.12" 80 7 s1
    = (Ok (nat_table.public_ip s, port), s2) ∧
    nat_table.pmin s <= port ∧ port <= nat_table.external_port m.
Proof.
  intros s m.
  apply (nat_more.X16_released_port_is_reused_lowest_first lower_ascii s
           "tcp" "192.168.0.10" 12345 m "tcp" "192.168.0.12" 80 7).
  - apply nat_facts.table_inv_run, nat_facts.table_wf_inv, nat_facts.wf_empty.
  - vm_compute. reflexivity.
  - vm_compute. reflexivity.
Defined.

Lemma X17_witness :
  let s := nat_table.run lower_ascii
             [nat_table.TranslateOut "tcp" "192.168.0.10" 12345 0;
              nat_table.TranslateOut "udp" "192.168.0.11" 53 1]
             (nat_table.table "203.0.113.5" 40000 40005 30 [] []) in
  Z.of_nat (length (nat_table.mappings s)) <= 40005 - 40000 + 1 ∧
  (∀ p a n now pub' port s1,
     nat_table.translate_out lower_ascii p a n now s = (Ok (pub', port), s1) →
     pub' = "203.0.113.5" ∧ 40000 <= port <= 40005 ∧ 1 <= port <= 65535).
Proof.
  intros s.
  apply (nat_more.X17_table_size_and_port_bounds lower_ascii "203.0.113.5"
           (40000, 40005) 30
           (nat_table.table "203.0.113.5" 40000 40005 30 [] [])).
  vm_compute. reflexivity.
Defined.

Lemma X18_witness :
  let s := nat_table.run lower_ascii
             [nat_table.TranslateOut "tcp" "192.168.0.10" 12345 0;
              nat_table.TranslateOut "tcp" "192.168.0.11" 12346 1;
              nat_table.Touch "tcp" "192.168.0.10" 12345 10]
             (nat_table.table "203.0.113.5" 40000 40005 30 [] []) in
  ∃ s', nat_table.expire 100 s
        = (Ok (Z.of_nat (length (nat_table.mappings s))), s') ∧
        nat_table.mappings s' = [] ∧ nat_table.ports s' = [].
Proof.
  intros s.
  apply (nat_more.X18_expire_after_silence_empties_table lower_ascii "203.0.113.5"
           (40000, 40005) 30
           (nat_table.table "203.0.113.5" 40000 40005 30 [] [])
           [nat_table.TranslateOut "tcp" "192.168.0.10" 12345 0;
            nat_table.TranslateOut "tcp" "192.168.0.11" 12346 1;
            nat_table.Touch "tcp" "192.168.0.10" 12345 10] 10 100).
  - vm_compute. reflexivity.
  - repeat constructor; simpl; lia.
  - lia.
Defined.
